(** * Time-lagged churn elasticity model ([python/churn_model.py])

    The module is a small numeric calculator: a logistic regression with
    fixed coefficients, evaluated for four time horizons and rescaled per
    customer segment.  The embedding below follows the Python text line by
    line:

    - a Python [dict] is an insertion-ordered association list;
    - a subscript [d[k]] on a missing key raises [KeyError], arithmetic on
      a non-number raises [TypeError]; both are values of [result];
    - the arithmetic is kept behind an interface ([Arith]), because the
      same Python text is read twice: over binary64 floating point, which
      is what the interpreter executes ([Binary64]), and over the real
      numbers, the arithmetic in which the regression model is usually
      discussed ([Exact]). *)

From Stdlib Require Import ZArith QArith Reals Floats.
From Stdlib Require Import Bool Ascii String List Lia Lra Psatz.
Import ListNotations.

Local Open Scope string_scope.
Local Open Scope list_scope.

(** ** Exceptions *)

(** The exceptions the module raises on the values of the model, floats
    and strings. *)
Inductive error : Type :=
| KeyError (key : string)
| TypeError.

Inductive result (A : Type) : Type :=
| Ok (a : A)
| Err (e : error).

Arguments Ok {A} a.
Arguments Err {A} e.

Definition bind {A B : Type} (r : result A) (k : A -> result B) : result B :=
  match r with
  | Ok a => k a
  | Err e => Err e
  end.

Notation "x <- r ;; k" := (bind r (fun x => k))
  (at level 61, r at next level, right associativity).

(** A [for] loop whose body may raise: the state is threaded through the
    items in order and the first exception ends the loop. *)
Fixpoint for_each {A S : Type} (items : list A) (body : S -> A -> result S)
  (s : S) : result S :=
  match items with
  | [] => Ok s
  | x :: rest => s' <- body s x ;; for_each rest body s'
  end.

(** ** Dictionaries *)

Definition dict (V : Type) : Type := list (string * V).

Fixpoint dict_get {V : Type} (d : dict V) (k : string) : option V :=
  match d with
  | [] => None
  | (k', v) :: rest => if String.eqb k' k then Some v else dict_get rest k
  end.

(** [d.get(k, default)] *)
Definition dict_get_default {V : Type} (d : dict V) (k : string) (default : V) : V :=
  match dict_get d k with
  | Some v => v
  | None => default
  end.

(** [d[k]] *)
Definition dict_item {V : Type} (d : dict V) (k : string) : result V :=
  match dict_get d k with
  | Some v => Ok v
  | None => Err (KeyError k)
  end.

(** [d[k] = v]: an existing key keeps its position, a new key goes last. *)
Fixpoint dict_set {V : Type} (d : dict V) (k : string) (v : V) : dict V :=
  match d with
  | [] => [(k, v)]
  | (k', v') :: rest =>
      if String.eqb k' k then (k, v) :: rest else (k', v') :: dict_set rest k v
  end.

(** [d.items()] *)
Definition dict_items {V : Type} (d : dict V) : list (string * V) := d.

Definition dict_keys {V : Type} (d : dict V) : list string := map fst d.

(** ** The [str] methods the module calls *)

(** [s.replace(old, new)] for a non-empty [old]: occurrences are found from
    the left and do not overlap.  [skip] counts the characters of a match
    that are still to be dropped. *)
Fixpoint replace_from (old new s : string) (skip : nat) : string :=
  match s with
  | EmptyString => EmptyString
  | String c s' =>
      match skip with
      | S n => replace_from old new s' n
      | O =>
          if String.prefix old s
          then (new ++ replace_from old new s' (String.length old - 1))%string
          else String c (replace_from old new s' 0)
      end
  end.

Definition replace (old new s : string) : string := replace_from old new s 0.

Definition lower_ascii (c : ascii) : ascii :=
  let n := nat_of_ascii c in
  if (65 <=? n)%nat && (n <=? 90)%nat then ascii_of_nat (n + 32) else c.

(** [s.lower()] on ASCII text *)
Fixpoint lower (s : string) : string :=
  match s with
  | EmptyString => EmptyString
  | String c s' => String (lower_ascii c) (lower s')
  end.

(** [s.replace(c, new)] for a one-character pattern, as a plain map over the
    characters; [replace_char] below shows that [replace] computes it. *)
Fixpoint substitute (c : ascii) (new s : string) : string :=
  match s with
  | EmptyString => EmptyString
  | String c' s' =>
      ((if Ascii.eqb c c' then new else String c' EmptyString) ++ substitute c new s')%string
  end.

(** ** Numbers *)

(** What the module asks of its numbers: decimal literals, the four
    operations, negation, [abs], the comparison [<] behind [min], and
    [np.exp]. *)
Class Arith (T : Type) : Type := {
  n_lit : Q -> T;
  n_add : T -> T -> T;
  n_sub : T -> T -> T;
  n_mul : T -> T -> T;
  n_div : T -> T -> T;
  n_neg : T -> T;
  n_abs : T -> T;
  n_lt : T -> T -> bool;
  n_exp : T -> T
}.

Arguments n_lit {T _} q%_Q.

Declare Scope py_scope.
Delimit Scope py_scope with py.
Notation "x + y" := (n_add x y) : py_scope.
Notation "x - y" := (n_sub x y) : py_scope.
Notation "x * y" := (n_mul x y) : py_scope.
Notation "x / y" := (n_div x y) : py_scope.
Notation "- x" := (n_neg x) : py_scope.

(** A value stored in a scenario, a segment or a segment result: a float
    (an [int] that fits a float behaves like that float in the arithmetic
    of the module) or a string.  Other Python values, among them an [int]
    too large for a float, are outside the model. *)
Inductive value (T : Type) : Type :=
| Num (x : T)
| Str (s : string).

Arguments Num {T} x.
Arguments Str {T} s.

(** A number is needed: anything else is a [TypeError]. *)
Definition as_num {T : Type} (v : value T) : result T :=
  match v with
  | Num x => Ok x
  | Str _ => Err TypeError
  end.

(** The inner dictionary [{'churn_rate': .., 'churn_uplift': ..,
    'churn_uplift_pp': ..}], whose keys are fixed. *)
Record horizon_result (T : Type) : Type := {
  churn_rate : T;
  churn_uplift : T;
  churn_uplift_pp : T
}.

Arguments churn_rate {T} h.
Arguments churn_uplift {T} h.
Arguments churn_uplift_pp {T} h.

Section Model.

Context {T : Type} {A : Arith T}.

Local Open Scope py_scope.

Definition CHURN_COEFFICIENTS : dict T :=
  [ ("intercept", n_lit (-2.944));
    ("price_change_pct", n_lit 0.01);
    ("price_x_0_4wks", n_lit 0.006);
    ("price_x_4_8wks", n_lit 0.018);
    ("price_x_8_12wks", n_lit 0.028);
    ("price_x_12plus", n_lit 0.008) ].

Definition logistic (x : T) : T :=
  n_lit 1 / (n_lit 1 + n_exp (- x)).

(** [min(a, b)] of Python: the first argument unless the second is
    strictly smaller. *)
Definition py_min (a b : T) : T := if n_lt b a then b else a.

Definition horizon_body (price_change_pct baseline_churn : value T)
  (results_by_horizon : dict (horizon_result T)) (item : string * T)
  : result (dict (horizon_result T)) :=
  let '(horizon_name, coef) := item in
  intercept <- dict_item CHURN_COEFFICIENTS "intercept" ;;
  base_coef <- dict_item CHURN_COEFFICIENTS "price_change_pct" ;;
  pct <- as_num price_change_pct ;;
  let log_odds := intercept + base_coef * pct + coef * pct in
  let churn_prob := logistic log_odds in
  base <- as_num baseline_churn ;;
  let churn_uplift := churn_prob - base in
  Ok (dict_set results_by_horizon horizon_name
        {| churn_rate := churn_prob;
           churn_uplift := churn_uplift;
           churn_uplift_pp := churn_uplift * n_lit 100 |}).

Definition predict_churn_by_horizon (scenario : dict (value T))
  : result (dict (horizon_result T)) :=
  let price_change_pct := dict_get_default scenario "price_change_pct" (Num (n_lit 0)) in
  let baseline_churn := dict_get_default scenario "baseline_churn" (Num (n_lit 0.05)) in
  c_0_4 <- dict_item CHURN_COEFFICIENTS "price_x_0_4wks" ;;
  c_4_8 <- dict_item CHURN_COEFFICIENTS "price_x_4_8wks" ;;
  c_8_12 <- dict_item CHURN_COEFFICIENTS "price_x_8_12wks" ;;
  c_12plus <- dict_item CHURN_COEFFICIENTS "price_x_12plus" ;;
  let horizons : dict T :=
    [ ("0-4 Weeks", c_0_4);
      ("4-8 Weeks", c_4_8);
      ("8-12 Weeks", c_8_12);
      ("12+ Weeks", c_12plus) ] in
  for_each (dict_items horizons) (horizon_body price_change_pct baseline_churn) [].

(** [0.7 + (min(elasticity, 4.0) / 4.0) * 0.6], where [elasticity] is
    already the magnitude. *)
Definition segment_multiplier (elasticity : T) : T :=
  n_lit 0.7 + (py_min elasticity (n_lit 4.0) / n_lit 4.0) * n_lit 0.6.

Definition horizon_key (horizon : string) : string :=
  lower (replace "+" "plus" (replace "-" "_" (replace " " "_" horizon))).

Definition scale_body (multiplier : T) (segment_result : dict (value T))
  (item : string * horizon_result T) : result (dict (value T)) :=
  let '(horizon, values) := item in
  Ok (dict_set segment_result ("churn_" ++ horizon_key horizon)%string
        (Num (churn_uplift_pp values * multiplier))).

Definition segment_body (scenario : dict (value T))
  (results : list (dict (value T))) (segment : dict (value T))
  : result (list (dict (value T))) :=
  horizons <- predict_churn_by_horizon scenario ;;
  e <- as_num (dict_get_default segment "elasticity" (Num (n_lit (-2.0)))) ;;
  let elasticity := n_abs e in
  let multiplier := segment_multiplier elasticity in
  name <- dict_item segment "name" ;;
  size <- dict_item segment "size" ;;
  let segment_result : dict (value T) := [ ("name", name); ("size", size) ] in
  segment_result <- for_each (dict_items horizons) (scale_body multiplier) segment_result ;;
  Ok (results ++ [segment_result]).

Definition predict_churn_by_segment (scenario : dict (value T))
  (segments : list (dict (value T))) : result (list (dict (value T))) :=
  for_each segments (segment_body scenario) [].


(** *** Names for what the theorems speak about *)

(** The entry the loop of [predict_churn_by_horizon] stores for a horizon
    whose interaction coefficient is [coef]. *)
Definition horizon_entry (pct base coef : T) : horizon_result T :=
  let rate := logistic (n_lit (-2.944) + n_lit 0.01 * pct + coef * pct) in
  {| churn_rate := rate;
     churn_uplift := rate - base;
     churn_uplift_pp := (rate - base) * n_lit 100 |}.

Definition horizon_table (pct base : T) : dict (horizon_result T) :=
  [ ("0-4 Weeks", horizon_entry pct base (n_lit 0.006));
    ("4-8 Weeks", horizon_entry pct base (n_lit 0.018));
    ("8-12 Weeks", horizon_entry pct base (n_lit 0.028));
    ("12+ Weeks", horizon_entry pct base (n_lit 0.008)) ].

Definition scenario_pct (scenario : dict (value T)) : value T :=
  dict_get_default scenario "price_change_pct" (Num (n_lit 0)).

Definition scenario_base (scenario : dict (value T)) : value T :=
  dict_get_default scenario "baseline_churn" (Num (n_lit 0.05)).

Definition segment_elasticity (segment : dict (value T)) : value T :=
  dict_get_default segment "elasticity" (Num (n_lit (-2.0))).

(** The numeric fields a segment result gets from the horizon table. *)
Definition churn_fields (hz : dict (horizon_result T)) (multiplier : T)
  : dict (value T) :=
  map (fun item : string * horizon_result T =>
         (("churn_" ++ horizon_key (fst item))%string,
          Num (churn_uplift_pp (snd item) * multiplier)))
      hz.

(** The input contract of a segment: [name] and [size] are given, and
    [elasticity], when given, is a number. *)
Definition numeric_elasticity (segment : dict (value T)) : Prop :=
  exists e, segment_elasticity segment = Num e.

Definition lacks_field (segment : dict (value T)) : Prop :=
  dict_get segment "name" = None \/ dict_get segment "size" = None.

Definition has_fields (segment : dict (value T)) : Prop :=
  (exists name, dict_get segment "name" = Some name) /\
  (exists size, dict_get segment "size" = Some size).

(** [r] is the result computed for [segment]. *)
Definition result_of (pct base : T) (segment r : dict (value T)) : Prop :=
  exists e name size,
    segment_elasticity segment = Num e /\
    dict_get segment "name" = Some name /\
    dict_get segment "size" = Some size /\
    r = ("name", name) :: ("size", size)
          :: churn_fields (horizon_table pct base) (segment_multiplier (n_abs e)).

(** A segment with its [elasticity] written out: the default of
    [segment.get('elasticity', -2.0)] is put in front when the key is absent. *)
Definition explicit_elasticity (segment : dict (value T)) : dict (value T) :=
  match dict_get segment "elasticity" with
  | Some _ => segment
  | None => ("elasticity", Num (n_lit (-2.0))) :: segment
  end.

(** Two segment results that differ at most in [name] and [size]. *)
Definition same_churn_fields (r1 r2 : dict (value T)) : Prop :=
  exists fields name1 size1 name2 size2,
    r1 = ("name", name1) :: ("size", size1) :: fields /\
    r2 = ("name", name2) :: ("size", size2) :: fields.

(** [name] and [size] of the result are those of the segment. *)
Definition copies_fields (segment r : dict (value T)) : Prop :=
  dict_get r "name" = dict_get segment "name" /\
  dict_get r "size" = dict_get segment "size".

(** The keys of a segment result, in insertion order. *)
Definition segment_result_keys : list string :=
  [ "name"; "size"; "churn_0_4_weeks"; "churn_4_8_weeks";
    "churn_8_12_weeks"; "churn_12plus_weeks" ].

(** [r] is [name], [size] and, for each horizon of [hz], the field
    [churn_<key>] holding that horizon's [churn_uplift_pp] times the
    multiplier. *)
Definition scaled_result (hz : dict (horizon_result T)) (multiplier : T)
  (segment r : dict (value T)) : Prop :=
  copies_fields segment r /\
  dict_keys r = segment_result_keys /\
  forall horizon values,
    In (horizon, values) hz ->
    dict_get r ("churn_" ++ horizon_key horizon)%string
    = Some (Num (churn_uplift_pp values * multiplier)).


End Model.

(** ** Exact arithmetic: the real numbers *)

Module Exact.

Definition Rltb (x y : R) : bool := if Rlt_dec x y then true else false.

#[export] Instance arith : Arith R := {|
  n_lit := Q2R;
  n_add := Rplus;
  n_sub := Rminus;
  n_mul := Rmult;
  n_div := Rdiv;
  n_neg := Ropp;
  n_abs := Rabs;
  n_lt := Rltb;
  n_exp := exp
|}.

(** The module read over the real numbers. *)
Abbreviation logistic := (@logistic R arith) (only parsing).
Abbreviation segment_multiplier := (@segment_multiplier R arith) (only parsing).
Abbreviation predict_churn_by_horizon := (@predict_churn_by_horizon R arith) (only parsing).
Abbreviation predict_churn_by_segment := (@predict_churn_by_segment R arith) (only parsing).

End Exact.

(** ** Binary64 arithmetic: what the interpreter executes *)

Module Binary64.

Local Open Scope float_scope.

Definition of_Z (z : Z) : float := SF2Prim (binary_normalize prec emax z 0 false).

(** A decimal literal denotes the double nearest to it; the quotient of
    two exactly represented integers is rounded the same way. *)
Definition literal (q : Q) : float := of_Z (Qnum q) / of_Z (Zpos (Qden q)).

(** [np.exp] is a library routine, not part of the module: the
    arithmetic takes it as a parameter. *)
Definition arith (np_exp : float -> float) : Arith float := {|
  n_lit := literal;
  n_add := PrimFloat.add;
  n_sub := PrimFloat.sub;
  n_mul := PrimFloat.mul;
  n_div := PrimFloat.div;
  n_neg := PrimFloat.opp;
  n_abs := PrimFloat.abs;
  n_lt := PrimFloat.ltb;
  n_exp := np_exp
|}.

(** What the theorems below ask of [np.exp]: it saturates instead of
    raising.  [exp(-746)] is below half of the smallest subnormal double
    and [exp(710)] is above the largest finite double. *)
Record libm_exp (np_exp : float -> float) : Prop := {
  exp_underflow : forall x, (x <=? -746) = true -> np_exp x = 0;
  exp_overflow : forall x, (710 <=? x) = true -> np_exp x = infinity
}.

(** *** A reference exponential

    An executable stand-in for [np.exp], used to run the model: argument
    reduction [x = k ln 2 + r] followed by the Taylor polynomial of
    degree 14 in [r], with the two saturation tests first.  It agrees
    with the exponential up to a few units in the last place; nothing
    proved below depends on more than [libm_exp]. *)

Definition Z_of_integral (x : float) : Z :=
  match Prim2SF x with
  | S754_finite s m e =>
      let n := match e with
               | Zneg p => Z.shiftr (Zpos m) (Zpos p)
               | _ => Z.shiftl (Zpos m) e
               end in
      if s then Z.opp n else n
  | _ => 0%Z
  end.

(** Round to the nearest integer by adding and subtracting [1.5 * 2^52]. *)
Definition nearest_integer (x : float) : float :=
  (x + 0x1.8p52) - 0x1.8p52.

Definition ln2_hi : float := 0x1.62e42feep-1.
Definition ln2_lo : float := 0x1.a39ef35793c76p-33.
Definition inv_ln2 : float := 0x1.71547652b82fep0.

Fixpoint taylor_exp (n : nat) (i : float) (r : float) : float :=
  match n with
  | O => 1
  | S n' => 1 + (r / i) * taylor_exp n' (i + 1) r
  end.

Definition exp64 (x : float) : float :=
  if 710 <=? x then infinity
  else if x <=? -746 then 0
  else if is_nan x then nan
  else
    let k := nearest_integer (x * inv_ln2) in
    let r := (x - k * ln2_hi) - k * ln2_lo in
    Z.ldexp (taylor_exp 14 1 r) (Z_of_integral k).

(** The arithmetic the model is run with. *)
Definition reference : Arith float := arith exp64.

(** The module read over binary64, with [np_exp] for [np.exp]. *)
Abbreviation logistic np_exp := (@logistic float (arith np_exp)) (only parsing).
Abbreviation segment_multiplier np_exp :=
  (@segment_multiplier float (arith np_exp)) (only parsing).
Abbreviation predict_churn_by_horizon np_exp :=
  (@predict_churn_by_horizon float (arith np_exp)) (only parsing).
Abbreviation predict_churn_by_segment np_exp :=
  (@predict_churn_by_segment float (arith np_exp)) (only parsing).

End Binary64.

(** ** Values of binary64 numbers

    What is needed to speak of the real number a double stands for, and
    of where a real number lies on the grid of doubles. *)

Definition bpow (e : Z) : R := powerRZ 2 e.

Definition F2R (m : Z) (e : Z) : R := (IZR m * bpow e)%R.

(** The exponent of a double is determined by its magnitude. *)
Definition canonical (m : positive) (e : Z) : Prop :=
  fexp prec emax (Zpos (digits2_pos m) + e)%Z = e.

(** Where a real number lies between [m * 2^e] and [(m + 1) * 2^e]. *)
Definition inbetween (x : R) (m e : Z) (l : location) : Prop :=
  match l with
  | loc_Exact => x = F2R m e
  | loc_Inexact Lt => (F2R m e < x < F2R m e + bpow e / 2)%R
  | loc_Inexact Eq => x = (F2R m e + bpow e / 2)%R
  | loc_Inexact Gt => (F2R m e + bpow e / 2 < x < F2R m e + bpow e)%R
  end.

(** Shapes of a non-negative result. *)
Definition nonneg (f : spec_float) : Prop :=
  match f with
  | S754_zero _ => True
  | S754_infinity false => True
  | S754_finite false _ _ => True
  | _ => False
  end.

(** A zero, or a positive finite number of value at most [b]. *)
Definition le_value (f : spec_float) (b : R) : Prop :=
  match f with
  | S754_zero _ => True
  | S754_finite false m e => (F2R (Zpos m) e <= b)%R
  | _ => False
  end.

(** Positive infinity, or a positive finite number of value at least [b]. *)
Definition ge_value (f : spec_float) (b : R) : Prop :=
  match f with
  | S754_infinity false => True
  | S754_finite false m e => (b <= F2R (Zpos m) e)%R
  | _ => False
  end.

(** ** Sample inputs *)

(** A price rise of 16.67 percent at the default baseline. *)
Definition scenario_16 : dict (value float) :=
  [ ("price_change_pct", Num (Binary64.literal 16.67));
    ("baseline_churn", Num (Binary64.literal 0.05)) ].

Definition segment_a : dict (value float) :=
  [ ("name", Str "a"); ("size", Num 10%float); ("elasticity", Num (-4)%float) ].

(** No elasticity: the default applies. *)
Definition segment_b : dict (value float) :=
  [ ("name", Str "b"); ("size", Str "large") ].

(** No name. *)
Definition segment_c : dict (value float) :=
  [ ("size", Num 3%float); ("elasticity", Num (-1)%float) ].

(** [segment_a] under another name and size. *)
Definition segment_a' : dict (value float) :=
  [ ("name", Str "z"); ("size", Num 99%float); ("elasticity", Num (-4)%float) ].

(** ** What the further properties speak about *)

Section ModelNames.

Context {T : Type} {A : Arith T}.

Local Open Scope py_scope.

(** What goes wrong first in one iteration of the loop over the segments,
    once the scenario is known to be numeric: [abs] of the elasticity is
    taken before ['name'] is read, and ['name'] before ['size']. *)
Definition segment_fault (segment : dict (value T)) : option error :=
  match segment_elasticity segment with
  | Str _ => Some TypeError
  | Num _ =>
      match dict_get segment "name" with
      | None => Some (KeyError "name")
      | Some _ =>
          match dict_get segment "size" with
          | None => Some (KeyError "size")
          | Some _ => None
          end
      end
  end.

(** Two segments that agree on the three keys the loop reads. *)
Definition same_read_keys (s1 s2 : dict (value T)) : Prop :=
  dict_get s1 "elasticity" = dict_get s2 "elasticity" /\
  dict_get s1 "name" = dict_get s2 "name" /\
  dict_get s1 "size" = dict_get s2 "size".

(** Two segments with the same [name] and [size] whose elasticities are
    numbers related by [rel]. *)
Definition same_but_elasticity (rel : T -> T -> Prop) (s1 s2 : dict (value T)) : Prop :=
  dict_get s1 "name" = dict_get s2 "name" /\
  dict_get s1 "size" = dict_get s2 "size" /\
  exists e1 e2,
    segment_elasticity s1 = Num e1 /\ segment_elasticity s2 = Num e2 /\ rel e1 e2.

End ModelNames.

(** [c in s] *)
Fixpoint occurs (c : ascii) (s : string) : bool :=
  match s with
  | EmptyString => false
  | String c' s' => Ascii.eqb c c' || occurs c s'
  end.

Definition is_upper (c : ascii) : bool :=
  let n := nat_of_ascii c in (65 <=? n)%nat && (n <=? 90)%nat.

(** Some character of [s] is one of [A] to [Z]. *)
Fixpoint has_upper (s : string) : bool :=
  match s with
  | EmptyString => false
  | String c s' => is_upper c || has_upper s'
  end.

(** All characters of [s] are ASCII, the text [lower] is written for. *)
Fixpoint is_ascii_text (s : string) : bool :=
  match s with
  | EmptyString => true
  | String c s' => (nat_of_ascii c <? 128)%nat && is_ascii_text s'
  end.

(** ** Further sample inputs *)

(** [segment_a] with the sign of its elasticity turned. *)
Definition segment_a_pos : dict (value float) :=
  [ ("name", Str "a"); ("size", Num 10%float); ("elasticity", Num 4%float) ].

(** [segment_a] with a larger magnitude. *)
Definition segment_a_steep : dict (value float) :=
  [ ("name", Str "a"); ("size", Num 10%float); ("elasticity", Num (-10)%float) ].

(** [segment_a] and [scenario_16] with a key the module does not name. *)
Definition segment_a_tagged : dict (value float) :=
  [ ("region", Str "emea"); ("name", Str "a"); ("size", Num 10%float);
    ("elasticity", Num (-4)%float) ].

Definition scenario_16_tagged : dict (value float) :=
  [ ("currency", Str "usd");
    ("price_change_pct", Num (Binary64.literal 16.67));
    ("baseline_churn", Num (Binary64.literal 0.05)) ].

(** ** What the order theorems speak about *)

Section ModelOdds.

Context {T : Type} {A : Arith T}.

Local Open Scope py_scope.

(** [log_odds] of the loop of [predict_churn_by_horizon], for a horizon
    whose interaction coefficient is [coef]. *)
Definition log_odds (pct coef : T) : T :=
  n_lit (-2.944) + n_lit 0.01 * pct + coef * pct.

End ModelOdds.

(** What the order theorems ask of [np.exp]: on a number it returns a
    non-negative number, and it keeps the order of its arguments. *)
Record monotone_exp (np_exp : float -> float) : Prop := {
  exp_nonneg : forall y : float, (y =? y)%float = true -> (0 <=? np_exp y)%float = true;
  exp_monotone : forall u v : float,
    (u <=? v)%float = true -> (np_exp u <=? np_exp v)%float = true
}.

(** A price rise too small to move the log-odds. *)
Definition scenario_tiny : dict (value float) :=
  [ ("price_change_pct", Num (Binary64.literal 1e-20)) ].

(** Neither a name nor a number for an elasticity. *)
Definition segment_untyped : dict (value float) :=
  [ ("size", Num 3%float); ("elasticity", Str "high") ].

(** A scenario whose price change is not a number. *)
Definition scenario_untyped : dict (value float) :=
  [ ("price_change_pct", Str "high") ].

(** ** Rounding to nearest, as a relation

    What is needed to say that an operation of binary64 returns the double
    nearest to the exact result, and to compare two such results. *)

(** The grid on which a non-negative real is rounded: exponent [e] with
    mantissas of at most [prec] bits, full ones above the subnormal range. *)
Definition grid_point (m e : Z) : Prop :=
  (0 <= m < 2 ^ prec)%Z /\ (emin <= e)%Z /\ (2 ^ (prec - 1) <= m \/ e = emin)%Z.

(** The non-negative number [r] stands for the real [v], or overflows. *)
Definition lands (v : R) (r : spec_float) : Prop :=
  match r with
  | S754_zero _ => v = 0%R
  | S754_finite false m e => F2R (Zpos m) e = v
  | S754_infinity false => (bpow emax <= v)%R
  | _ => False
  end.

(** [r] is the rounding to nearest, ties to even, of the non-negative
    real [x]. *)
Definition rounds_to (x : R) (r : spec_float) : Prop :=
  exists m e l,
    grid_point m e /\ inbetween x m e l /\ lands (F2R (round_nearest_even m l) e) r.

(** The real a finite number stands for; [0] for the others. *)
Definition val (f : spec_float) : R :=
  match f with
  | S754_finite s m e => if s then (- F2R (Zpos m) e)%R else F2R (Zpos m) e
  | _ => 0%R
  end.

(** A finite number, zero included. *)
Definition finite_or_zero (f : spec_float) : Prop :=
  match f with
  | S754_zero _ | S754_finite _ _ _ => True
  | _ => False
  end.

(** [r] is the rounding of the real [x], of either sign. *)
Definition rounds_signed (x : R) (r : spec_float) : Prop :=
  ((0 <= x)%R /\ rounds_to x r) \/ ((x <= 0)%R /\ rounds_to (- x) (SFopp r)).

(** The place of a number on the real line, the infinities at the two
    ends of the range: binary64 numbers are ordered like their places. *)
Definition ord (f : spec_float) : R :=
  match f with
  | S754_infinity s => if s then (- bpow emax)%R else bpow emax
  | _ => val f
  end.

(** * Properties *)

(** ** The loop combinator and dictionaries *)

Lemma for_each_app {A S : Type} (xs ys : list A) (body : S -> A -> result S) (s : S) :
  for_each (xs ++ ys) body s = (s' <- for_each xs body s ;; for_each ys body s').
Proof.
  revert s; induction xs as [|x xs IH]; intros s; simpl; [reflexivity|].
  destruct (body s x) as [s'|e]; simpl; [apply IH | reflexivity].
Qed.

Lemma dict_get_set_same {V : Type} (d : dict V) (k : string) (v : V) :
  dict_get (dict_set d k v) k = Some v.
Proof.
  induction d as [|[k' v'] d IH]; simpl.
  - now rewrite String.eqb_refl.
  - destruct (String.eqb k' k) eqn:E; simpl.
    + now rewrite String.eqb_refl.
    + now rewrite E.
Qed.

Lemma dict_get_set_other {V : Type} (d : dict V) (k k0 : string) (v : V) :
  k <> k0 -> dict_get (dict_set d k v) k0 = dict_get d k0.
Proof.
  intros Hk; induction d as [|[k' v'] d IH]; simpl.
  - destruct (String.eqb k k0) eqn:E; [apply String.eqb_eq in E; contradiction | reflexivity].
  - destruct (String.eqb k' k) eqn:E; simpl.
    + apply String.eqb_eq in E; subst k'.
      destruct (String.eqb k k0) eqn:E'; [apply String.eqb_eq in E'; contradiction | reflexivity].
    + now rewrite IH.
Qed.

Lemma dict_item_ok {V : Type} (d : dict V) (k : string) (v : V) :
  dict_item d k = Ok v <-> dict_get d k = Some v.
Proof.
  unfold dict_item; destruct (dict_get d k); split; intros H; inversion H; reflexivity.
Qed.

Lemma dict_item_err {V : Type} (d : dict V) (k : string) (e : error) :
  dict_item d k = Err e -> dict_get d k = None /\ e = KeyError k.
Proof.
  unfold dict_item; destruct (dict_get d k); intros H; inversion H; auto.
Qed.

(** ** [str.replace] with a one-character pattern and [str.lower] *)


Lemma replace_char (c : ascii) (new s : string) :
  replace (String c EmptyString) new s = substitute c new s.
Proof.
  unfold replace; induction s as [|c' s IH]; simpl; [reflexivity|].
  destruct (Ascii.ascii_dec c c') as [->|Hne].
  - rewrite Ascii.eqb_refl.
    assert (Hp : String.prefix EmptyString s = true) by (destruct s; reflexivity).
    destruct (Ascii.ascii_dec c' c') as [_|F]; [|contradiction].
    rewrite Hp, IH; reflexivity.
  - destruct (Ascii.eqb c c') eqn:E; [apply Ascii.eqb_eq in E; contradiction|].
    destruct (Ascii.ascii_dec c c') as [F|_]; [contradiction|].
    rewrite IH; reflexivity.
Qed.

Lemma lower_length (s : string) : String.length (lower s) = String.length s.
Proof. induction s; simpl; congruence. Qed.

(** ** The two functions, for any arithmetic *)

Section Generic.

Context {T : Type} {A : Arith T}.

Local Open Scope py_scope.


Lemma predict_churn_by_horizon_num (scenario : dict (value T)) (pct base : T) :
  scenario_pct scenario = Num pct ->
  scenario_base scenario = Num base ->
  predict_churn_by_horizon scenario = Ok (horizon_table pct base).
Proof.
  unfold scenario_pct, scenario_base, predict_churn_by_horizon.
  intros -> ->; reflexivity.
Qed.

Lemma predict_churn_by_horizon_inv (scenario : dict (value T))
  (hz : dict (horizon_result T)) :
  predict_churn_by_horizon scenario = Ok hz ->
  exists pct base,
    scenario_pct scenario = Num pct /\ scenario_base scenario = Num base /\
    hz = horizon_table pct base.
Proof.
  unfold scenario_pct, scenario_base, predict_churn_by_horizon.
  destruct (dict_get_default scenario "price_change_pct" _) as [pct|s];
    [|intros H; discriminate H].
  destruct (dict_get_default scenario "baseline_churn" _) as [base|s];
    [|intros H; discriminate H].
  intros H; exists pct, base; repeat split.
  cbn in H; inversion H; reflexivity.
Qed.


Lemma scale_loop (pct base multiplier : T) (name size : value T) :
  for_each (dict_items (horizon_table pct base)) (scale_body multiplier)
    [ ("name", name); ("size", size) ]
  = Ok (("name", name) :: ("size", size)
          :: churn_fields (horizon_table pct base) multiplier).
Proof. reflexivity. Qed.


(** One iteration of the loop over the segments, when nothing raises. *)
Lemma segment_body_ok (scenario segment : dict (value T))
  (results : list (dict (value T))) (pct base e : T) (name size : value T) :
  scenario_pct scenario = Num pct ->
  scenario_base scenario = Num base ->
  segment_elasticity segment = Num e ->
  dict_get segment "name" = Some name ->
  dict_get segment "size" = Some size ->
  segment_body scenario results segment
  = Ok (results ++
          [ ("name", name) :: ("size", size)
              :: churn_fields (horizon_table pct base)
                   (segment_multiplier (n_abs e)) ]).
Proof.
  intros Hp Hb He Hn Hs; unfold segment_body.
  rewrite (predict_churn_by_horizon_num _ _ _ Hp Hb); cbn [bind].
  unfold segment_elasticity in He; rewrite He; cbn [bind as_num].
  unfold dict_item; rewrite Hn, Hs; cbn [bind].
  rewrite scale_loop; reflexivity.
Qed.

End Generic.

(** ** The loop over the segments *)

Section Segments.

Context {T : Type} {A : Arith T}.

Local Open Scope py_scope.


Lemma segment_body_inv (scenario segment : dict (value T))
  (results out : list (dict (value T))) :
  segment_body scenario results segment = Ok out ->
  exists pct base r,
    scenario_pct scenario = Num pct /\ scenario_base scenario = Num base /\
    result_of pct base segment r /\ out = results ++ [r].
Proof.
  unfold segment_body; intros H.
  destruct (predict_churn_by_horizon scenario) as [hz|err] eqn:Hhz; [|discriminate H].
  destruct (predict_churn_by_horizon_inv _ _ Hhz) as (pct & base & Hp & Hb & ->).
  cbn [bind] in H.
  destruct (dict_get_default segment "elasticity" _) as [e|s] eqn:He; [|discriminate H].
  cbn [bind as_num] in H; unfold dict_item in H.
  destruct (dict_get segment "name") as [name|] eqn:Hn; [|discriminate H].
  destruct (dict_get segment "size") as [size|] eqn:Hs; [|discriminate H].
  cbn [bind] in H; rewrite scale_loop in H; cbn [bind] in H.
  inversion H; subst out.
  exists pct, base; eexists; repeat split; try eassumption.
  exists e, name, size; repeat split; assumption.
Qed.

Lemma segment_body_missing (scenario segment : dict (value T))
  (results : list (dict (value T))) (hz : dict (horizon_result T)) :
  predict_churn_by_horizon scenario = Ok hz ->
  numeric_elasticity segment ->
  lacks_field segment ->
  exists k, (k = "name" \/ k = "size") /\
    segment_body scenario results segment = Err (KeyError k).
Proof.
  intros Hhz [e He] Hl; unfold segment_body; rewrite Hhz; cbn [bind].
  unfold lacks_field in Hl; unfold segment_elasticity in He; rewrite He; cbn [bind as_num]; unfold dict_item.
  destruct (dict_get segment "name") as [name|] eqn:Hn.
  - destruct Hl as [Hl|Hl]; [discriminate Hl|]; rewrite Hl.
    exists "size"; split; [right|]; reflexivity.
  - exists "name"; split; [left|]; reflexivity.
Qed.

Lemma segments_loop_ok (scenario : dict (value T)) (pct base : T)
  (segments : list (dict (value T))) :
  scenario_pct scenario = Num pct ->
  scenario_base scenario = Num base ->
  Forall numeric_elasticity segments ->
  Forall has_fields segments ->
  forall acc, exists rs,
    for_each segments (segment_body scenario) acc = Ok (acc ++ rs) /\
    Forall2 (result_of pct base) segments rs.
Proof.
  intros Hp Hb Hnum Hhas; induction segments as [|seg segments IH]; intros acc.
  - exists []; rewrite app_nil_r; split; [reflexivity | constructor].
  - inversion Hnum as [|? ? [e He] Hnum']; inversion Hhas as [|? ? [[n Hn] [s Hs]] Hhas']; subst.
    cbn [for_each]; rewrite (segment_body_ok _ _ acc _ _ _ _ _ Hp Hb He Hn Hs); cbn [bind].
    destruct (IH Hnum' Hhas' (acc ++ [ ("name", n) :: ("size", s)
        :: churn_fields (horizon_table pct base) (segment_multiplier (n_abs e)) ]))
      as (rs & Hrs & Hall).
    eexists (_ :: rs); split.
    + rewrite Hrs, <- app_assoc; reflexivity.
    + constructor; [|exact Hall].
      exists e, n, s; repeat split; assumption.
Qed.

Lemma segments_loop_inv (scenario : dict (value T))
  (segments : list (dict (value T))) :
  forall acc out,
    for_each segments (segment_body scenario) acc = Ok out ->
    exists rs, out = acc ++ rs /\
      Forall2 (fun segment r =>
                 exists pct base,
                   scenario_pct scenario = Num pct /\
                   scenario_base scenario = Num base /\
                   result_of pct base segment r) segments rs.
Proof.
  induction segments as [|seg segments IH]; intros acc out H.
  - inversion H; exists []; rewrite app_nil_r; split; [reflexivity | constructor].
  - cbn [for_each] in H.
    destruct (segment_body scenario acc seg) as [acc'|err] eqn:Hseg; [|discriminate H].
    cbn [bind] in H.
    destruct (segment_body_inv _ _ _ _ Hseg) as (pct & base & r & Hp & Hb & Hr & ->).
    destruct (IH _ _ H) as (rs & -> & Hall).
    exists (r :: rs); split; [now rewrite <- app_assoc|].
    constructor; [|exact Hall].
    exists pct, base; repeat split; assumption.
Qed.

(** The first segment at fault decides: with a numeric scenario and
    numeric elasticities the only exception left is [KeyError]. *)
Lemma segments_loop_missing (scenario : dict (value T))
  (hz : dict (horizon_result T)) (segments : list (dict (value T))) :
  predict_churn_by_horizon scenario = Ok hz ->
  Forall numeric_elasticity segments ->
  Exists lacks_field segments ->
  forall acc, exists k, (k = "name" \/ k = "size") /\
    for_each segments (segment_body scenario) acc = Err (KeyError k).
Proof.
  intros Hhz Hnum Hex; induction segments as [|seg segments IH]; intros acc.
  - inversion Hex.
  - inversion Hnum as [|? ? Hseg Hnum']; subst; cbn [for_each].
    destruct (segment_body scenario acc seg) as [acc'|err] eqn:Hbody.
    + cbn [bind]; apply IH; [exact Hnum'|].
      inversion Hex as [? ? Hl|? ? Hrest]; subst; [|exact Hrest].
      destruct (segment_body_missing _ _ acc _ Hhz Hseg Hl) as (k & _ & Hk).
      rewrite Hk in Hbody; discriminate Hbody.
    + cbn [bind].
      destruct (dict_get seg "name") as [n|] eqn:Hn.
      * destruct (dict_get seg "size") as [s|] eqn:Hs.
        -- destruct (predict_churn_by_horizon_inv _ _ Hhz) as (pct & base & Hp & Hb & _).
           destruct Hseg as [e He].
           rewrite (segment_body_ok _ _ acc _ _ _ _ _ Hp Hb He Hn Hs) in Hbody; discriminate Hbody.
        -- destruct (segment_body_missing _ _ acc _ Hhz Hseg (or_intror Hs)) as (k & Hk & Hk').
           exists k; split; [exact Hk | congruence].
      * destruct (segment_body_missing _ _ acc _ Hhz Hseg (or_introl Hn)) as (k & Hk & Hk').
        exists k; split; [exact Hk | congruence].
Qed.

Lemma result_of_fields (pct base : T) (segment r : dict (value T)) :
  result_of pct base segment r ->
  dict_get r "name" = dict_get segment "name" /\
  dict_get r "size" = dict_get segment "size".
Proof.
  intros (e & name & size & _ & Hn & Hs & ->); rewrite Hn, Hs; split; reflexivity.
Qed.

End Segments.


(** ** Claims about the segment loop *)

Lemma Forall2_nth_error {X Y : Type} (P : X -> Y -> Prop) (xs : list X) (ys : list Y) :
  Forall2 P xs ys ->
  forall i x, nth_error xs i = Some x -> exists y, nth_error ys i = Some y /\ P x y.
Proof.
  induction 1 as [|x0 y0 xs ys Hxy _ IH]; intros i x Hi.
  - destruct i; discriminate Hi.
  - destruct i as [|i]; simpl in *.
    + inversion Hi; subst; exists y0; split; [reflexivity | assumption].
    + apply IH; exact Hi.
Qed.

Section SegmentClaims.

Context {T : Type} {A : Arith T}.

Local Open Scope py_scope.

Lemma predict_churn_by_segment_one (scenario segment r : dict (value T)) (pct base : T) :
  scenario_pct scenario = Num pct ->
  scenario_base scenario = Num base ->
  result_of pct base segment r ->
  predict_churn_by_segment scenario [segment] = Ok [r].
Proof.
  intros Hp Hb (e & name & size & He & Hn & Hs & ->).
  unfold predict_churn_by_segment; cbn [for_each].
  rewrite (segment_body_ok _ _ [] _ _ _ _ _ Hp Hb He Hn Hs); reflexivity.
Qed.

Lemma result_of_scaled (pct base : T) (segment r : dict (value T)) :
  result_of pct base segment r ->
  exists e, segment_elasticity segment = Num e /\
    scaled_result (horizon_table pct base) (segment_multiplier (n_abs e)) segment r.
Proof.
  intros (e & name & size & He & Hn & Hs & ->).
  exists e; split; [exact He|]; repeat split.
  - now rewrite Hn.
  - now rewrite Hs.
  - intros horizon values Hin.
    repeat (destruct Hin as [Hin|Hin]; [inversion Hin; subst; reflexivity|]).
    destruct Hin.
Qed.

Lemma segment_body_explicit (scenario segment : dict (value T))
  (results : list (dict (value T))) :
  segment_body scenario results (explicit_elasticity segment)
  = segment_body scenario results segment.
Proof.
  unfold explicit_elasticity.
  destruct (dict_get segment "elasticity") as [v|] eqn:He; [reflexivity|].
  unfold segment_body, dict_get_default, dict_item; cbn [dict_get String.eqb Ascii.eqb Bool.eqb].
  rewrite He; reflexivity.
Qed.

Lemma segments_loop_explicit (scenario : dict (value T)) (segments : list (dict (value T))) :
  forall acc,
    for_each (map explicit_elasticity segments) (segment_body scenario) acc
    = for_each segments (segment_body scenario) acc.
Proof.
  induction segments as [|seg segments IH]; intros acc; [reflexivity|].
  cbn [map for_each]; rewrite segment_body_explicit.
  destruct (segment_body scenario acc seg); cbn [bind]; [apply IH | reflexivity].
Qed.

(** C8. For segments that meet the input contract, every result of
    [predict_churn_by_segment] has the keys [name], [size],
    [churn_0_4_weeks], [churn_4_8_weeks], [churn_8_12_weeks] and
    [churn_12plus_weeks]; the key of a horizon is [churn_] followed by the
    horizon name with [' '] and ['-'] replaced by ['_'], ['+'] by [plus],
    then lowercased; the field holds that horizon's [churn_uplift_pp] times
    the segment multiplier. *)
Theorem segment_result_fields (scenario : dict (value T))
  (segments : list (dict (value T))) (pct base : T) :
  scenario_pct scenario = Num pct ->
  scenario_base scenario = Num base ->
  Forall numeric_elasticity segments ->
  Forall has_fields segments ->
  exists hz rs,
    predict_churn_by_horizon scenario = Ok hz /\
    predict_churn_by_segment scenario segments = Ok rs /\
    Forall2 (fun segment r =>
               exists e,
                 segment_elasticity segment = Num e /\
                 scaled_result hz (segment_multiplier (n_abs e)) segment r)
            segments rs /\
    (forall horizon,
       horizon_key horizon
       = lower (substitute "+" "plus" (substitute "-" "_" (substitute " " "_" horizon)))) /\
    map horizon_key [ "0-4 Weeks"; "4-8 Weeks"; "8-12 Weeks"; "12+ Weeks" ]
    = [ "0_4_weeks"; "4_8_weeks"; "8_12_weeks"; "12plus_weeks" ].
Proof.
  intros Hp Hb Hnum Hhas.
  destruct (segments_loop_ok _ _ _ _ Hp Hb Hnum Hhas []) as (rs & Hrs & Hall).
  exists (horizon_table pct base), rs.
  split; [apply predict_churn_by_horizon_num; assumption|].
  split; [exact Hrs|]; split; [|split; [|reflexivity]].
  - eapply Forall2_impl; [|exact Hall].
    intros segment r Hr; apply result_of_scaled; exact Hr.
  - intros horizon; unfold horizon_key.
    now rewrite !replace_char.
Qed.

(** C10. The numeric fields of a segment result depend on the scenario and
    on the segment's elasticity only: two runs on segment lists with the
    same elasticities, position by position, give results that differ at
    most in [name] and [size], and these two are copied from the
    segment. *)
Theorem churn_fields_independent_of_name_and_size (scenario : dict (value T))
  (segments1 segments2 : list (dict (value T))) (pct base : T) :
  scenario_pct scenario = Num pct ->
  scenario_base scenario = Num base ->
  Forall numeric_elasticity segments1 ->
  Forall has_fields segments1 ->
  Forall has_fields segments2 ->
  Forall2 (fun s1 s2 => dict_get s1 "elasticity" = dict_get s2 "elasticity")
          segments1 segments2 ->
  exists rs1 rs2,
    predict_churn_by_segment scenario segments1 = Ok rs1 /\
    predict_churn_by_segment scenario segments2 = Ok rs2 /\
    Forall2 same_churn_fields rs1 rs2 /\
    Forall2 copies_fields segments1 rs1 /\
    Forall2 copies_fields segments2 rs2.
Proof.
  intros Hp Hb Hnum1 Hhas1 Hhas2 Hsame.
  assert (Hnum2 : Forall numeric_elasticity segments2).
  { clear Hhas1 Hhas2; induction Hsame as [|s1 s2 l1 l2 Hel _ IH]; [constructor|].
    inversion Hnum1 as [|? ? [e He] Hrest]; subst.
    constructor; [|apply IH; exact Hrest].
    exists e; unfold segment_elasticity, dict_get_default in *.
    rewrite <- Hel; exact He. }
  destruct (segments_loop_ok _ _ _ _ Hp Hb Hnum1 Hhas1 []) as (rs1 & H1 & Hall1).
  destruct (segments_loop_ok _ _ _ _ Hp Hb Hnum2 Hhas2 []) as (rs2 & H2 & Hall2).
  exists rs1, rs2; split; [exact H1|]; split; [exact H2|].
  clear H1 H2 Hnum1 Hnum2 Hhas1 Hhas2; repeat split.
  - revert rs1 rs2 Hall1 Hall2.
    induction Hsame as [|s1 s2 l1 l2 Hel _ IH]; intros rs1 rs2 Hall1 Hall2.
    + inversion Hall1; inversion Hall2; constructor.
    + inversion Hall1 as [|? r1 ? rs1' Hr1 Hrest1]; subst.
      inversion Hall2 as [|? r2 ? rs2' Hr2 Hrest2]; subst.
      constructor; [|apply IH; assumption].
      destruct Hr1 as (e1 & n1 & z1 & He1 & _ & _ & ->).
      destruct Hr2 as (e2 & n2 & z2 & He2 & _ & _ & ->).
      assert (e2 = e1).
      { unfold segment_elasticity, dict_get_default in He1, He2.
        rewrite Hel in He1; congruence. }
      subst; eexists _, n1, z1, n2, z2; split; reflexivity.
  - eapply Forall2_impl; [|exact Hall1].
    intros s r Hr; eapply result_of_fields; exact Hr.
  - eapply Forall2_impl; [|exact Hall2].
    intros s r Hr; eapply result_of_fields; exact Hr.
Qed.

End SegmentClaims.

(** ** Exact arithmetic *)

Lemma exp_double_lower (y y' l l' : R) :
  (y' = y + y -> 0 <= l -> l <= exp y -> l' <= l * l -> l' <= exp y')%R.
Proof.
  intros -> Hl Hy Hl'; rewrite exp_plus.
  apply Rle_trans with (1 := Hl'); apply Rmult_le_compat; assumption.
Qed.

Section ExactFacts.

Local Open Scope R_scope.

#[local] Existing Instance Exact.arith.

Ltac exact_arith :=
  cbn [n_lit n_add n_sub n_mul n_div n_neg n_abs n_lt n_exp Exact.arith] in *;
  unfold Q2R in *; cbn [Qnum Qden] in *.

(** [exp(-2.944) > 1/19]: from [1 + y <= exp y] at [y = -2.944 / 2^16],
    squared sixteen times; each bound is rounded down to fifteen decimals. *)
Lemma exp_neg_2944_lower : / 19 < exp (- 2.944).
Proof.
  assert (H0 : 0.999955078125000 <= exp (- 2.944 / 65536))
    by (generalize (exp_ineq1_le (- 2.944 / 65536)); lra).
  pose proof (exp_double_lower (- 2.944 / 65536) (- 2.944 / 32768) 0.999955078125000 0.999910158267974
                ltac:(lra) ltac:(lra) H0 ltac:(lra)) as H1; clear H0.
  pose proof (exp_double_lower (- 2.944 / 32768) (- 2.944 / 16384) 0.999910158267974 0.999820324607484
                ltac:(lra) ltac:(lra) H1 ltac:(lra)) as H2; clear H1.
  pose proof (exp_double_lower (- 2.944 / 16384) (- 2.944 / 8192) 0.999820324607484 0.999640681498214
                ltac:(lra) ltac:(lra) H2 ltac:(lra)) as H3; clear H2.
  pose proof (exp_double_lower (- 2.944 / 8192) (- 2.944 / 4096) 0.999640681498214 0.999281492106213
                ltac:(lra) ltac:(lra) H3 ltac:(lra)) as H4; clear H3.
  pose proof (exp_double_lower (- 2.944 / 4096) (- 2.944 / 2048) 0.999281492106213 0.998563500466019
                ltac:(lra) ltac:(lra) H4 ltac:(lra)) as H5; clear H4.
  pose proof (exp_double_lower (- 2.944 / 2048) (- 2.944 / 1024) 0.998563500466019 0.997129064462949
                ltac:(lra) ltac:(lra) H5 ltac:(lra)) as H6; clear H5.
  pose proof (exp_double_lower (- 2.944 / 1024) (- 2.944 / 512) 0.997129064462949 0.994266371196755
                ltac:(lra) ltac:(lra) H6 ltac:(lra)) as H7; clear H6.
  pose proof (exp_double_lower (- 2.944 / 512) (- 2.944 / 256) 0.994266371196755 0.988565616892763
                ltac:(lra) ltac:(lra) H7 ltac:(lra)) as H8; clear H7.
  pose proof (exp_double_lower (- 2.944 / 256) (- 2.944 / 128) 0.988565616892763 0.977261978902569
                ltac:(lra) ltac:(lra) H8 ltac:(lra)) as H9; clear H8.
  pose proof (exp_double_lower (- 2.944 / 128) (- 2.944 / 64) 0.977261978902569 0.955040975408565
                ltac:(lra) ltac:(lra) H9 ltac:(lra)) as H10; clear H9.
  pose proof (exp_double_lower (- 2.944 / 64) (- 2.944 / 32) 0.955040975408565 0.912103264709343
                ltac:(lra) ltac:(lra) H10 ltac:(lra)) as H11; clear H10.
  pose proof (exp_double_lower (- 2.944 / 32) (- 2.944 / 16) 0.912103264709343 0.831932365493441
                ltac:(lra) ltac:(lra) H11 ltac:(lra)) as H12; clear H11.
  pose proof (exp_double_lower (- 2.944 / 16) (- 2.944 / 8) 0.831932365493441 0.692111460755512
                ltac:(lra) ltac:(lra) H12 ltac:(lra)) as H13; clear H12.
  pose proof (exp_double_lower (- 2.944 / 8) (- 2.944 / 4) 0.692111460755512 0.479018274109128
                ltac:(lra) ltac:(lra) H13 ltac:(lra)) as H14; clear H13.
  pose proof (exp_double_lower (- 2.944 / 4) (- 2.944 / 2) 0.479018274109128 0.229458506930487
                ltac:(lra) ltac:(lra) H14 ltac:(lra)) as H15; clear H14.
  pose proof (exp_double_lower (- 2.944 / 2) (- 2.944 / 1) 0.229458506930487 0.052651206402768
                ltac:(lra) ltac:(lra) H15 ltac:(lra)) as H16; clear H15.
  replace (- 2.944) with (- 2.944 / 1) by lra; lra.
Qed.

Lemma logistic_exact (x : R) : logistic x = 1 / (1 + exp (- x)).
Proof.
  unfold logistic; exact_arith.
  replace (1 * / 1) with 1 by lra; reflexivity.
Qed.

Lemma logistic_exact_bounds (x : R) : 0 < logistic x < 1.
Proof.
  rewrite logistic_exact.
  pose proof (exp_pos (- x)) as He.
  assert (Hd : 0 < 1 + exp (- x)) by lra.
  split.
  - apply Rdiv_lt_0_compat; lra.
  - apply Rmult_lt_reg_r with (1 + exp (- x)); [exact Hd|].
    unfold Rdiv; rewrite Rmult_assoc, Rinv_l by lra; lra.
Qed.

Lemma logistic_exact_increasing (x y : R) : x < y -> logistic x < logistic y.
Proof.
  intros Hxy; rewrite !logistic_exact.
  pose proof (exp_pos (- x)) as Hx.
  pose proof (exp_pos (- y)) as Hy.
  assert (He : exp (- y) < exp (- x)) by (apply exp_increasing; lra).
  unfold Rdiv; rewrite !Rmult_1_l.
  apply Rinv_lt_contravar; [|lra].
  apply Rmult_lt_0_compat; lra.
Qed.

Lemma churn_rate_exact (pct base coef : R) :
  churn_rate (horizon_entry pct base coef)
  = logistic (-2.944 + 0.01 * pct + coef * pct).
Proof.
  unfold horizon_entry; cbn [churn_rate]; f_equal; exact_arith; lra.
Qed.

Lemma churn_uplift_pp_exact (pct base coef : R) :
  churn_uplift_pp (horizon_entry pct base coef)
  = (churn_rate (horizon_entry pct base coef) - base) * 100.
Proof.
  unfold horizon_entry; cbn [churn_rate churn_uplift_pp]; exact_arith; lra.
Qed.

Lemma py_min_exact (a b : R) : py_min a b = Rmin a b.
Proof.
  unfold py_min; exact_arith; unfold Exact.Rltb, Rmin.
  destruct (Rlt_dec b a), (Rle_dec a b); lra.
Qed.

Lemma segment_multiplier_exact (elasticity : R) :
  segment_multiplier elasticity = 0.7 + Rmin elasticity 4 / 4 * 0.6.
Proof.
  unfold segment_multiplier; rewrite py_min_exact; exact_arith.
  replace (40 * / 10) with 4 by lra; lra.
Qed.

(** The intercept alone already puts the rate above five percent. *)
Lemma logistic_intercept_above_baseline : 0.05 < logistic (-2.944).
Proof.
  rewrite logistic_exact.
  pose proof exp_neg_2944_lower as Hl.
  pose proof (exp_pos (- -2.944)) as Hp.
  assert (He : exp (- -2.944) < 19).
  { replace (- -2.944) with (- (- 2.944)) by lra.
    rewrite exp_Ropp.
    pose proof (exp_pos (- 2.944)) as Hq.
    apply Rmult_lt_reg_r with (exp (- 2.944)); [exact Hq|].
    rewrite Rinv_l by lra.
    apply Rmult_lt_reg_l with (/ 19); [lra|].
    rewrite <- Rmult_assoc, Rinv_l, Rmult_1_l, Rmult_1_r by lra; exact Hl. }
  apply Rmult_lt_reg_r with (1 + exp (- -2.944)); [lra|].
  unfold Rdiv; rewrite Rmult_assoc, Rinv_l by lra; lra.
Qed.

End ExactFacts.

(** ** Binary64 arithmetic *)

(** *** Multiplying by [1.0] changes nothing *)

Lemma digits2_pos_shift (m n : positive) :
  (Zpos (digits2_pos (Pos.iter xO m n)) = Zpos (digits2_pos m) + Zpos n)%Z.
Proof.
  revert m; induction n using Pos.peano_ind; intros m.
  - simpl; lia.
  - rewrite Pos.iter_succ; simpl digits2_pos; rewrite Pos2Z.inj_succ, IHn; lia.
Qed.

Lemma iter_pos_comm {X : Type} (f : X -> X) (n : positive) (x : X) :
  iter_pos f n (f x) = f (iter_pos f n x).
Proof.
  revert x; induction n as [n IH|n IH|]; intros x; simpl;
    rewrite ?IH; reflexivity.
Qed.

Lemma iter_pos_succ {X : Type} (f : X -> X) (n : positive) (x : X) :
  iter_pos f (Pos.succ n) x = iter_pos f n (f x).
Proof.
  revert x; induction n as [n IH|n IH|]; intros x; simpl;
    rewrite ?IH, ?iter_pos_comm; reflexivity.
Qed.

Lemma iter_shr_1_shift (m n : positive) :
  iter_pos shr_1 n {| shr_m := Zpos (Pos.iter xO m n); shr_r := false; shr_s := false |}
  = {| shr_m := Zpos m; shr_r := false; shr_s := false |}.
Proof.
  revert m; induction n using Pos.peano_ind; intros m.
  - reflexivity.
  - rewrite iter_pos_succ, Pos.iter_succ; simpl shr_1; apply IHn.
Qed.

Lemma shr_fexp_canonical (m : positive) (e : Z) :
  fexp prec emax (Zpos (digits2_pos m) + e) = e ->
  shr_fexp prec emax (Zpos m) e loc_Exact
  = ({| shr_m := Zpos m; shr_r := false; shr_s := false |}, e).
Proof.
  intros Hc; unfold shr_fexp, Zdigits2; rewrite Hc, Z.sub_diag; reflexivity.
Qed.

Lemma shr_fexp_shifted (m : positive) (e : Z) (n : positive) :
  fexp prec emax (Zpos (digits2_pos m) + e) = e ->
  shr_fexp prec emax (Zpos (Pos.iter xO m n)) (e - Zpos n) loc_Exact
  = ({| shr_m := Zpos m; shr_r := false; shr_s := false |}, e).
Proof.
  intros Hc; unfold shr_fexp, Zdigits2; rewrite digits2_pos_shift.
  replace (Zpos (digits2_pos m) + Zpos n + (e - Zpos n))%Z
    with (Zpos (digits2_pos m) + e)%Z by lia.
  rewrite Hc.
  replace (e - (e - Zpos n))%Z with (Zpos n) by lia.
  unfold shr, shr_record_of_loc; rewrite iter_shr_1_shift.
  f_equal; lia.
Qed.

Lemma SFmul_one (x : spec_float) :
  valid_binary x = true -> SF64mul x (Prim2SF 1) = x.
Proof.
  intros Hx.
  replace (Prim2SF 1) with (S754_finite false (Pos.iter xO 1%positive 52) (-52))
    by (vm_compute; reflexivity).
  destruct x as [s|s| |s m e]; try (destruct s; reflexivity); try reflexivity.
  unfold SF64mul, SFmul.
  replace (m * Pos.iter xO 1 52)%positive with (Pos.iter xO m 52)
    by (cbn [Pos.iter]; simpl; lia).
  simpl in Hx; unfold bounded, canonical_mantissa in Hx.
  apply andb_prop in Hx; destruct Hx as [Hc Hb].
  apply Z.eqb_eq in Hc.
  unfold binary_round_aux.
  change (e + -52)%Z with (e - 52)%Z.
  rewrite (shr_fexp_shifted m e 52 Hc).
  cbn [shr_m loc_of_shr_record round_nearest_even].
  rewrite (shr_fexp_canonical m e Hc).
  cbn [shr_m]; rewrite Hb, xorb_false_r; reflexivity.
Qed.

Lemma mul_one_r (x : float) : (x * 1)%float = x.
Proof.
  apply Prim2SF_inj; rewrite mul_spec; apply SFmul_one, Prim2SF_valid.
Qed.

(** *** Comparisons *)

Lemma SFcompare_opp (x y : spec_float) :
  SFcompare (SFopp x) (SFopp y) = SFcompare y x.
Proof.
  destruct x as [sx|sx| |sx mx ex], y as [sy|sy| |sy my ey];
    try destruct sx; try destruct sy; try reflexivity; simpl;
    rewrite (Z.compare_antisym ey ex);
    destruct (ey ?= ex)%Z; simpl; try reflexivity;
    replace (Pos.compare_cont Eq my mx) with (CompOpp (Pos.compare_cont Eq mx my))
      by (rewrite Pos.compare_cont_antisym; reflexivity);
    destruct (Pos.compare_cont Eq mx my); reflexivity.
Qed.

Lemma leb_opp (x y : float) : (- x <=? - y)%float = (y <=? x)%float.
Proof.
  rewrite !leb_spec, !opp_spec; unfold SFleb; rewrite SFcompare_opp; reflexivity.
Qed.

Lemma SFcompare_finite_Eq (s : bool) (m : positive) (e : Z) (y : spec_float) :
  SFcompare (S754_finite s m e) y = Some Eq -> y = S754_finite s m e.
Proof.
  destruct y as [sy|sy| |sy my ey]; simpl.
  - destruct s; discriminate.
  - destruct sy; discriminate.
  - discriminate.
  - destruct s, sy; try discriminate;
      destruct (e ?= ey)%Z eqn:He; try discriminate;
      apply Z.compare_eq in He; subst ey; intros H;
      assert (Hm : Pos.compare_cont Eq m my = Eq)
        by (destruct (Pos.compare_cont Eq m my); simpl in H; congruence);
      apply Pos.compare_eq in Hm; subst my; reflexivity.
Qed.

(** A finite non-zero [x] below or equal to [y] and not strictly below it is
    [y] itself. *)
Lemma leb_not_ltb_eq (x y : float) (s : bool) (m : positive) (e : Z) :
  Prim2SF x = S754_finite s m e ->
  (x <=? y)%float = true -> (x <? y)%float = false -> y = x.
Proof.
  intros Hx Hle Hlt; rewrite leb_spec in Hle; rewrite ltb_spec in Hlt.
  unfold SFleb, SFltb in *.
  destruct (SFcompare (Prim2SF x) (Prim2SF y)) as [[| |]|] eqn:Hc; try discriminate.
  rewrite Hx in Hc; apply SFcompare_finite_Eq in Hc.
  apply Prim2SF_inj; congruence.
Qed.

(** Nothing is both below [-746] and above [710]. *)
Lemma leb_low_not_high (x : float) :
  (x <=? -746)%float = true -> (710 <=? x)%float = false.
Proof.
  rewrite !leb_spec; unfold SFleb.
  remember (Prim2SF (-746)) as lo eqn:Hlo; vm_compute in Hlo; subst lo.
  remember (Prim2SF 710) as hi eqn:Hhi; vm_compute in Hhi; subst hi.
  destruct (Prim2SF x) as [s|s| |s m e]; try destruct s; cbn [SFcompare];
    try discriminate; reflexivity.
Qed.

Lemma exp64_libm : Binary64.libm_exp Binary64.exp64.
Proof.
  split; intros x Hx; unfold Binary64.exp64.
  - rewrite (leb_low_not_high x Hx), Hx; reflexivity.
  - rewrite Hx; reflexivity.
Qed.

(** *** Rounding keeps the order

    The operations of binary64 round the exact result to a neighbouring
    double.  For non-negative operands the rounded result therefore stays
    on the same side of every double as the exact result: this is what the
    bounds on the multiplier and on the logistic need. *)

Section Rounding.

Local Close Scope Q_scope.

(** Powers of two *)

Lemma bpow_pos (e : Z) : (0 < bpow e)%R.
Proof. apply powerRZ_lt; lra. Qed.

Lemma bpow_add (a b : Z) : bpow (a + b) = (bpow a * bpow b)%R.
Proof. apply powerRZ_add; lra. Qed.

Lemma bpow_IZR (n : Z) : (0 <= n)%Z -> bpow n = IZR (2 ^ n).
Proof.
  intros Hn; unfold bpow; destruct n as [|p|p]; [reflexivity| |lia].
  cbn [powerRZ]; rewrite pow_IZR, positive_nat_Z; reflexivity.
Qed.

Lemma bpow_succ (e : Z) : bpow (e + 1) = (2 * bpow e)%R.
Proof. rewrite bpow_add, (bpow_IZR 1) by lia; simpl; lra. Qed.

Lemma bpow_ge_1 (n : Z) : (0 <= n)%Z -> (1 <= bpow n)%R.
Proof.
  intros Hn; rewrite bpow_IZR by exact Hn.
  apply IZR_le; pose proof (Z.pow_pos_nonneg 2 n); lia.
Qed.

Lemma bpow_le (a b : Z) : (a <= b)%Z -> (bpow a <= bpow b)%R.
Proof.
  intros Hab; replace b with (a + (b - a))%Z by lia; rewrite bpow_add.
  pose proof (bpow_pos a); pose proof (bpow_ge_1 (b - a) ltac:(lia)); nra.
Qed.

Lemma bpow_lt (a b : Z) : (a < b)%Z -> (bpow a < bpow b)%R.
Proof.
  intros Hab; apply Rlt_le_trans with (bpow (a + 1)); [|apply bpow_le; lia].
  rewrite bpow_succ; pose proof (bpow_pos a); lra.
Qed.

(** Digits *)

Lemma digits2_pos_bounds (m : positive) :
  (2 ^ (Zpos (digits2_pos m) - 1) <= Zpos m < 2 ^ Zpos (digits2_pos m))%Z.
Proof.
  induction m as [m IH|m IH|]; cbn [digits2_pos]; rewrite ?Pos2Z.inj_succ.
  - replace (Z.succ (Zpos (digits2_pos m)) - 1)%Z with (Z.succ (Zpos (digits2_pos m) - 1))%Z by lia.
    rewrite !Z.pow_succ_r by lia; lia.
  - replace (Z.succ (Zpos (digits2_pos m)) - 1)%Z with (Z.succ (Zpos (digits2_pos m) - 1))%Z by lia.
    rewrite !Z.pow_succ_r by lia; lia.
  - simpl; lia.
Qed.

Lemma digits_bpow (m : positive) (e : Z) :
  (bpow (Zpos (digits2_pos m) + e - 1) <= IZR (Zpos m) * bpow e
   < bpow (Zpos (digits2_pos m) + e))%R.
Proof.
  pose proof (digits2_pos_bounds m) as [Hlo Hhi].
  pose proof (bpow_pos e) as He.
  replace (Zpos (digits2_pos m) + e - 1)%Z with ((Zpos (digits2_pos m) - 1) + e)%Z by lia.
  rewrite !bpow_add.
  rewrite (bpow_IZR (Zpos (digits2_pos m) - 1)), (bpow_IZR (Zpos (digits2_pos m))) by lia.
  apply IZR_le in Hlo; apply IZR_lt in Hhi; split.
  - apply Rmult_le_compat_r; lra.
  - apply Rmult_lt_compat_r; lra.
Qed.

(** The exponent function of binary64 *)

Lemma fexp_mono (a b : Z) : (a <= b)%Z -> (fexp prec emax a <= fexp prec emax b)%Z.
Proof. unfold fexp; lia. Qed.

Lemma fexp_ge_emin (a : Z) : (emin <= fexp prec emax a)%Z.
Proof. unfold fexp, SpecFloat.emin; lia. Qed.

Lemma valid_canonical (s : bool) (m : positive) (e : Z) :
  valid_binary (S754_finite s m e) = true -> canonical m e /\ (e <= emax - prec)%Z.
Proof.
  cbn [SpecFloat.valid_binary]; unfold bounded, canonical_mantissa; intros H.
  apply andb_prop in H; destruct H as [Hc Hb].
  apply Z.eqb_eq in Hc; apply Z.leb_le in Hb; split; assumption.
Qed.

(** Canonical numbers are ordered like their exponents, then their
    mantissas. *)
Lemma canonical_exponent_lt (m1 m2 : positive) (e1 e2 : Z) :
  canonical m1 e1 -> canonical m2 e2 -> (e1 < e2)%Z ->
  (F2R (Zpos m1) e1 < F2R (Zpos m2) e2)%R.
Proof.
  unfold canonical, F2R; intros H1 H2 Hlt.
  assert (Hd : (Zpos (digits2_pos m1) + e1 < Zpos (digits2_pos m2) + e2)%Z).
  { destruct (Z_lt_le_dec (Zpos (digits2_pos m1) + e1) (Zpos (digits2_pos m2) + e2));
      [assumption|].
    pose proof (fexp_mono _ _ l); lia. }
  pose proof (digits_bpow m1 e1) as [_ Hhi].
  pose proof (digits_bpow m2 e2) as [Hlo _].
  pose proof (bpow_le (Zpos (digits2_pos m1) + e1) (Zpos (digits2_pos m2) + e2 - 1) ltac:(lia)).
  lra.
Qed.

Lemma F2R_pos (m : positive) (e : Z) : (0 < F2R (Zpos m) e)%R.
Proof.
  unfold F2R; apply Rmult_lt_0_compat; [apply IZR_lt; lia | apply bpow_pos].
Qed.

Lemma F2R_lt_mantissa (m1 m2 : Z) (e : Z) :
  (m1 < m2)%Z -> (F2R m1 e < F2R m2 e)%R.
Proof.
  intros H; unfold F2R; apply Rmult_lt_compat_r; [apply bpow_pos | apply IZR_lt; exact H].
Qed.

Lemma F2R_le_mantissa (m1 m2 : Z) (e : Z) :
  (m1 <= m2)%Z -> (F2R m1 e <= F2R m2 e)%R.
Proof.
  intros H; unfold F2R; apply Rmult_le_compat_r;
    [left; apply bpow_pos | apply IZR_le; exact H].
Qed.

Lemma SFleb_finite (m1 m2 : positive) (e1 e2 : Z) :
  canonical m1 e1 -> canonical m2 e2 ->
  SFleb (S754_finite false m1 e1) (S754_finite false m2 e2) = true
  <-> (F2R (Zpos m1) e1 <= F2R (Zpos m2) e2)%R.
Proof.
  intros H1 H2; unfold SFleb; cbn [SFcompare].
  destruct (Z.compare_spec e1 e2) as [He|He|He].
  - subst e2; change (Pos.compare_cont Eq m1 m2) with (Pos.compare m1 m2).
    destruct (Pos.compare_spec m1 m2) as [Hm|Hm|Hm].
    + subst m2; split; [intros _; lra | reflexivity].
    + split; [intros _; left; apply F2R_lt_mantissa; lia | reflexivity].
    + split; [discriminate|].
      intros Hle; pose proof (F2R_lt_mantissa (Zpos m2) (Zpos m1) e1 ltac:(lia)); lra.
  - split; [intros _; left; apply canonical_exponent_lt; assumption | reflexivity].
  - split; [discriminate|].
    intros Hle; pose proof (canonical_exponent_lt m2 m1 e2 e1 H2 H1 He); lra.
Qed.

Lemma inbetween_bounds (x : R) (m e : Z) (l : location) :
  inbetween x m e l -> (F2R m e <= x < F2R (m + 1) e)%R.
Proof.
  unfold F2R; rewrite plus_IZR; pose proof (bpow_pos e) as He.
  destruct l as [|[| |]]; cbn [inbetween]; unfold F2R; intros H; lra.
Qed.

Lemma inbetween_exact (x : R) (m e : Z) (l : location) :
  inbetween x m e l -> x = F2R m e -> l = loc_Exact.
Proof.
  pose proof (bpow_pos e) as He.
  destruct l as [|[| |]]; cbn [inbetween]; intros H Hx; [reflexivity|lra..].
Qed.

Lemma loc_of_record_of_loc (m : Z) (l : location) :
  loc_of_shr_record (shr_record_of_loc m l) = l /\
  shr_m (shr_record_of_loc m l) = m.
Proof. destruct l as [|[| |]]; split; reflexivity. Qed.

(** One step of [shr]: the mantissa is halved and the location follows. *)
Lemma shr_1_inbetween (x : R) (mrs : shr_record) (e : Z) :
  (0 <= shr_m mrs)%Z ->
  inbetween x (shr_m mrs) e (loc_of_shr_record mrs) ->
  (0 <= shr_m (shr_1 mrs))%Z /\
  inbetween x (shr_m (shr_1 mrs)) (e + 1) (loc_of_shr_record (shr_1 mrs)).
Proof.
  destruct mrs as [m r s]; cbn [shr_m]; intros Hm.
  pose proof (bpow_pos e) as He.
  destruct m as [|p|p]; [| |lia].
  - destruct r, s; cbn [shr_1 orb shr_m loc_of_shr_record inbetween];
      unfold F2R; rewrite bpow_succ; intros H; (split; [lia|]); lra.
  - destruct p as [p|p|]; destruct r, s;
      cbn [shr_1 orb shr_m loc_of_shr_record inbetween];
      unfold F2R; rewrite bpow_succ;
      rewrite ?(Pos2Z.inj_xI p), ?(Pos2Z.inj_xO p), ?plus_IZR, ?mult_IZR;
      intros H; (split; [lia|]); try lra; nra.
Qed.

Lemma iter_shr_inbetween (x : R) (n : positive) :
  forall (mrs : shr_record) (e : Z),
    (0 <= shr_m mrs)%Z ->
    inbetween x (shr_m mrs) e (loc_of_shr_record mrs) ->
    (0 <= shr_m (iter_pos shr_1 n mrs))%Z /\
    inbetween x (shr_m (iter_pos shr_1 n mrs)) (e + Zpos n)
      (loc_of_shr_record (iter_pos shr_1 n mrs)).
Proof.
  induction n as [|n IH] using Pos.peano_ind; intros mrs e Hm Hx.
  - apply shr_1_inbetween; assumption.
  - rewrite iter_pos_succ.
    destruct (shr_1_inbetween x mrs e Hm Hx) as [Hm' Hx'].
    destruct (IH _ _ Hm' Hx') as [Hm'' Hx''].
    split; [exact Hm''|].
    replace (e + Zpos (Pos.succ n))%Z with (e + 1 + Zpos n)%Z by lia; exact Hx''.
Qed.

(** [shr_fexp] moves the exponent up to [fexp] of the magnitude, when it is
    below, and keeps track of the bits it drops. *)
Lemma shr_fexp_inbetween (x : R) (m e : Z) (l : location) :
  (0 <= m)%Z ->
  inbetween x m e l ->
  (0 <= shr_m (fst (shr_fexp prec emax m e l)))%Z /\
  inbetween x (shr_m (fst (shr_fexp prec emax m e l)))
    (snd (shr_fexp prec emax m e l))
    (loc_of_shr_record (fst (shr_fexp prec emax m e l))) /\
  snd (shr_fexp prec emax m e l) = Z.max e (fexp prec emax (Zdigits2 m + e)).
Proof.
  intros Hm Hx; unfold shr_fexp, shr.
  destruct (loc_of_record_of_loc m l) as [Hl Hmm].
  destruct (fexp prec emax (Zdigits2 m + e) - e)%Z as [|n|n] eqn:Hn; cbn [fst snd].
  - rewrite Hl, Hmm; repeat split; [assumption..|lia].
  - destruct (iter_shr_inbetween x n (shr_record_of_loc m l) e) as [H1 H2].
    + rewrite Hmm; exact Hm.
    + rewrite Hl, Hmm; exact Hx.
    + repeat split; [assumption..|lia].
  - rewrite Hl, Hmm; repeat split; [assumption..|lia].
Qed.

Lemma F2R_shift (m : Z) (e e' : Z) :
  (e' <= e)%Z -> F2R m e = F2R (m * 2 ^ (e - e')) e'.
Proof.
  intros He; unfold F2R.
  replace e with ((e - e') + e')%Z at 1 by lia.
  rewrite bpow_add, (bpow_IZR (e - e')) by lia; rewrite mult_IZR; ring.
Qed.

Lemma F2R_lt_inv (m1 m2 : Z) (e : Z) :
  (F2R m1 e < F2R m2 e)%R -> (m1 < m2)%Z.
Proof.
  intros H; destruct (Z_lt_le_dec m1 m2) as [Hlt|Hge]; [exact Hlt|].
  pose proof (F2R_le_mantissa m2 m1 e Hge); lra.
Qed.

Lemma canonical_ge_emin (m : positive) (e : Z) : canonical m e -> (emin <= e)%Z.
Proof. unfold canonical; intros <-; apply fexp_ge_emin. Qed.

(** A canonical number with a smaller exponent lies below the rounded
    value, and below the number that was rounded. *)
Lemma grid_small (x : R) (mx ex : Z) (lx : location) (m' : Z) (l' : location)
  (mg : positive) (eg : Z) :
  (0 <= mx)%Z ->
  inbetween x mx ex lx ->
  (ex <= fexp prec emax (Zdigits2 mx + ex))%Z ->
  inbetween x m' (fexp prec emax (Zdigits2 mx + ex)) l' ->
  canonical mg eg ->
  (eg < fexp prec emax (Zdigits2 mx + ex))%Z ->
  (F2R (Zpos mg) eg < x)%R /\
  (F2R (Zpos mg) eg <= F2R m' (fexp prec emax (Zdigits2 mx + ex)))%R.
Proof.
  intros Hmx Hx Hex Hx' Hg Hlt.
  set (e' := fexp prec emax (Zdigits2 mx + ex)) in *.
  pose proof (canonical_ge_emin mg eg Hg) as Hemin.
  assert (He' : e' = (Zdigits2 mx + ex - prec)%Z).
  { unfold e', fexp in *; unfold SpecFloat.emin in *; lia. }
  destruct mx as [|px|px]; [|clear Hmx|lia].
  { cbn [Zdigits2] in He'; change prec with 53%Z in He'; lia. }
  cbn [Zdigits2] in He'.
  assert (Hd : (Zpos (digits2_pos mg) + eg < Zpos (digits2_pos px) + ex)%Z).
  { destruct (Z_lt_le_dec (Zpos (digits2_pos mg) + eg) (Zpos (digits2_pos px) + ex))
      as [H|H]; [exact H|].
    pose proof (fexp_mono _ _ H) as Hf.
    unfold canonical in Hg; rewrite Hg in Hf.
    unfold e' in Hlt; cbn [Zdigits2] in Hlt; lia. }
  pose proof (digits_bpow mg eg) as [_ Hg_hi].
  pose proof (digits_bpow px ex) as [Hx_lo _].
  pose proof (bpow_le (Zpos (digits2_pos mg) + eg) (Zpos (digits2_pos px) + ex - 1)
                ltac:(lia)) as Hb.
  pose proof (inbetween_bounds _ _ _ _ Hx) as [Hx1 _].
  pose proof (inbetween_bounds _ _ _ _ Hx') as [_ Hx2].
  fold (F2R (Zpos mg) eg) in Hg_hi; fold (F2R (Zpos px) ex) in Hx_lo.
  split; [lra|].
  assert (Hk : bpow (Zpos (digits2_pos px) + ex - 1) = F2R (2 ^ (prec - 1)) e').
  { unfold F2R; rewrite <- bpow_IZR by (change prec with 53%Z; lia).
    rewrite <- bpow_add; f_equal; lia. }
  assert (Hm' : (2 ^ (prec - 1) < m' + 1)%Z) by (apply (F2R_lt_inv _ _ e'); lra).
  pose proof (F2R_le_mantissa (2 ^ (prec - 1)) m' e' ltac:(lia)); lra.
Qed.

(** A canonical number with an exponent at least the rounding exponent is
    a multiple of the rounding unit: it is not strictly inside a cell. *)
Lemma grid_large (m' e' : Z) (mg : positive) (eg : Z) :
  (e' <= eg)%Z ->
  (F2R (Zpos mg) eg <= F2R m' e')%R \/ (F2R (m' + 1) e' <= F2R (Zpos mg) eg)%R.
Proof.
  intros He; rewrite (F2R_shift (Zpos mg) eg e' He).
  destruct (Z_le_gt_dec (Zpos mg * 2 ^ (eg - e')) m') as [H|H].
  - left; apply F2R_le_mantissa; exact H.
  - right; apply F2R_le_mantissa; lia.
Qed.

Lemma round_nearest_even_bounds (m : Z) (l : location) :
  (m <= round_nearest_even m l <= m + 1)%Z /\
  (l = loc_Exact -> round_nearest_even m l = m).
Proof.
  destruct l as [|[| |]]; cbn [round_nearest_even];
    try destruct (Z.even m); split; try lia; try reflexivity; discriminate.
Qed.

(** The rounding of a non-negative real, given by its position [lx] above
    [mx * 2^ex], stays on the same side of every binary64 number. *)
Lemma round_aux_sandwich (x : R) (mx ex : Z) (lx : location) :
  (0 <= mx)%Z ->
  inbetween x mx ex lx ->
  (ex <= fexp prec emax (Zdigits2 mx + ex))%Z ->
  valid_binary (binary_round_aux prec emax false mx ex lx) = true ->
  nonneg (binary_round_aux prec emax false mx ex lx) /\
  (forall mg eg,
     valid_binary (S754_finite false mg eg) = true ->
     (F2R (Zpos mg) eg <= x)%R ->
     SFleb (S754_finite false mg eg) (binary_round_aux prec emax false mx ex lx) = true) /\
  (forall mg eg,
     valid_binary (S754_finite false mg eg) = true ->
     (x <= F2R (Zpos mg) eg)%R ->
     SFleb (binary_round_aux prec emax false mx ex lx) (S754_finite false mg eg) = true).
Proof.
  intros Hmx Hx Hex; unfold binary_round_aux.
  pose proof (shr_fexp_inbetween x mx ex lx Hmx Hx) as (Hm1 & Hx1 & He1).
  destruct (shr_fexp prec emax mx ex lx) as [mrs1 e1]; cbn [fst snd] in *.
  set (m1 := shr_m mrs1) in *; set (l1 := loc_of_shr_record mrs1) in *.
  assert (He1' : e1 = fexp prec emax (Zdigits2 mx + ex)) by lia.
  clear He1; subst e1.
  set (e1 := fexp prec emax (Zdigits2 mx + ex)) in *.
  pose proof (round_nearest_even_bounds m1 l1) as [Hm2 Hexact].
  set (m2 := round_nearest_even m1 l1) in *.
  pose proof (inbetween_bounds _ _ _ _ Hx1) as [Hx1lo Hx1hi].
  (* the two sides, for the value rounded to nearest *)
  assert (HA1 : forall mg eg, canonical mg eg ->
                  (F2R (Zpos mg) eg <= x)%R -> (F2R (Zpos mg) eg <= F2R m2 e1)%R).
  { intros mg eg Hg Hgx.
    apply Rle_trans with (F2R m1 e1); [|apply F2R_le_mantissa; lia].
    destruct (Z_lt_le_dec eg e1) as [Hlt|Hge].
    - apply (grid_small x mx ex lx m1 l1 mg eg); assumption.
    - destruct (grid_large m1 e1 mg eg Hge) as [H|H]; [exact H|lra]. }
  assert (HB1 : forall mg eg, canonical mg eg ->
                  (x <= F2R (Zpos mg) eg)%R ->
                  (F2R m2 e1 <= F2R (Zpos mg) eg)%R /\ (e1 <= eg)%Z).
  { intros mg eg Hg Hgx.
    destruct (Z_lt_le_dec eg e1) as [Hlt|Hge].
    - destruct (grid_small x mx ex lx m1 l1 mg eg Hmx Hx Hex Hx1 Hg Hlt) as [H _]; lra.
    - split; [|exact Hge].
      destruct (grid_large m1 e1 mg eg Hge) as [H|H].
      + assert (Hxe : x = F2R m1 e1) by lra.
        assert (Hm : m2 = m1)
          by (apply Hexact; apply (inbetween_exact x m1 e1 l1 Hx1 Hxe)).
        rewrite Hm; lra.
      + apply Rle_trans with (2 := H); apply F2R_le_mantissa; lia. }
  assert (Hm2pos : (0 <= m2)%Z) by lia.
  assert (Hy : inbetween (F2R m2 e1) m2 e1 loc_Exact) by reflexivity.
  pose proof (shr_fexp_inbetween _ m2 e1 loc_Exact Hm2pos Hy) as (Hm3 & Hx3 & He3).
  destruct (shr_fexp prec emax m2 e1 loc_Exact) as [mrs3 e3]; cbn [fst snd] in *.
  set (m3 := shr_m mrs3) in *; set (l3 := loc_of_shr_record mrs3) in *.
  set (e2 := fexp prec emax (Zdigits2 m2 + e1)) in *.
  pose proof (inbetween_bounds _ _ _ _ Hx3) as [Hx3lo Hx3hi].
  assert (HA2 : forall mg eg, canonical mg eg ->
                  (F2R (Zpos mg) eg <= F2R m2 e1)%R -> (F2R (Zpos mg) eg <= F2R m3 e3)%R).
  { intros mg eg Hg Hgy.
    destruct (Z_le_gt_dec e1 e2) as [Hle|Hgt].
    - assert (He : e3 = e2) by lia; clear He3; subst e3.
      destruct (Z_lt_le_dec eg e2) as [Hlt|Hge].
      + apply (grid_small (F2R m2 e1) m2 e1 loc_Exact m3 l3 mg eg); assumption.
      + destruct (grid_large m3 e2 mg eg Hge) as [H|H]; [exact H|lra].
    - assert (He : e3 = e1) by lia; clear He3; subst e3.
      assert (Hm32 : m3 = m2).
      { apply F2R_lt_inv in Hx3hi.
        destruct (Z_lt_le_dec m2 m3) as [H|H]; [|lia].
        pose proof (F2R_lt_mantissa m2 m3 e1 H); lra. }
      rewrite Hm32; exact Hgy. }
  assert (Hover : forall mg eg, canonical mg eg ->
                    (x <= F2R (Zpos mg) eg)%R -> (e3 <= eg)%Z).
  { intros mg eg Hg Hgx; destruct (HB1 mg eg Hg Hgx) as [Hgy Hge1].
    destruct (Z_le_gt_dec e1 e2) as [Hle|Hgt]; [|lia].
    assert (He : e3 = e2) by lia; clear He3; subst e3.
    destruct (Z_lt_le_dec eg e2) as [Hlt|Hge]; [|exact Hge].
    destruct (grid_small (F2R m2 e1) m2 e1 loc_Exact m3 l3 mg eg
                Hm2pos Hy Hle Hx3 Hg Hlt) as [H _]; lra. }
  destruct m3 as [|p3|p3] eqn:Hm3eq; [| |lia].
  - intros _; split; [exact I|]; split.
    + intros mg eg Hv Hgx; destruct (valid_canonical _ _ _ Hv) as [Hg _].
      pose proof (HA2 mg eg Hg (HA1 mg eg Hg Hgx)) as H.
      pose proof (F2R_pos mg eg); unfold F2R in H at 2; rewrite Rmult_0_l in H; lra.
    + intros mg eg _ _; reflexivity.
  - destruct (e3 <=? emax - prec)%Z eqn:Hb.
    + intros Hvalid; destruct (valid_canonical _ _ _ Hvalid) as [Hc3 _].
      split; [exact I|]; split.
      * intros mg eg Hv Hgx; destruct (valid_canonical _ _ _ Hv) as [Hg _].
        apply SFleb_finite; [assumption..|].
        apply (HA2 mg eg Hg (HA1 mg eg Hg Hgx)).
      * intros mg eg Hv Hgx; destruct (valid_canonical _ _ _ Hv) as [Hg _].
        apply SFleb_finite; [assumption..|].
        destruct (HB1 mg eg Hg Hgx) as [H _]; lra.
    + intros _; split; [exact I|]; split.
      * intros mg eg _ _; reflexivity.
      * intros mg eg Hv Hgx; destruct (valid_canonical _ _ _ Hv) as [Hg Hbg].
        pose proof (Hover mg eg Hg Hgx); apply Z.leb_gt in Hb; lia.
Qed.

Lemma digits2_pos_mul (mx my : positive) :
  (Zpos (digits2_pos mx) + Zpos (digits2_pos my) - 1
   <= Zpos (digits2_pos (mx * my)))%Z.
Proof.
  pose proof (digits2_pos_bounds mx) as [Hx _].
  pose proof (digits2_pos_bounds my) as [Hy _].
  pose proof (digits2_pos_bounds (mx * my)) as [_ Hxy].
  assert (H : (2 ^ (Zpos (digits2_pos mx) - 1 + (Zpos (digits2_pos my) - 1))
               < 2 ^ Zpos (digits2_pos (mx * my)))%Z).
  { rewrite Z.pow_add_r by lia.
    apply Z.le_lt_trans with (2 := Hxy).
    rewrite Pos2Z.inj_mul; apply Z.mul_le_mono_nonneg; lia. }
  apply Z.pow_lt_mono_r_iff in H; lia.
Qed.

Lemma SFmul_sandwich (mx my : positive) (ex ey : Z) :
  valid_binary (S754_finite false mx ex) = true ->
  valid_binary (S754_finite false my ey) = true ->
  valid_binary (SF64mul (S754_finite false mx ex) (S754_finite false my ey)) = true ->
  nonneg (SF64mul (S754_finite false mx ex) (S754_finite false my ey)) /\
  (forall mg eg,
     valid_binary (S754_finite false mg eg) = true ->
     (F2R (Zpos mg) eg <= F2R (Zpos mx) ex * F2R (Zpos my) ey)%R ->
     SFleb (S754_finite false mg eg)
       (SF64mul (S754_finite false mx ex) (S754_finite false my ey)) = true) /\
  (forall mg eg,
     valid_binary (S754_finite false mg eg) = true ->
     (F2R (Zpos mx) ex * F2R (Zpos my) ey <= F2R (Zpos mg) eg)%R ->
     SFleb (SF64mul (S754_finite false mx ex) (S754_finite false my ey))
       (S754_finite false mg eg) = true).
Proof.
  intros Hx Hy; unfold SF64mul; cbn [SFmul xorb].
  destruct (valid_canonical _ _ _ Hx) as [Hcx _].
  destruct (valid_canonical _ _ _ Hy) as [Hcy _].
  apply round_aux_sandwich.
  - lia.
  - cbn [inbetween]; unfold F2R; rewrite Pos2Z.inj_mul, mult_IZR, bpow_add; ring.
  - cbn [Zdigits2]; pose proof (digits2_pos_mul mx my) as Hd.
    unfold canonical, fexp, SpecFloat.emin in *.
    change prec with 53%Z in *; change emax with 1024%Z in *; lia.
Qed.

(** Aligning a mantissa to a smaller exponent *)

Lemma iter_xO_value (m d : positive) :
  Zpos (Pos.iter xO m d) = (Zpos m * 2 ^ Zpos d)%Z.
Proof.
  induction d as [|d IH] using Pos.peano_ind.
  - cbn [Pos.iter]; lia.
  - rewrite Pos.iter_succ, Pos2Z.inj_xO, IH, Pos2Z.inj_succ, Z.pow_succ_r by lia; ring.
Qed.

Lemma shl_align_value (m : positive) (e e' : Z) :
  (snd (shl_align m e e') <= e)%Z /\
  snd (shl_align m e e') = Z.min e e' /\
  Zpos (fst (shl_align m e e'))
  = (Zpos m * 2 ^ (e - snd (shl_align m e e')))%Z.
Proof.
  unfold shl_align; destruct (e' - e)%Z as [|d|d] eqn:Hd; cbn [fst snd].
  - repeat split; [lia..|rewrite Z.sub_diag; simpl; lia].
  - repeat split; [lia..|rewrite Z.sub_diag; simpl; lia].
  - repeat split; [lia..|].
    rewrite iter_xO_value; f_equal; f_equal; lia.
Qed.

Lemma digits2_pos_pow2 (m : positive) (k : Z) (p : positive) :
  (0 <= k)%Z -> Zpos p = (Zpos m * 2 ^ k)%Z ->
  Zpos (digits2_pos p) = (Zpos (digits2_pos m) + k)%Z.
Proof.
  intros Hk Hp.
  pose proof (digits2_pos_bounds m) as [Hlo Hhi].
  pose proof (digits2_pos_bounds p) as [Hplo Hphi].
  rewrite Hp in Hplo, Hphi.
  pose proof (Z.pow_pos_nonneg 2 k ltac:(lia) Hk) as H2k.
  assert (H1 : (2 ^ (Zpos (digits2_pos p) - 1) < 2 ^ (Zpos (digits2_pos m) + k))%Z).
  { rewrite Z.pow_add_r by lia; nia. }
  assert (H2 : (2 ^ (Zpos (digits2_pos m) - 1 + k) < 2 ^ Zpos (digits2_pos p))%Z).
  { rewrite Z.pow_add_r by lia; nia. }
  apply Z.pow_lt_mono_r_iff in H1; [|lia..].
  apply Z.pow_lt_mono_r_iff in H2; lia.
Qed.

Lemma F2R_shl_align (m : positive) (e e' : Z) :
  F2R (Zpos (fst (shl_align m e e'))) (snd (shl_align m e e')) = F2R (Zpos m) e.
Proof.
  destruct (shl_align_value m e e') as (Hle & _ & Hv).
  rewrite Hv; symmetry; apply F2R_shift; exact Hle.
Qed.

Lemma binary_round_sandwich (x : R) (m : positive) (e : Z) :
  x = F2R (Zpos m) e ->
  valid_binary (binary_round prec emax false m e) = true ->
  nonneg (binary_round prec emax false m e) /\
  (forall mg eg,
     valid_binary (S754_finite false mg eg) = true ->
     (F2R (Zpos mg) eg <= x)%R ->
     SFleb (S754_finite false mg eg) (binary_round prec emax false m e) = true) /\
  (forall mg eg,
     valid_binary (S754_finite false mg eg) = true ->
     (x <= F2R (Zpos mg) eg)%R ->
     SFleb (binary_round prec emax false m e) (S754_finite false mg eg) = true).
Proof.
  intros Hx; unfold binary_round.
  pose proof (shl_align_value m e (fexp prec emax (Zpos (digits2_pos m) + e)))
    as (Hle & Hmin & Hv).
  pose proof (F2R_shl_align m e (fexp prec emax (Zpos (digits2_pos m) + e))) as HF.
  destruct (shl_align m e (fexp prec emax (Zpos (digits2_pos m) + e))) as [mz ez].
  cbn [fst snd] in *.
  apply round_aux_sandwich.
  - lia.
  - cbn [inbetween]; rewrite HF; exact Hx.
  - cbn [Zdigits2].
    rewrite (digits2_pos_pow2 m (e - ez) mz ltac:(lia) Hv).
    replace (Zpos (digits2_pos m) + (e - ez) + ez)%Z
      with (Zpos (digits2_pos m) + e)%Z by lia.
    lia.
Qed.

Lemma SFadd_sandwich (mx my : positive) (ex ey : Z) :
  valid_binary (SF64add (S754_finite false mx ex) (S754_finite false my ey)) = true ->
  nonneg (SF64add (S754_finite false mx ex) (S754_finite false my ey)) /\
  (forall mg eg,
     valid_binary (S754_finite false mg eg) = true ->
     (F2R (Zpos mg) eg <= F2R (Zpos mx) ex + F2R (Zpos my) ey)%R ->
     SFleb (S754_finite false mg eg)
       (SF64add (S754_finite false mx ex) (S754_finite false my ey)) = true) /\
  (forall mg eg,
     valid_binary (S754_finite false mg eg) = true ->
     (F2R (Zpos mx) ex + F2R (Zpos my) ey <= F2R (Zpos mg) eg)%R ->
     SFleb (SF64add (S754_finite false mx ex) (S754_finite false my ey))
       (S754_finite false mg eg) = true).
Proof.
  unfold SF64add; cbn [SFadd cond_Zopp].
  pose proof (F2R_shl_align mx ex (Z.min ex ey)) as Hx.
  pose proof (F2R_shl_align my ey (Z.min ex ey)) as Hy.
  destruct (shl_align_value mx ex (Z.min ex ey)) as (_ & Hex & _).
  destruct (shl_align_value my ey (Z.min ex ey)) as (_ & Hey & _).
  rewrite Hex in Hx; rewrite Hey in Hy.
  replace (Z.min ex (Z.min ex ey)) with (Z.min ex ey) in Hx by lia.
  replace (Z.min ey (Z.min ex ey)) with (Z.min ex ey) in Hy by lia.
  rewrite <- Hx, <- Hy.
  change (Zpos (fst (shl_align mx ex (Z.min ex ey)))
          + Zpos (fst (shl_align my ey (Z.min ex ey))))%Z
    with (Zpos (fst (shl_align mx ex (Z.min ex ey))
                + fst (shl_align my ey (Z.min ex ey)))).
  cbn [binary_normalize].
  apply binary_round_sandwich.
  unfold F2R; rewrite Pos2Z.inj_add, plus_IZR; ring.
Qed.

(** Division *)

Lemma new_location_inbetween (nb k q e : Z) :
  (0 < nb)%Z -> (0 <= k < nb)%Z ->
  inbetween ((IZR q + IZR k / IZR nb) * bpow e) q e (new_location nb k).
Proof.
  intros Hnb [Hk0 Hk].
  pose proof (bpow_pos e) as He.
  assert (Hn : (0 < IZR nb)%R) by (apply IZR_lt; exact Hnb).
  set (t := (IZR k / IZR nb)%R).
  assert (Ht : (t * IZR nb = IZR k)%R) by (unfold t; field; lra).
  replace ((IZR q + t) * bpow e)%R with (IZR q * bpow e + t * bpow e)%R by ring.
  unfold new_location, new_location_even, new_location_odd.
  replace ((if Z.even nb
            then fun k0 => if (k0 =? 0)%Z then loc_Exact
                           else loc_Inexact (2 * k0 ?= nb)%Z
            else fun k0 => if (k0 =? 0)%Z then loc_Exact
                           else loc_Inexact match (2 * k0 + 1 ?= nb)%Z with
                                            | Gt => Gt | _ => Lt end) k)
    with (if (k =? 0)%Z then loc_Exact
          else if Z.even nb then loc_Inexact (2 * k ?= nb)%Z
               else loc_Inexact match (2 * k + 1 ?= nb)%Z with
                                | Gt => Gt | _ => Lt end)
    by (destruct (Z.even nb), (k =? 0)%Z; reflexivity).
  destruct (Z.eqb_spec k 0) as [Hz|Hz].
  - assert (Ht0 : t = 0%R) by (unfold t; rewrite Hz; unfold Rdiv; ring).
    rewrite Ht0; cbn [inbetween]; unfold F2R; lra.
  - assert (Hkp : (0 < IZR k)%R) by (apply IZR_lt; lia).
    assert (Htp : (0 < t)%R) by nra.
    assert (Ht1 : (t < 1)%R) by (apply IZR_lt in Hk; nra).
    destruct (Z.even nb) eqn:Hev.
    + destruct (Z.compare_spec (2 * k) nb) as [Hc|Hc|Hc]; cbn [inbetween]; unfold F2R.
      * assert (Hh : (t = / 2)%R).
        { apply (f_equal IZR) in Hc; rewrite mult_IZR in Hc; nra. }
        rewrite Hh; field.
      * apply IZR_lt in Hc; rewrite mult_IZR in Hc.
        assert (Hh : (t < / 2)%R) by nra. nra.
      * apply IZR_lt in Hc; rewrite mult_IZR in Hc.
        assert (Hh : (/ 2 < t)%R) by nra. nra.
    + assert (Hodd : (2 * k <> nb)%Z).
      { intros <-; rewrite Z.even_mul in Hev; discriminate. }
      destruct (Z.compare_spec (2 * k + 1) nb) as [Hc|Hc|Hc]; cbn [inbetween]; unfold F2R.
      * assert (Hc' : (2 * k < nb)%Z) by lia.
        apply IZR_lt in Hc'; rewrite mult_IZR in Hc'.
        assert (Hh : (t < / 2)%R) by nra. nra.
      * assert (Hc' : (2 * k < nb)%Z) by lia.
        apply IZR_lt in Hc'; rewrite mult_IZR in Hc'.
        assert (Hh : (t < / 2)%R) by nra. nra.
      * assert (Hc' : (nb < 2 * k)%Z) by lia.
        apply IZR_lt in Hc'; rewrite mult_IZR in Hc'.
        assert (Hh : (/ 2 < t)%R) by nra. nra.
Qed.

Lemma Zdigits2_bound (q : Z) : (0 <= q)%Z -> (q < 2 ^ Zdigits2 q)%Z.
Proof.
  destruct q as [|p|p]; cbn [Zdigits2]; intros Hq.
  - simpl; lia.
  - apply digits2_pos_bounds.
  - lia.
Qed.

Lemma Zdigits2_nonneg (q : Z) : (0 <= Zdigits2 q)%Z.
Proof. destruct q; cbn [Zdigits2]; lia. Qed.

Lemma SFdiv_sandwich (mx my : positive) (ex ey : Z) :
  valid_binary (SF64div (S754_finite false mx ex) (S754_finite false my ey)) = true ->
  nonneg (SF64div (S754_finite false mx ex) (S754_finite false my ey)) /\
  (forall mg eg,
     valid_binary (S754_finite false mg eg) = true ->
     (F2R (Zpos mg) eg <= F2R (Zpos mx) ex / F2R (Zpos my) ey)%R ->
     SFleb (S754_finite false mg eg)
       (SF64div (S754_finite false mx ex) (S754_finite false my ey)) = true) /\
  (forall mg eg,
     valid_binary (S754_finite false mg eg) = true ->
     (F2R (Zpos mx) ex / F2R (Zpos my) ey <= F2R (Zpos mg) eg)%R ->
     SFleb (SF64div (S754_finite false mx ex) (S754_finite false my ey))
       (S754_finite false mg eg) = true).
Proof.
  unfold SF64div; cbn [SFdiv xorb]; unfold SFdiv_core_binary; cbn [Zdigits2].
  set (d1 := Zpos (digits2_pos mx)); set (d2 := Zpos (digits2_pos my)).
  set (e' := Z.min (fexp prec emax (d1 + ex - (d2 + ey))) (ex - ey)).
  set (s := (ex - ey - e')%Z).
  assert (Hs : (0 <= s)%Z) by (unfold s, e'; lia).
  set (m' := match s with Zpos _ => Z.shiftl (Zpos mx) s | Z0 => Zpos mx | Zneg _ => 0%Z end).
  assert (Hm' : m' = (Zpos mx * 2 ^ s)%Z).
  { unfold m'; destruct s as [|p|p] eqn:Hsp.
    - simpl; lia.
    - apply Z.shiftl_mul_pow2; lia.
    - lia. }
  pose proof (Z_div_mod m' (Zpos my) ltac:(lia)) as Hdiv.
  destruct (Z.div_eucl m' (Zpos my)) as [q r]; destruct Hdiv as [Hqr Hr].
  pose proof (Z.pow_pos_nonneg 2 s ltac:(lia) Hs) as H2s.
  assert (Hq : (0 <= q)%Z) by nia.
  apply round_aux_sandwich.
  - exact Hq.
  - pose proof (new_location_inbetween (Zpos my) r q e' ltac:(lia) Hr) as Hin.
    replace (F2R (Zpos mx) ex / F2R (Zpos my) ey)%R
      with ((IZR q + IZR r / IZR (Zpos my)) * bpow e')%R; [exact Hin|].
    unfold F2R.
    replace ex with (s + e' + ey)%Z at 1 by (unfold s; lia).
    rewrite !bpow_add, (bpow_IZR s Hs).
    assert (HR : (IZR (Zpos mx) * IZR (2 ^ s) = IZR (Zpos my) * IZR q + IZR r)%R).
    { rewrite <- !mult_IZR, <- plus_IZR, <- Hqr, Hm'; reflexivity. }
    pose proof (bpow_pos ey) as Hey.
    assert (Hmy : (0 < IZR (Zpos my))%R) by (apply IZR_lt; lia).
    replace (IZR (Zpos mx) * (IZR (2 ^ s) * bpow e' * bpow ey))%R
      with ((IZR (Zpos mx) * IZR (2 ^ s)) * bpow e' * bpow ey)%R by ring.
    rewrite HR; field; lra.
  - apply Z.le_trans with (fexp prec emax (d1 + ex - (d2 + ey))); [unfold e'; lia|].
    apply fexp_mono.
    pose proof (digits2_pos_bounds mx) as [Hlo _].
    pose proof (digits2_pos_bounds my) as [_ Hhi].
    pose proof (Zdigits2_bound q Hq) as Hqb.
    pose proof (Zdigits2_nonneg q) as Hdq.
    fold d1 in Hlo; fold d2 in Hhi.
    assert (H : (2 ^ (d1 - 1 + s) < 2 ^ (d2 + Zdigits2 q))%Z).
    { rewrite !Z.pow_add_r by (unfold d1, d2; lia).
      apply Z.le_lt_trans with (Zpos mx * 2 ^ s)%Z; [nia|].
      rewrite <- Hm', Hqr.
      apply Z.lt_le_trans with (Zpos my * (q + 1))%Z; [lia|].
      apply Z.mul_le_mono_nonneg; lia. }
    apply Z.pow_lt_mono_r_iff in H; [|lia|unfold d2; lia].
    unfold s in H; lia.
Qed.

(** Comparisons *)

Lemma SFltb_finite_false (m1 m2 : positive) (e1 e2 : Z) :
  canonical m1 e1 -> canonical m2 e2 ->
  SFltb (S754_finite false m1 e1) (S754_finite false m2 e2) = false ->
  (F2R (Zpos m2) e2 <= F2R (Zpos m1) e1)%R.
Proof.
  intros H1 H2; unfold SFltb; cbn [SFcompare].
  destruct (Z.compare_spec e1 e2) as [He|He|He].
  - subst e2; change (Pos.compare_cont Eq m1 m2) with (Pos.compare m1 m2).
    destruct (Pos.compare_spec m1 m2) as [Hm|Hm|Hm].
    + subst m2; intros _; lra.
    + discriminate.
    + intros _; apply F2R_le_mantissa; lia.
  - discriminate.
  - intros _; left; apply canonical_exponent_lt; assumption.
Qed.

Lemma nonneg_leb (r : spec_float) (mg : positive) (eg : Z) :
  valid_binary r = true ->
  valid_binary (S754_finite false mg eg) = true ->
  nonneg r -> SFleb r (S754_finite false mg eg) = true ->
  le_value r (F2R (Zpos mg) eg).
Proof.
  intros Hr Hg; destruct r as [s|[|]| |[|] m e]; cbn [nonneg le_value];
    try contradiction; try (intros _ _; exact I).
  - intros _; unfold SFleb; cbn [SFcompare]; discriminate.
  - intros _ Hle.
    destruct (valid_canonical _ _ _ Hr) as [Hc _].
    destruct (valid_canonical _ _ _ Hg) as [Hcg _].
    apply (SFleb_finite m mg e eg Hc Hcg); exact Hle.
Qed.

Lemma nonneg_geb (r : spec_float) (mg : positive) (eg : Z) :
  valid_binary r = true ->
  valid_binary (S754_finite false mg eg) = true ->
  nonneg r -> SFleb (S754_finite false mg eg) r = true ->
  ge_value r (F2R (Zpos mg) eg).
Proof.
  intros Hr Hg; destruct r as [s|[|]| |[|] m e]; cbn [nonneg ge_value];
    try contradiction; try (intros _ _; exact I).
  - intros _; unfold SFleb; cbn [SFcompare]; discriminate.
  - intros _ Hle.
    destruct (valid_canonical _ _ _ Hr) as [Hc _].
    destruct (valid_canonical _ _ _ Hg) as [Hcg _].
    apply (SFleb_finite mg m eg e Hcg Hc); exact Hle.
Qed.

Lemma nonneg_zero_leb (r : spec_float) :
  nonneg r -> SFleb (S754_zero false) r = true.
Proof. destruct r as [s|[|]| |[|] m e]; cbn [nonneg]; try contradiction; reflexivity. Qed.

Lemma F2R_one : F2R 4503599627370496 (-52) = 1%R.
Proof.
  unfold F2R; change 4503599627370496%Z with (2 ^ 52)%Z.
  rewrite <- (bpow_IZR 52) by lia; rewrite <- bpow_add; reflexivity.
Qed.

Lemma one_spec : Prim2SF 1 = S754_finite false 4503599627370496 (-52).
Proof. vm_compute; reflexivity. Qed.

Lemma valid_of_spec (x : float) (s : bool) (m : positive) (e : Z) :
  Prim2SF x = S754_finite s m e -> valid_binary (S754_finite s m e) = true.
Proof. intros <-; apply Prim2SF_valid. Qed.

(** Bounds through the operations *)

Lemma div_le_one (c g : float) (mg : positive) (eg : Z) :
  Prim2SF g = S754_finite false mg eg ->
  le_value (Prim2SF c) (F2R (Zpos mg) eg) ->
  le_value (Prim2SF (c / g)) 1.
Proof.
  intros Hg Hc.
  pose proof (Prim2SF_valid (c / g)) as Hv; rewrite div_spec, Hg in Hv |- *.
  destruct (Prim2SF c) as [s|s| |[|] m e]; cbn [le_value] in Hc; try contradiction.
  - exact I.
  - destruct (SFdiv_sandwich m mg e eg Hv) as (Hn & _ & Hup).
    rewrite <- F2R_one.
    apply nonneg_leb; [exact Hv|apply (valid_of_spec 1 _ _ _ one_spec)|exact Hn|].
    apply Hup; [apply (valid_of_spec 1 _ _ _ one_spec)|].
    rewrite F2R_one.
    pose proof (F2R_pos mg eg) as Hpos.
    apply Rmult_le_reg_r with (F2R (Zpos mg) eg); [exact Hpos|].
    unfold Rdiv; rewrite Rmult_assoc, Rinv_l by lra; lra.
Qed.

Lemma mul_le_factor (d k : float) (mk : positive) (ek : Z) :
  Prim2SF k = S754_finite false mk ek ->
  le_value (Prim2SF d) 1 ->
  le_value (Prim2SF (d * k)) (F2R (Zpos mk) ek).
Proof.
  intros Hk Hd.
  pose proof (Prim2SF_valid (d * k)) as Hv; rewrite mul_spec, Hk in Hv |- *.
  pose proof (valid_of_spec k _ _ _ Hk) as Hvk.
  pose proof (Prim2SF_valid d) as Hvd.
  destruct (Prim2SF d) as [s|s| |[|] m e]; cbn [le_value] in Hd; try contradiction.
  - exact I.
  - destruct (SFmul_sandwich m mk e ek Hvd Hvk Hv) as (Hn & _ & Hup).
    apply nonneg_leb; [exact Hv|exact Hvk|exact Hn|].
    apply Hup; [exact Hvk|].
    pose proof (F2R_pos mk ek) as Hpos; pose proof (F2R_pos m e) as Hpm.
    nra.
Qed.

Lemma add_between (a p hi : float) (ma mh : positive) (ea eh : Z) (b : R) :
  Prim2SF a = S754_finite false ma ea ->
  Prim2SF hi = S754_finite false mh eh ->
  le_value (Prim2SF p) b ->
  (0 <= b)%R ->
  (F2R (Zpos ma) ea + b <= F2R (Zpos mh) eh)%R ->
  (a <=? a + p)%float = true /\ (a + p <=? hi)%float = true.
Proof.
  intros Ha Hhi Hp Hb Hsum.
  pose proof (valid_of_spec a _ _ _ Ha) as Hva.
  pose proof (valid_of_spec hi _ _ _ Hhi) as Hvh.
  destruct (valid_canonical _ _ _ Hva) as [Hca _].
  destruct (valid_canonical _ _ _ Hvh) as [Hch _].
  pose proof (Prim2SF_valid (a + p)) as Hv.
  rewrite !leb_spec, add_spec, Ha, Hhi; rewrite add_spec, Ha in Hv.
  destruct (Prim2SF p) as [s|s| |[|] m e]; cbn [le_value] in Hp; try contradiction.
  - unfold SF64add; cbn [SFadd]; split.
    + apply (SFleb_finite ma ma ea ea Hca Hca); lra.
    + apply (SFleb_finite ma mh ea eh Hca Hch); lra.
  - destruct (SFadd_sandwich ma m ea e Hv) as (_ & Hlo & Hup).
    pose proof (F2R_pos m e) as Hpm; split.
    + apply Hlo; [exact Hva|lra].
    + apply Hup; [exact Hvh|lra].
Qed.

(** The clamp and the multiplier *)

Lemma four_spec : Prim2SF 4 = S754_finite false 4503599627370496 (-50).
Proof. vm_compute; reflexivity. Qed.

Lemma clamp_le_four (e : float) :
  (e =? e)%float = true ->
  le_value (Prim2SF (if (4 <? abs e)%float then 4%float else abs e))
    (F2R 4503599627370496 (-50)).
Proof.
  intros He; rewrite FloatAxioms.eqb_spec in He.
  rewrite ltb_spec, four_spec.
  pose proof (Prim2SF_valid (abs e)) as Hv.
  pose proof (abs_spec e) as Ha.
  destruct (Prim2SF e) as [s|s| |s m ex]; cbn [SFabs] in Ha.
  - rewrite Ha; cbn [SFltb SFcompare]; rewrite Ha; exact I.
  - rewrite Ha; cbn [SFltb SFcompare]; rewrite four_spec; cbn [le_value]; lra.
  - discriminate He.
  - rewrite Ha in Hv |- *.
    destruct (SFltb (S754_finite false 4503599627370496 (-50)) (S754_finite false m ex))
      eqn:Hlt.
    + rewrite four_spec; cbn [le_value]; lra.
    + rewrite Ha; cbn [le_value].
      destruct (valid_canonical _ _ _ Hv) as [Hc _].
      destruct (valid_canonical _ _ _ (valid_of_spec 4 _ _ _ four_spec)) as [H4 _].
      apply (SFltb_finite_false _ _ _ _ H4 Hc Hlt).
Qed.

Lemma lit_0_7_spec : Prim2SF (Binary64.literal 0.7) = S754_finite false 6305039478318694 (-53).
Proof. vm_compute; reflexivity. Qed.

Lemma lit_0_6_spec : Prim2SF (Binary64.literal 0.6) = S754_finite false 5404319552844595 (-53).
Proof. vm_compute; reflexivity. Qed.

Lemma lit_1_3_spec : Prim2SF (Binary64.literal 1.3) = S754_finite false 5854679515581645 (-52).
Proof. vm_compute; reflexivity. Qed.

Lemma scaled_clamp_bounds (e : float) :
  (e =? e)%float = true ->
  (Binary64.literal 0.7
   <=? Binary64.literal 0.7
       + ((if Binary64.literal 4.0 <? abs e then Binary64.literal 4.0 else abs e)
          / Binary64.literal 4.0) * Binary64.literal 0.6)%float = true /\
  (Binary64.literal 0.7
   + ((if Binary64.literal 4.0 <? abs e then Binary64.literal 4.0 else abs e)
      / Binary64.literal 4.0) * Binary64.literal 0.6
   <=? Binary64.literal 1.3)%float = true.
Proof.
  intros He; change (Binary64.literal 4.0) with 4%float.
  pose proof (clamp_le_four e He) as Hc.
  pose proof (div_le_one _ 4%float _ _ four_spec Hc) as Hd.
  pose proof (mul_le_factor _ _ _ _ lit_0_6_spec Hd) as Hp.
  apply (add_between _ _ _ _ _ _ _ _ lit_0_7_spec lit_1_3_spec Hp).
  - left; apply F2R_pos.
  - unfold F2R; change (-52)%Z with (-53 + 1)%Z; rewrite bpow_succ.
    pose proof (bpow_pos (-53)) as Hb; lra.
Qed.

(** The logistic quotient *)

Lemma infinity_spec : Prim2SF infinity = S754_infinity false.
Proof. vm_compute; reflexivity. Qed.

Lemma reciprocal_bounds (y : float) :
  (0 <=? y)%float = true ->
  (0 <=? 1 / (1 + y))%float = true /\ (1 / (1 + y) <=? 1)%float = true.
Proof.
  intros Hy; rewrite leb_spec in Hy.
  change (Prim2SF 0) with (S754_zero false) in Hy.
  pose proof (Prim2SF_valid (1 + y)) as Hvs.
  pose proof (add_spec 1 y) as Hs; rewrite one_spec in Hs.
  pose proof (Prim2SF_valid y) as Hvy.
  pose proof (valid_of_spec 1 _ _ _ one_spec) as Hv1.
  assert (Hge : ge_value (Prim2SF (1 + y)) 1 \/ (1 + y)%float = 1%float).
  { destruct (Prim2SF y) as [s|[|]| |[|] m e]; try discriminate Hy.
    - right; apply Prim2SF_inj; rewrite Hs, one_spec; reflexivity.
    - left; rewrite Hs; exact I.
    - left; rewrite Hs in Hvs |- *.
      destruct (SFadd_sandwich _ m _ e Hvs) as (Hn & Hlo & _).
      rewrite <- F2R_one; apply nonneg_geb; [exact Hvs|exact Hv1|exact Hn|].
      apply Hlo; [exact Hv1|].
      pose proof (F2R_pos m e); lra. }
  destruct Hge as [Hge|Heq]; [|rewrite Heq; vm_compute; split; reflexivity].
  pose proof (Prim2SF_valid (1 / (1 + y))) as Hvq.
  rewrite !leb_spec, div_spec, one_spec; rewrite div_spec, one_spec in Hvq.
  change (Prim2SF 0) with (S754_zero false).
  destruct (Prim2SF (1 + y)) as [s|[|]| |[|] m e]; cbn [ge_value] in Hge;
    try contradiction.
  - split; reflexivity.
  - destruct (SFdiv_sandwich _ m _ e Hvq) as (Hn & _ & Hup); split.
    + apply nonneg_zero_leb; exact Hn.
    + apply Hup; [exact Hv1|].
      rewrite F2R_one in *.
      pose proof (F2R_pos m e) as Hpos.
      apply Rmult_le_reg_r with (F2R (Zpos m) e); [exact Hpos|].
      unfold Rdiv; rewrite Rmult_assoc, Rinv_l by lra; lra.
Qed.

End Rounding.

(** *** The module over binary64, for any [np.exp] *)

Section Binary64Facts.

Local Open Scope float_scope.

Variable np_exp : float -> float.

Let binary64 : Arith float := Binary64.arith np_exp.

#[local] Existing Instance binary64.

Lemma logistic_binary64 (x : float) : logistic x = 1 / (1 + np_exp (- x)).
Proof. reflexivity. Qed.

Lemma logistic_saturates_high (x : float) :
  Binary64.libm_exp np_exp -> (746 <=? x) = true -> logistic x = 1.
Proof.
  intros [Hunder _] Hx; rewrite logistic_binary64.
  rewrite Hunder; [reflexivity|].
  change (-746) with (- (746)); rewrite leb_opp; exact Hx.
Qed.

Lemma logistic_saturates_low (x : float) :
  Binary64.libm_exp np_exp -> (x <=? -710) = true -> logistic x = 0.
Proof.
  intros [_ Hover] Hx; rewrite logistic_binary64.
  rewrite Hover; [reflexivity|].
  change 710 with (- (-710)); rewrite leb_opp; exact Hx.
Qed.

Lemma segment_multiplier_clamped (elasticity : float) :
  (4 <=? elasticity) = true ->
  segment_multiplier elasticity = (n_lit 0.7 + n_lit 0.6)%py.
Proof.
  intros Hle; unfold segment_multiplier, py_min.
  change (n_lit 4.0) with 4.
  change (n_lt 4 elasticity) with (4 <? elasticity).
  destruct (4 <? elasticity) eqn:Hlt; [reflexivity|].
  assert (H4 : Prim2SF 4 = S754_finite false 4503599627370496 (-50))
    by (vm_compute; reflexivity).
  rewrite (leb_not_ltb_eq 4 elasticity _ _ _ H4 Hle Hlt); reflexivity.
Qed.

Lemma segment_multiplier_default :
  segment_multiplier (n_abs (n_lit (-2.0))) = 1.
Proof. vm_compute; reflexivity. Qed.

(** For every elasticity that is a number, the multiplier computed in
    binary64 lies between the doubles [0.7] and [1.3]. *)
Lemma segment_multiplier_bounds (elasticity : float) :
  (elasticity =? elasticity) = true ->
  (n_lit 0.7 <=? segment_multiplier (abs elasticity)) = true /\
  (segment_multiplier (abs elasticity) <=? n_lit 1.3) = true.
Proof. exact (scaled_clamp_bounds elasticity). Qed.

(** Whenever [np.exp] returns a non-negative number, the computed
    [logistic] lies between [0.0] and [1.0]. *)
Lemma logistic_in_unit_interval (x : float) :
  (0 <=? np_exp (- x)) = true ->
  (0 <=? logistic x) = true /\ (logistic x <=? 1) = true.
Proof. rewrite logistic_binary64; apply reciprocal_bounds. Qed.

(** C1. For a scenario whose price change and baseline are numbers ([0] and
    [0.05] when the keys are absent), [predict_churn_by_horizon] returns
    the four horizons; for the horizon with interaction coefficient [coef],
    [churn_rate] is [logistic(-2.944 + 0.01 * pct + coef * pct)],
    [churn_uplift] is [churn_rate - baseline] and [churn_uplift_pp] is
    [churn_uplift * 100]; with a price change of [0] every [churn_rate] is
    [logistic(-2.944)]. *)
Theorem horizon_formulas (scenario : dict (value float)) (pct base : float) :
  scenario_pct scenario = Num pct ->
  scenario_base scenario = Num base ->
  exists hz,
    predict_churn_by_horizon scenario = Ok hz /\
    dict_keys hz = [ "0-4 Weeks"; "4-8 Weeks"; "8-12 Weeks"; "12+ Weeks" ]%string /\
    forall name coef,
      In (name, coef)
         [ ("0-4 Weeks", n_lit 0.006); ("4-8 Weeks", n_lit 0.018);
           ("8-12 Weeks", n_lit 0.028); ("12+ Weeks", n_lit 0.008) ]%string ->
      exists v,
        dict_get hz name = Some v /\
        churn_rate v = logistic (n_lit (-2.944) + n_lit 0.01 * pct + coef * pct)%py /\
        churn_uplift v = (churn_rate v - base)%py /\
        churn_uplift_pp v = (churn_uplift v * n_lit 100)%py /\
        (pct = 0 -> churn_rate v = logistic (n_lit (-2.944))).
Proof.
  intros Hp Hb; exists (horizon_table pct base).
  split; [apply predict_churn_by_horizon_num; assumption|].
  split; [reflexivity|].
  intros name coef Hin.
  repeat (destruct Hin as [Hin|Hin];
          [inversion Hin; subst name coef; eexists; split; [reflexivity|];
           repeat split; intros ->; reflexivity|]).
  destruct Hin.
Qed.

(** C4. For segments that meet the input contract, a segment whose
    elasticity is [-2.0] (given, or absent and defaulted) has multiplier
    exactly [1.0], and each of its [churn_<key>] fields is exactly the
    [churn_uplift_pp] of that horizon. *)
Theorem default_elasticity_leaves_uplift_unscaled
  (scenario : dict (value float)) (segments : list (dict (value float)))
  (pct base : float) :
  scenario_pct scenario = Num pct ->
  scenario_base scenario = Num base ->
  Forall numeric_elasticity segments ->
  Forall has_fields segments ->
  exists hz rs,
    predict_churn_by_horizon scenario = Ok hz /\
    predict_churn_by_segment scenario segments = Ok rs /\
    segment_multiplier (n_abs (n_lit (-2.0))) = 1 /\
    Forall2 (fun segment r =>
               segment_elasticity segment = Num (n_lit (-2.0)) ->
               forall horizon values,
                 In (horizon, values) hz ->
                 dict_get r ("churn_" ++ horizon_key horizon)%string
                 = Some (Num (churn_uplift_pp values)))
            segments rs.
Proof.
  intros Hp Hb Hnum Hhas.
  destruct (segments_loop_ok _ _ _ _ Hp Hb Hnum Hhas []) as (rs & Hrs & Hall).
  exists (horizon_table pct base), rs.
  split; [apply predict_churn_by_horizon_num; assumption|].
  split; [exact Hrs|]; split; [exact segment_multiplier_default|].
  eapply Forall2_impl; [|exact Hall].
  intros segment r Hr He horizon values Hin.
  destruct (result_of_scaled _ _ _ _ Hr) as (e & He' & _ & _ & Hfields).
  assert (e = n_lit (-2.0)) by congruence; subst e.
  rewrite (Hfields _ _ Hin), segment_multiplier_default.
  change (n_mul (churn_uplift_pp values) 1) with (churn_uplift_pp values * 1).
  rewrite mul_one_r; reflexivity.
Qed.

End Binary64Facts.

(** ** Ranges and orders: exact arithmetic against binary64 *)

#[local] Existing Instance Exact.arith.

Lemma churn_rate_exact_bounds (pct base : R) (horizon : string)
  (values : horizon_result R) :
  In (horizon, values) (horizon_table pct base) ->
  (0 < churn_rate values < 1)%R.
Proof.
  intros Hin.
  repeat (destruct Hin as [Hin|Hin];
          [inversion Hin; subst; rewrite churn_rate_exact;
           apply logistic_exact_bounds|]).
  destruct Hin.
Qed.

Lemma churn_rate_exact_increasing (p1 p2 base1 base2 coef : R) :
  (0 <= coef -> p1 < p2 ->
   churn_rate (horizon_entry p1 base1 coef)
   < churn_rate (horizon_entry p2 base2 coef))%R.
Proof.
  intros Hc Hp; rewrite !churn_rate_exact.
  apply logistic_exact_increasing; nra.
Qed.

Lemma churn_rate_exact_coef (p base c1 c2 : R) :
  (0 < p -> c1 < c2 ->
   churn_rate (horizon_entry p base c1) < churn_rate (horizon_entry p base c2))%R.
Proof.
  intros Hp Hc; rewrite !churn_rate_exact.
  apply logistic_exact_increasing; nra.
Qed.

Lemma logistic_exact_below_half (x : R) : (x < 0 -> Exact.logistic x < / 2)%R.
Proof.
  intros Hx; rewrite logistic_exact.
  assert (He : (1 < exp (- x))%R) by (rewrite <- exp_0; apply exp_increasing; lra).
  unfold Rdiv; rewrite Rmult_1_l.
  apply Rinv_lt_contravar; lra.
Qed.

Lemma lit_exact (n : Z) (d : positive) :
  @n_lit R Exact.arith (n # d) = (IZR n / IZR (Zpos d))%R.
Proof. reflexivity. Qed.

Ltac real_literals :=
  rewrite ?lit_exact in *; unfold Q2R in *; cbn [Qnum Qden] in *.

(** C2 fails in binary64: at [x = 1000] the value is exactly [1.0], not
    below it, and at [x = -1000] it is exactly [0.0]. *)
Lemma logistic_reaches_the_end_points :
  Binary64.logistic Binary64.exp64 1000%float = 1%float /\
  (Binary64.logistic Binary64.exp64 1000%float <? 1)%float = false /\
  Binary64.logistic Binary64.exp64 (-1000)%float = 0%float /\
  (0 <? Binary64.logistic Binary64.exp64 (-1000)%float)%float = false.
Proof. vm_compute; repeat split. Qed.

(** C3, as the code has it.  Over the reals the multiplier lies in
    [[0.7, 1.3]], is [1.3] from magnitude [4] on and [0.7] at [0].  In
    binary64 the multiplier of every elasticity that is a number lies
    between the doubles [0.7] and [1.3], and the clamp takes effect as
    well; but the value from magnitude [4.0] on is the double [0.7 + 0.6],
    which is below the double [1.3]; at [0] it is the double [0.7]. *)
Theorem segment_multiplier_range :
  (forall elasticity : R,
     (0.7 <= Exact.segment_multiplier (Rabs elasticity) <= 1.3)%R /\
     ((4 <= Rabs elasticity)%R ->
      Exact.segment_multiplier (Rabs elasticity) = 1.3%R)) /\
  Exact.segment_multiplier (Rabs 0) = 0.7%R /\
  (forall (np_exp : float -> float) (elasticity : float),
     (elasticity =? elasticity)%float = true ->
     (Binary64.literal 0.7
      <=? Binary64.segment_multiplier np_exp (abs elasticity))%float = true /\
     (Binary64.segment_multiplier np_exp (abs elasticity)
      <=? Binary64.literal 1.3)%float = true) /\
  (forall (np_exp : float -> float) (elasticity : float),
     (4 <=? abs elasticity)%float = true ->
     Binary64.segment_multiplier np_exp (abs elasticity)
     = (Binary64.literal 0.7 + Binary64.literal 0.6)%float) /\
  (Binary64.literal 0.7 + Binary64.literal 0.6 <? Binary64.literal 1.3)%float = true /\
  (forall np_exp : float -> float,
     Binary64.segment_multiplier np_exp (abs 0%float) = Binary64.literal 0.7).
Proof.
  split; [|split; [|split; [|split; [|split]]]].
  - intros e; rewrite segment_multiplier_exact.
    pose proof (Rabs_pos e) as Hpos.
    unfold Rmin; destruct (Rle_dec (Rabs e) 4); split; try lra.
  - rewrite segment_multiplier_exact, Rabs_R0.
    unfold Rmin; destruct (Rle_dec 0 4); lra.
  - intros np_exp e He; apply (segment_multiplier_bounds np_exp e He).
  - intros np_exp e He; apply segment_multiplier_clamped; exact He.
  - vm_compute; reflexivity.
  - intros np_exp; vm_compute; reflexivity.
Qed.

(** C3 fails in binary64: for elasticity [-4.0] the multiplier is
    [0.7 + 1.0 * 0.6 = 1.2999999999999998], which is not the double [1.3]. *)
Lemma clamped_multiplier_is_not_1_3 :
  Binary64.segment_multiplier Binary64.exp64 (abs (Binary64.literal (-4.0)))
  = 0x1.4ccccccccccccp+0%float /\
  Binary64.literal 1.3 = 0x1.4cccccccccccdp+0%float /\
  (Binary64.segment_multiplier Binary64.exp64 (abs (Binary64.literal (-4.0)))
   =? Binary64.literal 1.3)%float = false.
Proof. vm_compute; repeat split. Qed.

(** ** The theorems at work on concrete inputs *)

Section Runs.

#[local] Existing Instance Binary64.reference.

Lemma horizon_formulas_witness :
  scenario_pct scenario_16 = Num (Binary64.literal 16.67) /\
  scenario_base scenario_16 = Num (Binary64.literal 0.05) /\
  exists hz,
    predict_churn_by_horizon scenario_16 = Ok hz /\
    dict_keys hz = [ "0-4 Weeks"; "4-8 Weeks"; "8-12 Weeks"; "12+ Weeks" ].
Proof.
  split; [reflexivity|]; split; [reflexivity|].
  destruct (horizon_formulas Binary64.exp64 scenario_16 _ _ eq_refl eq_refl)
    as (hz & Hhz & Hkeys & _).
  exists hz; split; assumption.
Defined.

Lemma default_elasticity_witness :
  exists hz rs,
    predict_churn_by_horizon scenario_16 = Ok hz /\
    predict_churn_by_segment scenario_16 [segment_a; segment_b] = Ok rs /\
    segment_multiplier (n_abs (n_lit (-2.0))) = 1%float /\
    Forall2 (fun segment r =>
               segment_elasticity segment = Num (n_lit (-2.0)) ->
               forall horizon values,
                 In (horizon, values) hz ->
                 dict_get r ("churn_" ++ horizon_key horizon)%string
                 = Some (Num (churn_uplift_pp values)))
            [segment_a; segment_b] rs.
Proof.
  refine (default_elasticity_leaves_uplift_unscaled Binary64.exp64 scenario_16
            [segment_a; segment_b] _ _ eq_refl eq_refl _ _).
  - repeat constructor; eexists; reflexivity.
  - repeat constructor; eexists; reflexivity.
Defined.

Lemma segment_result_fields_witness :
  exists hz rs,
    predict_churn_by_horizon scenario_16 = Ok hz /\
    predict_churn_by_segment scenario_16 [segment_a; segment_b] = Ok rs /\
    Forall2 (fun segment r =>
               exists e,
                 segment_elasticity segment = Num e /\
                 scaled_result hz (segment_multiplier (n_abs e)) segment r)
            [segment_a; segment_b] rs.
Proof.
  destruct (segment_result_fields scenario_16 [segment_a; segment_b] _ _
              eq_refl eq_refl) as (hz & rs & Hhz & Hrs & Hall & _).
  - repeat constructor; eexists; reflexivity.
  - repeat constructor; eexists; reflexivity.
  - exists hz, rs; repeat split; assumption.
Defined.

Lemma churn_fields_independent_witness :
  exists rs1 rs2,
    predict_churn_by_segment scenario_16 [segment_a; segment_b] = Ok rs1 /\
    predict_churn_by_segment scenario_16 [segment_a'; segment_b] = Ok rs2 /\
    Forall2 same_churn_fields rs1 rs2 /\
    Forall2 copies_fields [segment_a; segment_b] rs1 /\
    Forall2 copies_fields [segment_a'; segment_b] rs2.
Proof.
  refine (churn_fields_independent_of_name_and_size scenario_16
            [segment_a; segment_b] [segment_a'; segment_b] _ _
            eq_refl eq_refl _ _ _ _).
  - repeat constructor; eexists; reflexivity.
  - repeat constructor; eexists; reflexivity.
  - repeat constructor; eexists; reflexivity.
  - repeat constructor.
Defined.

End Runs.

(** * Further properties *)

(** ** Outcomes of the two calls, for any arithmetic *)

Section CallOutcomes.

Context {T : Type} {A : Arith T}.

Local Open Scope py_scope.

Lemma predict_churn_by_horizon_pct_str (scenario : dict (value T)) (s : string) :
  scenario_pct scenario = Str s ->
  predict_churn_by_horizon scenario = Err TypeError.
Proof.
  unfold scenario_pct, predict_churn_by_horizon; intros ->; reflexivity.
Qed.

Lemma predict_churn_by_horizon_base_str (scenario : dict (value T)) (pct : T) (s : string) :
  scenario_pct scenario = Num pct ->
  scenario_base scenario = Str s ->
  predict_churn_by_horizon scenario = Err TypeError.
Proof.
  unfold scenario_pct, scenario_base, predict_churn_by_horizon; intros -> ->; reflexivity.
Qed.

(** X1. For a price change and a baseline (after the defaults) that are
    each a float or a string, [predict_churn_by_horizon] returns the table
    of the four horizons exactly when both are floats, and raises
    [TypeError] exactly when one of them is a string: an absent key is
    defaulted and the look-ups in [CHURN_COEFFICIENTS] cannot fail. *)
Theorem horizon_raises_only_type_error (scenario : dict (value T)) :
  (forall hz,
     predict_churn_by_horizon scenario = Ok hz <->
     exists pct base,
       scenario_pct scenario = Num pct /\ scenario_base scenario = Num base /\
       hz = horizon_table pct base) /\
  (forall e,
     predict_churn_by_horizon scenario = Err e <->
     e = TypeError /\
     ((exists s, scenario_pct scenario = Str s) \/
      (exists s, scenario_base scenario = Str s))).
Proof.
  split.
  - intros hz; split.
    + apply predict_churn_by_horizon_inv.
    + intros (pct & base & Hp & Hb & ->); apply predict_churn_by_horizon_num; assumption.
  - intros e; split.
    + intros He.
      destruct (scenario_pct scenario) as [pct|s] eqn:Hp.
      * destruct (scenario_base scenario) as [base|s] eqn:Hb.
        -- rewrite (predict_churn_by_horizon_num _ _ _ Hp Hb) in He; discriminate He.
        -- rewrite (predict_churn_by_horizon_base_str _ _ _ Hp Hb) in He.
           inversion He; split; [reflexivity|right; exists s; reflexivity].
      * rewrite (predict_churn_by_horizon_pct_str _ _ Hp) in He.
        inversion He; split; [reflexivity|left; exists s; reflexivity].
    + intros [-> [[s Hs]|[s Hs]]].
      * apply (predict_churn_by_horizon_pct_str _ _ Hs).
      * destruct (scenario_pct scenario) as [pct|s'] eqn:Hp.
        -- apply (predict_churn_by_horizon_base_str _ _ _ Hp Hs).
        -- apply (predict_churn_by_horizon_pct_str _ _ Hp).
Qed.


Lemma segment_fault_none (segment : dict (value T)) :
  segment_fault segment = None <->
  numeric_elasticity segment /\ has_fields segment.
Proof.
  unfold segment_fault, numeric_elasticity, has_fields; split.
  - destruct (segment_elasticity segment) as [e|s]; [|discriminate].
    destruct (dict_get segment "name") as [n|]; [|discriminate].
    destruct (dict_get segment "size") as [z|]; [|discriminate].
    intros _; repeat split; eexists; reflexivity.
  - intros [[e ->] [[n ->] [z ->]]]; reflexivity.
Qed.

Lemma segment_body_fault (scenario segment : dict (value T))
  (results : list (dict (value T))) (hz : dict (horizon_result T)) (err : error) :
  predict_churn_by_horizon scenario = Ok hz ->
  segment_fault segment = Some err ->
  segment_body scenario results segment = Err err.
Proof.
  intros Hhz; unfold segment_fault, segment_body, segment_elasticity, dict_item.
  rewrite Hhz; cbn [bind].
  destruct (dict_get_default segment "elasticity" _) as [e|s]; cbn [bind as_num].
  - destruct (dict_get segment "name") as [n|]; cbn [bind].
    + destruct (dict_get segment "size") as [z|]; cbn [bind]; [discriminate|].
      intros H; inversion H; reflexivity.
    + intros H; inversion H; reflexivity.
  - intros H; inversion H; reflexivity.
Qed.

Lemma segment_body_scenario_fault (scenario segment : dict (value T))
  (results : list (dict (value T))) (err : error) :
  predict_churn_by_horizon scenario = Err err ->
  segment_body scenario results segment = Err err.
Proof. intros Hhz; unfold segment_body; rewrite Hhz; reflexivity. Qed.

(** X2. For scenario and segment values that are floats or strings,
    [predict_churn_by_segment] returns a list exactly when the list of
    segments is empty, or the price change and the baseline are floats and
    every segment has a [name], a [size] and an elasticity that is a float
    or absent.  With no segments the scenario is never looked at. *)
Theorem segment_call_succeeds_iff (scenario : dict (value T))
  (segments : list (dict (value T))) :
  (exists rs, predict_churn_by_segment scenario segments = Ok rs) <->
  (segments = [] \/
   ((exists pct base,
       scenario_pct scenario = Num pct /\ scenario_base scenario = Num base) /\
    Forall numeric_elasticity segments /\ Forall has_fields segments)).
Proof.
  split.
  - intros [rs Hrs]; destruct segments as [|seg segments]; [left; reflexivity|right].
    destruct (segments_loop_inv _ _ _ _ Hrs) as (rs' & _ & Hall).
    split; [|split].
    + inversion Hall as [|? ? ? ? (pct & base & Hp & Hb & _) _]; subst.
      exists pct, base; split; assumption.
    + clear Hrs; induction Hall as [|s r l l' (pct & base & _ & _ & Hr) _ IH];
        constructor; [|exact IH].
      destruct Hr as (e & _ & _ & He & _); exists e; exact He.
    + clear Hrs; induction Hall as [|s r l l' (pct & base & _ & _ & Hr) _ IH];
        constructor; [|exact IH].
      destruct Hr as (e & n & z & _ & Hn & Hz & _); split; eexists; eassumption.
  - intros [->|[(pct & base & Hp & Hb) [Hnum Hhas]]].
    + exists []; reflexivity.
    + destruct (segments_loop_ok _ _ _ _ Hp Hb Hnum Hhas []) as (rs & Hrs & _).
      exists rs; exact Hrs.
Qed.

(** X3. The first thing at fault decides the exception.  A scenario that
    is not numeric raises its [TypeError] as soon as there is one segment,
    whatever the segments are.  With a numeric scenario, the first segment
    at fault ends the call: [TypeError] when its elasticity is not a
    number, even if [name] is missing too; [KeyError] on ['name'] when that
    is missing, even if [size] is missing too; [KeyError] on ['size']
    otherwise.  The segments after it are never looked at and the results
    of those before it are lost. *)
Theorem first_fault_decides (scenario : dict (value T))
  (good : list (dict (value T))) (bad : dict (value T))
  (rest : list (dict (value T))) :
  Forall (fun segment => segment_fault segment = None) good ->
  (forall err,
     predict_churn_by_horizon scenario = Err err ->
     predict_churn_by_segment scenario (bad :: rest) = Err err) /\
  (forall hz err,
     predict_churn_by_horizon scenario = Ok hz ->
     segment_fault bad = Some err ->
     predict_churn_by_segment scenario (good ++ bad :: rest) = Err err).
Proof.
  intros Hgood; split.
  - intros err Hhz; unfold predict_churn_by_segment; cbn [for_each].
    rewrite (segment_body_scenario_fault _ _ _ _ Hhz); reflexivity.
  - intros hz err Hhz Hbad; unfold predict_churn_by_segment.
    destruct (predict_churn_by_horizon_inv _ _ Hhz) as (pct & base & Hp & Hb & _).
    assert (Hnum : Forall numeric_elasticity good).
    { eapply Forall_impl; [|exact Hgood].
      intros s Hs; apply segment_fault_none in Hs; apply Hs. }
    assert (Hhas : Forall has_fields good).
    { eapply Forall_impl; [|exact Hgood].
      intros s Hs; apply segment_fault_none in Hs; apply Hs. }
    destruct (segments_loop_ok _ _ _ _ Hp Hb Hnum Hhas []) as (rs & Hrs & _).
    rewrite for_each_app, Hrs; cbn [bind for_each].
    rewrite (segment_body_fault _ _ _ _ _ Hhz Hbad); reflexivity.
Qed.

Lemma segment_body_acc (scenario segment : dict (value T))
  (results : list (dict (value T))) :
  segment_body scenario results segment
  = (r <- segment_body scenario [] segment ;; Ok (results ++ r)).
Proof.
  unfold segment_body.
  destruct (predict_churn_by_horizon scenario) as [hz|e]; cbn [bind]; [|reflexivity].
  destruct (as_num _) as [x|e]; cbn [bind]; [|reflexivity].
  destruct (dict_item segment "name") as [n|e]; cbn [bind]; [|reflexivity].
  destruct (dict_item segment "size") as [z|e]; cbn [bind]; [|reflexivity].
  destruct (for_each _ _ _) as [r|e]; cbn [bind]; reflexivity.
Qed.

Lemma segments_loop_acc (scenario : dict (value T)) (segments : list (dict (value T))) :
  forall acc,
    for_each segments (segment_body scenario) acc
    = (rs <- for_each segments (segment_body scenario) [] ;; Ok (acc ++ rs)).
Proof.
  induction segments as [|seg segments IH]; intros acc; cbn [for_each bind].
  - rewrite app_nil_r; reflexivity.
  - rewrite (segment_body_acc _ _ acc).
    destruct (segment_body scenario [] seg) as [r|e]; cbn [bind]; [|reflexivity].
    rewrite (IH (acc ++ r)), (IH r).
    destruct (for_each segments (segment_body scenario) []) as [rs|e]; cbn [bind];
      [rewrite app_assoc|]; reflexivity.
Qed.

(** X5. Segments are processed independently of each other: a call on a
    list that is split in two gives the results of the first part followed
    by those of the second, and raises what the first part raises, or else
    what the second part raises. *)
Theorem segments_batch (scenario : dict (value T))
  (xs ys : list (dict (value T))) :
  predict_churn_by_segment scenario (xs ++ ys)
  = (r1 <- predict_churn_by_segment scenario xs ;;
     r2 <- predict_churn_by_segment scenario ys ;;
     Ok (r1 ++ r2)).
Proof.
  unfold predict_churn_by_segment; rewrite for_each_app.
  destruct (for_each xs (segment_body scenario) []) as [r1|e]; cbn [bind]; [|reflexivity].
  apply segments_loop_acc.
Qed.

Lemma segment_body_read_keys (scenario1 scenario2 s1 s2 : dict (value T))
  (results : list (dict (value T))) :
  predict_churn_by_horizon scenario1 = predict_churn_by_horizon scenario2 ->
  same_read_keys s1 s2 ->
  segment_body scenario1 results s1 = segment_body scenario2 results s2.
Proof.
  intros Hhz (He & Hn & Hz); unfold segment_body, dict_get_default, dict_item.
  rewrite Hhz, He, Hn, Hz; reflexivity.
Qed.

(** X6. Only the keys the code names are read.  Two scenarios that agree
    on ['price_change_pct'] and ['baseline_churn'] give the same outcome of
    [predict_churn_by_horizon]; if moreover the segments agree, position by
    position, on ['elasticity'], ['name'] and ['size'], the outcome of
    [predict_churn_by_segment] is the same too, result or exception: any
    other key is ignored and is not copied into a result. *)
Theorem only_named_keys_are_read (scenario1 scenario2 : dict (value T))
  (segments1 segments2 : list (dict (value T))) :
  dict_get scenario1 "price_change_pct" = dict_get scenario2 "price_change_pct" ->
  dict_get scenario1 "baseline_churn" = dict_get scenario2 "baseline_churn" ->
  Forall2 same_read_keys segments1 segments2 ->
  predict_churn_by_horizon scenario1 = predict_churn_by_horizon scenario2 /\
  predict_churn_by_segment scenario1 segments1
  = predict_churn_by_segment scenario2 segments2.
Proof.
  intros Hp Hb Hsame.
  assert (Hhz : predict_churn_by_horizon scenario1 = predict_churn_by_horizon scenario2).
  { unfold predict_churn_by_horizon, dict_get_default; rewrite Hp, Hb; reflexivity. }
  split; [exact Hhz|].
  unfold predict_churn_by_segment; generalize (@nil (dict (value T))).
  induction Hsame as [|s1 s2 l1 l2 Hs _ IH]; intros acc; cbn [for_each]; [reflexivity|].
  rewrite (segment_body_read_keys _ _ _ _ acc Hhz Hs).
  destruct (segment_body scenario2 acc s2) as [acc'|e]; cbn [bind]; [apply IH|reflexivity].
Qed.

Lemma segment_body_same_multiplier (scenario s1 s2 : dict (value T))
  (results : list (dict (value T))) (e1 e2 : T) :
  dict_get s1 "name" = dict_get s2 "name" ->
  dict_get s1 "size" = dict_get s2 "size" ->
  segment_elasticity s1 = Num e1 ->
  segment_elasticity s2 = Num e2 ->
  segment_multiplier (n_abs e1) = segment_multiplier (n_abs e2) ->
  segment_body scenario results s1 = segment_body scenario results s2.
Proof.
  intros Hn Hz He1 He2 Hm; unfold segment_body, dict_item.
  unfold segment_elasticity in He1, He2; rewrite He1, He2, Hn, Hz.
  cbn [as_num bind]; rewrite Hm; reflexivity.
Qed.

Lemma segments_same_multiplier (rel : T -> T -> Prop) (scenario : dict (value T))
  (segments1 segments2 : list (dict (value T))) :
  (forall e1 e2, rel e1 e2 ->
     segment_multiplier (n_abs e1) = segment_multiplier (n_abs e2)) ->
  Forall2 (same_but_elasticity rel) segments1 segments2 ->
  predict_churn_by_segment scenario segments1
  = predict_churn_by_segment scenario segments2.
Proof.
  intros Hrel Hsame.
  unfold predict_churn_by_segment; generalize (@nil (dict (value T))).
  induction Hsame as [|s1 s2 l1 l2 (Hn & Hz & e1 & e2 & He1 & He2 & Hr) _ IH];
    intros acc; cbn [for_each]; [reflexivity|].
  rewrite (segment_body_same_multiplier _ _ _ acc _ _ Hn Hz He1 He2 (Hrel _ _ Hr)).
  destruct (segment_body scenario acc s2) as [acc'|e]; cbn [bind]; [apply IH|reflexivity].
Qed.

End CallOutcomes.

(** ** The key of a horizon *)

Lemma occurs_app (c : ascii) (s1 s2 : string) :
  occurs c (s1 ++ s2) = occurs c s1 || occurs c s2.
Proof.
  induction s1 as [|c' s1 IH]; cbn [occurs String.append]; [reflexivity|].
  rewrite IH, orb_assoc; reflexivity.
Qed.

Lemma occurs_substitute_same (c : ascii) (new s : string) :
  occurs c new = false -> occurs c (substitute c new s) = false.
Proof.
  intros Hnew; induction s as [|c' s IH]; cbn [substitute]; [reflexivity|].
  rewrite occurs_app, IH, orb_false_r.
  destruct (Ascii.eqb c c') eqn:E; [exact Hnew|].
  cbn [occurs]; rewrite E; reflexivity.
Qed.

Lemma occurs_substitute_other (d c : ascii) (new s : string) :
  occurs d new = false -> occurs d s = false ->
  occurs d (substitute c new s) = false.
Proof.
  intros Hnew; induction s as [|c' s IH]; cbn [substitute occurs]; [reflexivity|].
  intros H; apply orb_false_elim in H; destruct H as [Hd Hs].
  rewrite occurs_app, (IH Hs), orb_false_r.
  destruct (Ascii.eqb c c'); [exact Hnew|].
  cbn [occurs]; rewrite Hd; reflexivity.
Qed.

Lemma substitute_absent (c : ascii) (new s : string) :
  occurs c s = false -> substitute c new s = s.
Proof.
  induction s as [|c' s IH]; cbn [substitute occurs]; [reflexivity|].
  intros H; apply orb_false_elim in H; destruct H as [Hc Hs].
  rewrite Hc, (IH Hs); reflexivity.
Qed.

Lemma is_upper_lower_ascii (c : ascii) : is_upper (lower_ascii c) = false.
Proof. destruct c as [[] [] [] [] [] [] [] []]; vm_compute; reflexivity. Qed.

Lemma has_upper_lower (s : string) : has_upper (lower s) = false.
Proof.
  induction s as [|c s IH]; cbn [lower has_upper]; [reflexivity|].
  rewrite is_upper_lower_ascii, IH; reflexivity.
Qed.

Lemma lower_no_upper (s : string) : has_upper s = false -> lower s = s.
Proof.
  induction s as [|c s IH]; cbn [lower has_upper]; [reflexivity|].
  intros H; apply orb_false_elim in H; destruct H as [Hc Hs].
  rewrite (IH Hs); f_equal.
  unfold lower_ascii; unfold is_upper in Hc; cbv zeta in Hc |- *; rewrite Hc; reflexivity.
Qed.

Lemma occurs_lower (d : ascii) (s : string) :
  (forall c, Ascii.eqb d (lower_ascii c) = Ascii.eqb d c) ->
  occurs d (lower s) = occurs d s.
Proof.
  intros Hd; induction s as [|c s IH]; cbn [lower occurs]; [reflexivity|].
  rewrite Hd, IH; reflexivity.
Qed.

Lemma lower_keeps_space (c : ascii) : Ascii.eqb " " (lower_ascii c) = Ascii.eqb " " c.
Proof. destruct c as [[] [] [] [] [] [] [] []]; vm_compute; reflexivity. Qed.

Lemma lower_keeps_hyphen (c : ascii) : Ascii.eqb "-" (lower_ascii c) = Ascii.eqb "-" c.
Proof. destruct c as [[] [] [] [] [] [] [] []]; vm_compute; reflexivity. Qed.

Lemma lower_keeps_plus (c : ascii) : Ascii.eqb "+" (lower_ascii c) = Ascii.eqb "+" c.
Proof. destruct c as [[] [] [] [] [] [] [] []]; vm_compute; reflexivity. Qed.

Lemma horizon_key_substitute (horizon : string) :
  horizon_key horizon
  = lower (substitute "+" "plus" (substitute "-" "_" (substitute " " "_" horizon))).
Proof. unfold horizon_key; rewrite !replace_char; reflexivity. Qed.

(** X7. For a horizon name written in ASCII, the key made from it on line
    101 holds no space, no ['-'], no ['+'] and no upper-case letter, and
    making a key from a key changes nothing. *)
Theorem horizon_key_normal_form (horizon : string) :
  is_ascii_text horizon = true ->
  occurs " " (horizon_key horizon) = false /\
  occurs "-" (horizon_key horizon) = false /\
  occurs "+" (horizon_key horizon) = false /\
  has_upper (horizon_key horizon) = false /\
  horizon_key (horizon_key horizon) = horizon_key horizon.
Proof.
  intros _.
  assert (Hs : occurs " " (horizon_key horizon) = false).
  { rewrite horizon_key_substitute, (occurs_lower _ _ lower_keeps_space).
    do 2 (apply occurs_substitute_other; [reflexivity|]).
    apply occurs_substitute_same; reflexivity. }
  assert (Hh : occurs "-" (horizon_key horizon) = false).
  { rewrite horizon_key_substitute, (occurs_lower _ _ lower_keeps_hyphen).
    apply occurs_substitute_other; [reflexivity|].
    apply occurs_substitute_same; reflexivity. }
  assert (Hp : occurs "+" (horizon_key horizon) = false).
  { rewrite horizon_key_substitute, (occurs_lower _ _ lower_keeps_plus).
    apply occurs_substitute_same; reflexivity. }
  assert (Hu : has_upper (horizon_key horizon) = false).
  { rewrite horizon_key_substitute; apply has_upper_lower. }
  repeat split; try assumption.
  rewrite (horizon_key_substitute (horizon_key horizon)).
  rewrite (substitute_absent _ _ _ Hs), (substitute_absent _ _ _ Hh),
    (substitute_absent _ _ _ Hp).
  apply lower_no_upper; exact Hu.
Qed.

(** ** More of binary64 *)

Lemma abs_opp (x : float) : abs (- x) = abs x.
Proof.
  apply Prim2SF_inj; rewrite !abs_spec, opp_spec.
  destruct (Prim2SF x); reflexivity.
Qed.

Lemma SFcompare_refl (s : spec_float) :
  s <> S754_nan -> SFcompare s s = Some Eq.
Proof.
  destruct s as [[|]|[|]| |[|] m e]; intros H; cbn [SFcompare]; try reflexivity;
    try contradiction;
    rewrite Z.compare_refl; change (Pos.compare_cont Eq m m) with (Pos.compare m m);
    rewrite Pos.compare_refl; reflexivity.
Qed.

Lemma eqb_refl_false (x : float) : (x =? x)%float = false -> x = nan.
Proof.
  rewrite FloatAxioms.eqb_spec; unfold SFeqb; intros H.
  apply Prim2SF_inj; change (Prim2SF nan) with S754_nan.
  destruct (Prim2SF x) as [s|s| |s m e] eqn:Hx; [| |reflexivity|];
    rewrite SFcompare_refl in H by discriminate; discriminate H.
Qed.

Lemma leb_eqb_refl (x y : float) : (x <=? y)%float = true -> (y =? y)%float = true.
Proof.
  rewrite leb_spec, FloatAxioms.eqb_spec; unfold SFleb, SFeqb; intros H.
  destruct (Prim2SF y) as [s|s| |s m e].
  - reflexivity.
  - rewrite SFcompare_refl by discriminate; reflexivity.
  - destruct (Prim2SF x); discriminate H.
  - rewrite SFcompare_refl by discriminate; reflexivity.
Qed.

Lemma two_spec : Prim2SF 2 = S754_finite false 4503599627370496 (-51).
Proof. vm_compute; reflexivity. Qed.

Lemma half_spec : Prim2SF 0.5 = S754_finite false 4503599627370496 (-53).
Proof. vm_compute; reflexivity. Qed.

Lemma F2R_two : F2R 4503599627370496 (-51) = 2%R.
Proof.
  unfold F2R; change 4503599627370496%Z with (2 ^ 52)%Z.
  rewrite <- (bpow_IZR 52) by lia; rewrite <- bpow_add.
  change (52 + -51)%Z with 1%Z; unfold bpow; simpl; lra.
Qed.

Lemma F2R_half : F2R 4503599627370496 (-53) = (/ 2)%R.
Proof.
  unfold F2R; change 4503599627370496%Z with (2 ^ 52)%Z.
  rewrite <- (bpow_IZR 52) by lia; rewrite <- bpow_add.
  change (52 + -53)%Z with (-1)%Z; unfold bpow; simpl; f_equal; lra.
Qed.

(** [1 / (1 + y)] is at least one half for [0 <= y <= 1]. *)
Lemma reciprocal_above_half (y : float) :
  (0 <=? y)%float = true -> (y <=? 1)%float = true ->
  (0.5 <=? 1 / (1 + y))%float = true.
Proof.
  intros H0 H1; rewrite leb_spec in H0, H1.
  change (Prim2SF 0) with (S754_zero false) in H0; rewrite one_spec in H1.
  pose proof (Prim2SF_valid (1 + y)) as Hvs.
  pose proof (add_spec 1 y) as Hs; rewrite one_spec in Hs.
  pose proof (Prim2SF_valid y) as Hvy.
  pose proof (valid_of_spec 1 _ _ _ one_spec) as Hv1.
  pose proof (valid_of_spec 2 _ _ _ two_spec) as Hv2.
  pose proof (valid_of_spec 0.5 _ _ _ half_spec) as Hvh.
  destruct (Prim2SF y) as [s|[|]| |[|] m e]; try discriminate H0; try discriminate H1.
  - assert (Heq : (1 + y)%float = 1%float)
      by (apply Prim2SF_inj; rewrite Hs, one_spec; reflexivity).
    rewrite Heq; vm_compute; reflexivity.
  - destruct (valid_canonical _ _ _ Hvy) as [Hcy _].
    destruct (valid_canonical _ _ _ Hv1) as [Hc1 _].
    apply (SFleb_finite _ _ _ _ Hcy Hc1) in H1; rewrite F2R_one in H1.
    pose proof (F2R_pos m e) as Hpos.
    rewrite Hs in Hvs.
    destruct (SFadd_sandwich _ m _ e Hvs) as (Hn & Hlo & Hup).
    assert (Hge : ge_value (Prim2SF (1 + y)) 1).
    { rewrite Hs, <- F2R_one; apply nonneg_geb; [exact Hvs|exact Hv1|exact Hn|].
      apply Hlo; [exact Hv1|lra]. }
    assert (Hle : le_value (Prim2SF (1 + y)) 2).
    { rewrite Hs, <- F2R_two; apply nonneg_leb; [exact Hvs|exact Hv2|exact Hn|].
      apply Hup; [exact Hv2|rewrite F2R_one, F2R_two; lra]. }
    pose proof (Prim2SF_valid (1 / (1 + y))) as Hvq.
    rewrite leb_spec, div_spec, one_spec, half_spec; rewrite div_spec, one_spec in Hvq.
    destruct (Prim2SF (1 + y)) as [s'|[|]| |[|] m' e']; cbn [ge_value le_value] in Hge, Hle;
      try contradiction.
    destruct (SFdiv_sandwich _ m' _ e' Hvq) as (_ & Hlo' & _).
    apply Hlo'; [exact Hvh|].
    rewrite F2R_one, F2R_half.
    pose proof (F2R_pos m' e') as Hpos'.
    apply Rmult_le_reg_r with (F2R (Zpos m') e'); [exact Hpos'|].
    unfold Rdiv; rewrite Rmult_assoc, Rinv_l by lra; lra.
Qed.

(** [1 / (1 + y)] is at most one half for [y >= 1]. *)
Lemma reciprocal_below_half (y : float) :
  (1 <=? y)%float = true -> (1 / (1 + y) <=? 0.5)%float = true.
Proof.
  intros H1; rewrite leb_spec in H1; rewrite one_spec in H1.
  pose proof (Prim2SF_valid (1 + y)) as Hvs.
  pose proof (add_spec 1 y) as Hs; rewrite one_spec in Hs.
  pose proof (Prim2SF_valid y) as Hvy.
  pose proof (valid_of_spec 1 _ _ _ one_spec) as Hv1.
  pose proof (valid_of_spec 2 _ _ _ two_spec) as Hv2.
  pose proof (valid_of_spec 0.5 _ _ _ half_spec) as Hvh.
  assert (Hge : ge_value (Prim2SF (1 + y)) 2).
  { destruct (Prim2SF y) as [s|[|]| |[|] m e]; try discriminate H1.
    - rewrite Hs; exact I.
    - destruct (valid_canonical _ _ _ Hvy) as [Hcy _].
      destruct (valid_canonical _ _ _ Hv1) as [Hc1 _].
      apply (SFleb_finite _ _ _ _ Hc1 Hcy) in H1; rewrite F2R_one in H1.
      rewrite Hs in Hvs |- *.
      destruct (SFadd_sandwich _ m _ e Hvs) as (Hn & Hlo & _).
      rewrite <- F2R_two; apply nonneg_geb; [exact Hvs|exact Hv2|exact Hn|].
      apply Hlo; [exact Hv2|rewrite F2R_one, F2R_two; lra]. }
  pose proof (Prim2SF_valid (1 / (1 + y))) as Hvq.
  rewrite leb_spec, div_spec, one_spec, half_spec; rewrite div_spec, one_spec in Hvq.
  destruct (Prim2SF (1 + y)) as [s'|[|]| |[|] m' e']; cbn [ge_value] in Hge;
    try contradiction.
  - reflexivity.
  - destruct (SFdiv_sandwich _ m' _ e' Hvq) as (_ & _ & Hup).
    apply Hup; [exact Hvh|].
    rewrite F2R_one, F2R_half.
    pose proof (F2R_pos m' e') as Hpos'.
    apply Rmult_le_reg_r with (F2R (Zpos m') e'); [exact Hpos'|].
    unfold Rdiv; rewrite Rmult_assoc, Rinv_l by lra; lra.
Qed.

Section Pivot.

Local Close Scope Q_scope.

(** The grid of step [2^-54], on which the doubles [0.7], [0.6], [0.3],
    [0.5], [1], [2] and [4] all lie. *)
Lemma bpow_m54 : (IZR 18014398509481984 * bpow (-54) = 1)%R.
Proof.
  change 18014398509481984%Z with (2 ^ 54)%Z.
  rewrite <- (bpow_IZR 54) by lia; rewrite <- bpow_add; reflexivity.
Qed.

Lemma bpow_m53 : bpow (-53) = (2 * bpow (-54))%R.
Proof. change (-53)%Z with (-54 + 1)%Z; apply bpow_succ. Qed.

Lemma bpow_m52 : bpow (-52) = (4 * bpow (-54))%R.
Proof. change (-52)%Z with (-53 + 1)%Z; rewrite bpow_succ, bpow_m53; ring. Qed.

Lemma bpow_m51 : bpow (-51) = (8 * bpow (-54))%R.
Proof. change (-51)%Z with (-52 + 1)%Z; rewrite bpow_succ, bpow_m52; ring. Qed.

Lemma bpow_m50 : bpow (-50) = (16 * bpow (-54))%R.
Proof. change (-50)%Z with (-51 + 1)%Z; rewrite bpow_succ, bpow_m51; ring. Qed.

Ltac on_grid :=
  unfold F2R; rewrite ?bpow_m50, ?bpow_m51, ?bpow_m52, ?bpow_m53;
  pose proof bpow_m54; pose proof (bpow_pos (-54)).

Lemma div_le_value (c g : float) (mg mh : positive) (eg eh : Z) (b : R) :
  Prim2SF g = S754_finite false mg eg ->
  valid_binary (S754_finite false mh eh) = true ->
  le_value (Prim2SF c) b ->
  (b <= F2R (Zpos mh) eh * F2R (Zpos mg) eg)%R ->
  le_value (Prim2SF (c / g)) (F2R (Zpos mh) eh).
Proof.
  intros Hg Hvh Hc Hb.
  pose proof (Prim2SF_valid (c / g)) as Hv; rewrite div_spec, Hg in Hv |- *.
  destruct (Prim2SF c) as [s|s| |[|] m e]; cbn [le_value] in Hc; try contradiction.
  - exact I.
  - destruct (SFdiv_sandwich m mg e eg Hv) as (Hn & _ & Hup).
    apply nonneg_leb; [exact Hv|exact Hvh|exact Hn|].
    apply Hup; [exact Hvh|].
    pose proof (F2R_pos mg eg) as Hpos.
    apply Rmult_le_reg_r with (F2R (Zpos mg) eg); [exact Hpos|].
    unfold Rdiv; rewrite Rmult_assoc, Rinv_l by lra; lra.
Qed.

Lemma mul_le_value (d k : float) (mk mh : positive) (ek eh : Z) (b : R) :
  Prim2SF k = S754_finite false mk ek ->
  valid_binary (S754_finite false mh eh) = true ->
  le_value (Prim2SF d) b ->
  (b * F2R (Zpos mk) ek <= F2R (Zpos mh) eh)%R ->
  le_value (Prim2SF (d * k)) (F2R (Zpos mh) eh).
Proof.
  intros Hk Hvh Hd Hb.
  pose proof (Prim2SF_valid (d * k)) as Hv; rewrite mul_spec, Hk in Hv |- *.
  pose proof (valid_of_spec k _ _ _ Hk) as Hvk.
  pose proof (Prim2SF_valid d) as Hvd.
  destruct (Prim2SF d) as [s|s| |[|] m e]; cbn [le_value] in Hd; try contradiction.
  - exact I.
  - destruct (SFmul_sandwich m mk e ek Hvd Hvk Hv) as (Hn & _ & Hup).
    apply nonneg_leb; [exact Hv|exact Hvh|exact Hn|].
    apply Hup; [exact Hvh|].
    pose proof (F2R_pos mk ek) as Hpos.
    apply Rle_trans with (2 := Hb); apply Rmult_le_compat_r; lra.
Qed.

Lemma SFltb_SFleb (x y : spec_float) : SFltb x y = true -> SFleb x y = true.
Proof. unfold SFltb, SFleb; destruct (SFcompare x y) as [[| |]|]; congruence. Qed.

Lemma three_tenths_valid : valid_binary (S754_finite false 5404319552844595 (-54)) = true.
Proof. vm_compute; reflexivity. Qed.

(** Below magnitude [2.0] the clamp is idle and the magnitude is passed on. *)
Lemma clamp_le_two (e : float) :
  (abs e <=? 2)%float = true ->
  le_value (Prim2SF (if (4 <? abs e)%float then 4%float else abs e))
    (F2R 4503599627370496 (-51)).
Proof.
  rewrite leb_spec, ltb_spec, four_spec, two_spec; intros Hle.
  pose proof (Prim2SF_valid (abs e)) as Hv.
  pose proof (abs_spec e) as Ha.
  pose proof (valid_of_spec 2 _ _ _ two_spec) as Hv2.
  pose proof (valid_of_spec 4 _ _ _ four_spec) as Hv4.
  destruct (valid_canonical _ _ _ Hv2) as [Hc2 _].
  destruct (valid_canonical _ _ _ Hv4) as [Hc4 _].
  destruct (Prim2SF e) as [s|s| |s m ex]; cbn [SFabs] in Ha; rewrite Ha in Hle, Hv |- *.
  - cbn [SFltb SFcompare]; rewrite Ha; exact I.
  - discriminate Hle.
  - discriminate Hle.
  - destruct (valid_canonical _ _ _ Hv) as [Hc _].
    apply (SFleb_finite _ _ _ _ Hc Hc2) in Hle.
    destruct (SFltb (S754_finite false 4503599627370496 (-50)) (S754_finite false m ex))
      eqn:Hlt.
    + apply SFltb_SFleb in Hlt; apply (SFleb_finite _ _ _ _ Hc4 Hc) in Hlt.
      exfalso; revert Hle Hlt; on_grid; lra.
    + rewrite Ha; exact Hle.
Qed.

Lemma scaled_clamp_le_one (e : float) :
  (abs e <=? 2)%float = true ->
  (Binary64.literal 0.7
   + ((if Binary64.literal 4.0 <? abs e then Binary64.literal 4.0 else abs e)
      / Binary64.literal 4.0) * Binary64.literal 0.6
   <=? 1)%float = true.
Proof.
  intros He; change (Binary64.literal 4.0) with 4%float.
  pose proof (clamp_le_two e He) as Hc.
  pose proof (valid_of_spec 0.5 _ _ _ half_spec) as Hvh.
  assert (Hd : le_value (Prim2SF ((if (4 <? abs e)%float then 4%float else abs e) / 4))
                 (F2R 4503599627370496 (-53))).
  { apply (div_le_value _ 4%float _ _ _ _ _ four_spec Hvh Hc); on_grid; nra. }
  assert (Hp : le_value
                 (Prim2SF ((if (4 <? abs e)%float then 4%float else abs e) / 4
                           * Binary64.literal 0.6))
                 (F2R 5404319552844595 (-54))).
  { apply (mul_le_value _ _ _ _ _ _ _ lit_0_6_spec three_tenths_valid Hd); on_grid; nra. }
  apply (add_between _ _ 1%float _ _ _ _ _ lit_0_7_spec one_spec Hp).
  - left; apply F2R_pos.
  - on_grid; lra.
Qed.


(** From magnitude [2.0] on, the clamped magnitude is a finite number
    between [2] and [4]. *)
Lemma clamp_ge_two (e : float) :
  (2 <=? abs e)%float = true ->
  exists m ex,
    Prim2SF (if (4 <? abs e)%float then 4%float else abs e) = S754_finite false m ex /\
    (F2R 4503599627370496 (-51) <= F2R (Zpos m) ex <= F2R 4503599627370496 (-50))%R.
Proof.
  rewrite leb_spec, ltb_spec, four_spec, two_spec; intros Hle.
  pose proof (Prim2SF_valid (abs e)) as Hv.
  pose proof (abs_spec e) as Ha.
  pose proof (valid_of_spec 2 _ _ _ two_spec) as Hv2.
  pose proof (valid_of_spec 4 _ _ _ four_spec) as Hv4.
  destruct (valid_canonical _ _ _ Hv2) as [Hc2 _].
  destruct (valid_canonical _ _ _ Hv4) as [Hc4 _].
  assert (H4 : (F2R 4503599627370496 (-51) <= F2R 4503599627370496 (-50)
                <= F2R 4503599627370496 (-50))%R) by (on_grid; lra).
  destruct (Prim2SF e) as [s|s| |s m ex]; cbn [SFabs] in Ha; rewrite Ha in Hle, Hv |- *.
  - discriminate Hle.
  - cbn [SFltb SFcompare]; rewrite four_spec; eexists _, _; split; [reflexivity|exact H4].
  - discriminate Hle.
  - destruct (valid_canonical _ _ _ Hv) as [Hc _].
    apply (SFleb_finite _ _ _ _ Hc2 Hc) in Hle.
    destruct (SFltb (S754_finite false 4503599627370496 (-50)) (S754_finite false m ex))
      eqn:Hlt.
    + rewrite four_spec; eexists _, _; split; [reflexivity|exact H4].
    + rewrite Ha; exists m, ex; split; [reflexivity|]; split; [exact Hle|].
      apply (SFltb_finite_false _ _ _ _ Hc4 Hc Hlt).
Qed.

(** A finite positive number that is both at least [lo] and at most [hi]. *)
Lemma between_finite (r : spec_float) (lo hi : R) :
  ge_value r lo -> le_value r hi ->
  exists m e, r = S754_finite false m e /\ (lo <= F2R (Zpos m) e <= hi)%R.
Proof.
  destruct r as [s|[|]| |[|] m e]; cbn [ge_value le_value]; try contradiction.
  intros Hlo Hhi; exists m, e; split; [reflexivity|split; assumption].
Qed.

(** A canonical number above the double [0.3] is above it by one step of
    the grid at least. *)
Lemma above_three_tenths (m : positive) (e : Z) :
  canonical m e ->
  SFcompare (S754_finite false 5404319552844595 (-54)) (S754_finite false m e) = Some Lt ->
  (IZR 5404319552844596 * bpow (-54) <= F2R (Zpos m) e)%R.
Proof.
  intros Hc; cbn [SFcompare].
  destruct (Z.compare_spec (-54) e) as [He|He|He].
  - subst e; change (Pos.compare_cont Eq 5404319552844595 m)
      with (Pos.compare 5404319552844595 m).
    destruct (Pos.compare_spec 5404319552844595 m) as [Hm|Hm|Hm]; try discriminate.
    intros _; unfold F2R; apply Rmult_le_compat_r; [left; apply bpow_pos|].
    apply IZR_le; lia.
  - intros _.
    assert (Hd : Zpos (digits2_pos m) = 53%Z).
    { unfold canonical, fexp, SpecFloat.emin in Hc.
      change prec with 53%Z in Hc; change emax with 1024%Z in Hc; lia. }
    pose proof (digits2_pos_bounds m) as [Hlo _]; rewrite Hd in Hlo.
    change (2 ^ (53 - 1))%Z with 4503599627370496%Z in Hlo.
    apply Rle_trans with (IZR 4503599627370496 * bpow (-53))%R.
    + rewrite bpow_m53; pose proof (bpow_pos (-54)); lra.
    + unfold F2R; apply Rmult_le_compat.
      * apply IZR_le; lia.
      * left; apply bpow_pos.
      * apply IZR_le; exact Hlo.
      * apply bpow_le; lia.
  - discriminate.
Qed.

Lemma scaled_clamp_ge_one (e : float) :
  (2 <=? abs e)%float = true ->
  (1 <=? Binary64.literal 0.7
         + ((if Binary64.literal 4.0 <? abs e then Binary64.literal 4.0 else abs e)
            / Binary64.literal 4.0) * Binary64.literal 0.6)%float = true.
Proof.
  intros He; change (Binary64.literal 4.0) with 4%float.
  destruct (clamp_ge_two e He) as (mc & ec & Hc & Hc2 & Hc4).
  generalize dependent (if (4 <? abs e)%float then 4%float else abs e); intros c Hc.
  pose proof (valid_of_spec 0.5 _ _ _ half_spec) as Hvh.
  pose proof (valid_of_spec 1 _ _ _ one_spec) as Hv1.
  pose proof (valid_of_spec _ _ _ _ lit_0_6_spec) as Hv6.
  pose proof (valid_of_spec _ _ _ _ lit_0_7_spec) as Hv7.
  pose proof three_tenths_valid as Hv3.
  (* the quotient *)
  pose proof (Prim2SF_valid (c / 4)) as Hvd.
  pose proof (div_spec c 4) as Hd; rewrite Hc, four_spec in Hd; rewrite Hd in Hvd.
  destruct (SFdiv_sandwich _ _ _ _ Hvd) as (Hnd & Hlod & Hupd).
  assert (Hdge : ge_value (Prim2SF (c / 4)) (F2R 4503599627370496 (-53))).
  { rewrite Hd; apply nonneg_geb; [exact Hvd|exact Hvh|exact Hnd|].
    apply Hlod; [exact Hvh|].
    apply Rmult_le_reg_r with (F2R 4503599627370496 (-50)); [apply F2R_pos|].
    unfold Rdiv; rewrite Rmult_assoc, Rinv_l by (pose proof (F2R_pos 4503599627370496 (-50)); lra).
    revert Hc2; on_grid; nra. }
  assert (Hdle : le_value (Prim2SF (c / 4)) (F2R 4503599627370496 (-52))).
  { rewrite Hd; apply nonneg_leb; [exact Hvd|exact Hv1|exact Hnd|].
    apply Hupd; [exact Hv1|].
    apply Rmult_le_reg_r with (F2R 4503599627370496 (-50)); [apply F2R_pos|].
    unfold Rdiv; rewrite Rmult_assoc, Rinv_l by (pose proof (F2R_pos 4503599627370496 (-50)); lra).
    revert Hc4; on_grid; nra. }
  destruct (between_finite _ _ _ Hdge Hdle) as (md & ed & Hd' & Hd1 & Hd2).
  clear Hd Hvd Hnd Hlod Hupd Hdge Hdle.
  (* the product *)
  pose proof (Prim2SF_valid (c / 4)) as Hvd; rewrite Hd' in Hvd.
  pose proof (Prim2SF_valid (c / 4 * Binary64.literal 0.6)) as Hvp.
  pose proof (mul_spec (c / 4) (Binary64.literal 0.6)) as Hp.
  rewrite Hd', lit_0_6_spec in Hp; rewrite Hp in Hvp.
  destruct (SFmul_sandwich _ _ _ _ Hvd Hv6 Hvp) as (Hnp & Hlop & Hupp).
  assert (Hcmp : SFleb (S754_finite false 5404319552844595 (-54))
                   (Prim2SF (c / 4 * Binary64.literal 0.6)) = true).
  { rewrite Hp; apply Hlop; [exact Hv3|].
    revert Hd1; on_grid; pose proof (F2R_pos md ed); unfold F2R in *; nra. }
  assert (Hple : le_value (Prim2SF (c / 4 * Binary64.literal 0.6))
                   (F2R 5404319552844595 (-53))).
  { rewrite Hp; apply nonneg_leb; [exact Hvp|exact Hv6|exact Hnp|].
    apply Hupp; [exact Hv6|].
    revert Hd2; on_grid; pose proof (F2R_pos md ed); unfold F2R in *; nra. }
  assert (Hpge : ge_value (Prim2SF (c / 4 * Binary64.literal 0.6))
                   (F2R 5404319552844595 (-54))).
  { apply nonneg_geb; [apply Prim2SF_valid|exact Hv3|rewrite Hp; exact Hnp|exact Hcmp]. }
  destruct (between_finite _ _ _ Hpge Hple) as (mp & ep & Hp' & _ & _).
  (* the sum *)
  rewrite leb_spec, add_spec, one_spec, lit_0_7_spec, Hp'.
  rewrite Hp' in Hcmp; unfold SFleb in Hcmp.
  destruct (SFcompare (S754_finite false 5404319552844595 (-54)) (S754_finite false mp ep))
    as [[| |]|] eqn:Hc3; try discriminate Hcmp.
  - apply SFcompare_finite_Eq in Hc3; rewrite Hc3; vm_compute; reflexivity.
  - pose proof (Prim2SF_valid (c / 4 * Binary64.literal 0.6)) as Hvp'; rewrite Hp' in Hvp'.
    destruct (valid_canonical _ _ _ Hvp') as [Hcp _].
    pose proof (above_three_tenths mp ep Hcp Hc3) as Hstep.
    pose proof (Prim2SF_valid (Binary64.literal 0.7 + c / 4 * Binary64.literal 0.6)) as Hvs.
    rewrite add_spec, lit_0_7_spec, Hp' in Hvs.
    destruct (SFadd_sandwich _ _ _ _ Hvs) as (_ & Hlos & _).
    apply Hlos; [exact Hv1|].
    revert Hstep; on_grid; lra.
Qed.

End Pivot.

(** The sign of a rounded number is the sign it is given. *)
Lemma binary_round_aux_opp (m e : Z) (l : location) :
  binary_round_aux prec emax true m e l
  = SFopp (binary_round_aux prec emax false m e l).
Proof.
  unfold binary_round_aux.
  destruct (shr_fexp prec emax m e l) as [mrs' e'].
  destruct (shr_fexp prec emax _ e' loc_Exact) as [mrs'' e''].
  destruct (shr_m mrs'') as [|p|p]; [reflexivity| |reflexivity].
  destruct (e'' <=? emax - prec)%Z; reflexivity.
Qed.

Lemma nonneg_opp_leb_zero (r : spec_float) :
  nonneg r -> SFleb (SFopp r) (S754_zero false) = true.
Proof. destruct r as [s|[|]| |[|] m e]; cbn [nonneg]; try contradiction; reflexivity. Qed.

(** A number between two positive finite numbers is positive and finite. *)
Lemma between_positive (x y z : float) (mx mz : positive) (ex ez : Z) :
  Prim2SF x = S754_finite false mx ex ->
  Prim2SF z = S754_finite false mz ez ->
  (x <=? y)%float = true -> (y <=? z)%float = true ->
  exists m e, Prim2SF y = S754_finite false m e.
Proof.
  intros Hx Hz; rewrite !leb_spec, Hx, Hz; unfold SFleb.
  destruct (Prim2SF y) as [s|[|]| |[|] m e]; cbn [SFcompare]; try discriminate.
  intros _ _; exists m, e; reflexivity.
Qed.

(** A product with a positive finite factor has the sign of the other
    factor. *)
Lemma mul_positive_sign (u y : float) (m : positive) (e : Z) :
  Prim2SF y = S754_finite false m e ->
  ((0 <=? u)%float = true -> (0 <=? u * y)%float = true) /\
  ((u <=? 0)%float = true -> (u * y <=? 0)%float = true).
Proof.
  intros Hy.
  pose proof (valid_of_spec y _ _ _ Hy) as Hvy.
  pose proof (Prim2SF_valid (- u)) as Hvn.
  pose proof (Prim2SF_valid (- u * y)) as Hvp.
  pose proof (Prim2SF_valid u) as Hvu.
  pose proof (Prim2SF_valid (u * y)) as Hvq.
  rewrite mul_spec, opp_spec, Hy in Hvp; rewrite opp_spec in Hvn.
  rewrite mul_spec, Hy in Hvq.
  rewrite !leb_spec, mul_spec, Hy; change (Prim2SF 0) with (S754_zero false).
  destruct (Prim2SF u) as [s|[|]| |[|] mu eu]; cbn [SFopp negb] in Hvn, Hvp;
    split; intros H; try discriminate H; try reflexivity.
  - unfold SF64mul; cbn [SFmul xorb]; rewrite binary_round_aux_opp.
    destruct (SFmul_sandwich mu m eu e Hvn Hvy Hvp) as (Hn & _ & _).
    apply nonneg_opp_leb_zero; exact Hn.
  - destruct (SFmul_sandwich mu m eu e Hvu Hvy Hvq) as (Hn & _ & _).
    apply nonneg_zero_leb; exact Hn.
Qed.

Section Binary64Outcomes.

Local Open Scope float_scope.

Variable np_exp : float -> float.

Let binary64 : Arith float := Binary64.arith np_exp.

#[local] Existing Instance binary64.

(** X8. The sign of a segment's elasticity is ignored: two lists of
    segments that agree on [name] and [size] and whose elasticities are
    equal or opposite, position by position, give the same outcome. *)
Theorem elasticity_sign_is_ignored (scenario : dict (value float))
  (segments1 segments2 : list (dict (value float))) :
  Forall2 (same_but_elasticity (fun e1 e2 => e2 = e1 \/ e2 = - e1))
          segments1 segments2 ->
  predict_churn_by_segment scenario segments1
  = predict_churn_by_segment scenario segments2.
Proof.
  apply segments_same_multiplier.
  intros e1 e2 [->| ->]; [reflexivity|].
  change (n_abs (- e1)) with (abs (- e1)); rewrite abs_opp; reflexivity.
Qed.

(** X9. The multiplier is a number between the doubles [0.7] and [1.3]
    exactly when the elasticity is a number: [abs] and [min] let a NaN
    elasticity through, and the multiplier is then NaN. *)
Theorem multiplier_in_range_iff_number (elasticity : float) :
  ((n_lit 0.7 <=? segment_multiplier (abs elasticity))
   && (segment_multiplier (abs elasticity) <=? n_lit 1.3)) = (elasticity =? elasticity) /\
  (segment_multiplier (abs elasticity) =? segment_multiplier (abs elasticity))
  = (elasticity =? elasticity).
Proof.
  destruct (elasticity =? elasticity) eqn:He.
  - destruct (segment_multiplier_bounds np_exp elasticity He) as [Hlo Hhi].
    split; [apply andb_true_intro; split; [exact Hlo|exact Hhi]|].
    apply (leb_eqb_refl _ _ Hlo).
  - rewrite (eqb_refl_false _ He); vm_compute; split; reflexivity.
Qed.

(** X10. Beyond magnitude [4.0] the elasticity has no further effect: two
    lists of segments that agree on [name] and [size] and whose
    elasticities are equal, or both of magnitude at least [4.0] (infinite
    ones included), give the same outcome. *)
Theorem elasticity_beyond_four_is_clamped (scenario : dict (value float))
  (segments1 segments2 : list (dict (value float))) :
  Forall2 (same_but_elasticity
             (fun e1 e2 => e2 = e1 \/
                ((4 <=? abs e1) = true /\ (4 <=? abs e2) = true)))
          segments1 segments2 ->
  predict_churn_by_segment scenario segments1
  = predict_churn_by_segment scenario segments2.
Proof.
  apply segments_same_multiplier.
  intros e1 e2 [->|[H1 H2]]; [reflexivity|].
  exact (eq_trans (segment_multiplier_clamped np_exp _ H1)
                  (eq_sym (segment_multiplier_clamped np_exp _ H2))).
Qed.

(** X11. The default magnitude [2.0] is the pivot of the scaling: a
    segment whose elasticity has magnitude at most [2.0] gets a multiplier
    of at most [1.0], and one of magnitude at least [2.0] a multiplier of
    at least [1.0]. *)
Theorem multiplier_pivots_at_two (elasticity : float) :
  ((abs elasticity <=? 2) = true ->
   (segment_multiplier (abs elasticity) <=? 1) = true) /\
  ((2 <=? abs elasticity) = true ->
   (1 <=? segment_multiplier (abs elasticity)) = true).
Proof.
  split.
  - exact (scaled_clamp_le_one elasticity).
  - exact (scaled_clamp_ge_one elasticity).
Qed.

(** X12. The computed [logistic] is on the right side of one half: it is
    at least [0.5] when [np.exp(-x)] lies between [0] and [1], and at most
    [0.5] when [np.exp(-x)] is at least [1]. *)
Theorem logistic_around_one_half (x : float) :
  ((0 <=? np_exp (- x)) = true -> (np_exp (- x) <=? 1) = true ->
   (0.5 <=? logistic x) = true) /\
  ((1 <=? np_exp (- x)) = true -> (logistic x <=? 0.5) = true).
Proof.
  split.
  - exact (reciprocal_above_half (np_exp (- x))).
  - exact (reciprocal_below_half (np_exp (- x))).
Qed.

Lemma lit_100_spec :
  Prim2SF (Binary64.literal 100) = S754_finite false 7036874417766400 (-46).
Proof. vm_compute; reflexivity. Qed.

Lemma scaled_uplift_sign (elasticity uplift : float) :
  (elasticity =? elasticity) = true ->
  ((0 <=? uplift) = true ->
   (0 <=? uplift * n_lit 100 * segment_multiplier (abs elasticity)) = true) /\
  ((uplift <=? 0) = true ->
   (uplift * n_lit 100 * segment_multiplier (abs elasticity) <=? 0) = true).
Proof.
  intros He.
  destruct (segment_multiplier_bounds np_exp elasticity He) as [Hlo Hhi].
  destruct (between_positive _ _ _ _ _ _ _ lit_0_7_spec lit_1_3_spec Hlo Hhi)
    as (m & e & Hm).
  destruct (mul_positive_sign uplift _ _ _ lit_100_spec) as [Hpos Hneg].
  destruct (mul_positive_sign (uplift * Binary64.literal 100) _ m e Hm) as [Hpos' Hneg'].
  split; intros H.
  - apply Hpos', Hpos, H.
  - apply Hneg', Hneg, H.
Qed.

(** X13. Scaling never turns an uplift round.  For a numeric scenario and
    segments with [name], [size] and an elasticity that is a number, every
    field [churn_<key>] of every result is non-negative when the horizon's
    [churn_uplift] is, and non-positive when that is. *)
Theorem scaling_keeps_the_sign (scenario : dict (value float))
  (segments : list (dict (value float))) (pct base : float) :
  scenario_pct scenario = Num pct ->
  scenario_base scenario = Num base ->
  Forall has_fields segments ->
  Forall (fun segment =>
            exists e, segment_elasticity segment = Num e /\ (e =? e) = true)
         segments ->
  exists hz rs,
    predict_churn_by_horizon scenario = Ok hz /\
    predict_churn_by_segment scenario segments = Ok rs /\
    Forall (fun r =>
              forall horizon values,
                In (horizon, values) hz ->
                exists field,
                  dict_get r ("churn_" ++ horizon_key horizon)%string = Some (Num field) /\
                  ((0 <=? churn_uplift values) = true -> (0 <=? field) = true) /\
                  ((churn_uplift values <=? 0) = true -> (field <=? 0) = true))
           rs.
Proof.
  intros Hp Hb Hhas Hnum.
  assert (Hnum' : Forall numeric_elasticity segments).
  { eapply Forall_impl; [|exact Hnum]. intros s (e & He & _); exists e; exact He. }
  destruct (segments_loop_ok _ _ _ _ Hp Hb Hnum' Hhas []) as (rs & Hrs & Hall).
  exists (horizon_table pct base), rs.
  split; [apply predict_churn_by_horizon_num; assumption|].
  split; [exact Hrs|].
  clear Hrs Hhas Hnum'.
  induction Hall as [|s r l l' Hr _ IH]; [constructor|].
  inversion Hnum as [|? ? (e & He & Hee) Hnum']; subst.
  constructor; [|apply IH; exact Hnum'].
  destruct (result_of_scaled _ _ _ _ Hr) as (e' & He' & _ & _ & Hfields).
  assert (e' = e) by congruence; subst e'.
  intros horizon values Hin; eexists; split; [apply (Hfields _ _ Hin)|].
  repeat (destruct Hin as [Hin|Hin];
          [inversion Hin; subst; cbn [churn_uplift churn_uplift_pp horizon_entry];
           apply (scaled_uplift_sign e _ Hee)|]).
  destruct Hin.
Qed.

End Binary64Outcomes.

(** ** Runs of the further properties *)

Section MoreRuns.

#[local] Existing Instance Binary64.reference.

Lemma first_fault_decides_witness :
  predict_churn_by_segment scenario_16 ([segment_a] ++ segment_c :: [segment_b])
  = Err (KeyError "name").
Proof.
  refine (proj2 (first_fault_decides scenario_16 [segment_a] segment_c [segment_b] _)
            _ _ eq_refl eq_refl).
  repeat constructor.
Defined.

Lemma only_named_keys_are_read_witness :
  predict_churn_by_horizon scenario_16 = predict_churn_by_horizon scenario_16_tagged /\
  predict_churn_by_segment scenario_16 [segment_a; segment_b]
  = predict_churn_by_segment scenario_16_tagged [segment_a_tagged; segment_b].
Proof.
  refine (only_named_keys_are_read scenario_16 scenario_16_tagged
            [segment_a; segment_b] [segment_a_tagged; segment_b] eq_refl eq_refl _).
  repeat constructor.
Defined.

Lemma elasticity_sign_is_ignored_witness :
  predict_churn_by_segment scenario_16 [segment_a; segment_b]
  = predict_churn_by_segment scenario_16 [segment_a_pos; segment_b].
Proof.
  refine (elasticity_sign_is_ignored Binary64.exp64 scenario_16
            [segment_a; segment_b] [segment_a_pos; segment_b] _).
  constructor; [|constructor; [|constructor]].
  - split; [reflexivity|]; split; [reflexivity|].
    exists (-4)%float, 4%float; split; [reflexivity|]; split; [reflexivity|].
    right; reflexivity.
  - split; [reflexivity|]; split; [reflexivity|].
    exists (Binary64.literal (-2.0)), (Binary64.literal (-2.0)).
    split; [reflexivity|]; split; [reflexivity|]; left; reflexivity.
Defined.

Lemma elasticity_beyond_four_is_clamped_witness :
  predict_churn_by_segment scenario_16 [segment_a; segment_b]
  = predict_churn_by_segment scenario_16 [segment_a_steep; segment_b].
Proof.
  refine (elasticity_beyond_four_is_clamped Binary64.exp64 scenario_16
            [segment_a; segment_b] [segment_a_steep; segment_b] _).
  constructor; [|constructor; [|constructor]].
  - split; [reflexivity|]; split; [reflexivity|].
    exists (-4)%float, (-10)%float; split; [reflexivity|]; split; [reflexivity|].
    right; split; reflexivity.
  - split; [reflexivity|]; split; [reflexivity|].
    exists (Binary64.literal (-2.0)), (Binary64.literal (-2.0)).
    split; [reflexivity|]; split; [reflexivity|]; left; reflexivity.
Defined.

Lemma multiplier_pivots_at_two_witness :
  (segment_multiplier (abs 1%float) <=? 1)%float = true /\
  (1 <=? segment_multiplier (abs (-3)%float))%float = true.
Proof.
  split.
  - exact (proj1 (multiplier_pivots_at_two Binary64.exp64 1%float) eq_refl).
  - exact (proj2 (multiplier_pivots_at_two Binary64.exp64 (-3)%float) eq_refl).
Defined.

Lemma logistic_around_one_half_witness :
  (0.5 <=? logistic 1%float)%float = true /\
  (logistic (-1)%float <=? 0.5)%float = true.
Proof.
  split.
  - exact (proj1 (logistic_around_one_half Binary64.exp64 1%float) eq_refl eq_refl).
  - exact (proj2 (logistic_around_one_half Binary64.exp64 (-1)%float) eq_refl).
Defined.

Lemma scaling_keeps_the_sign_witness :
  exists hz rs,
    predict_churn_by_horizon scenario_16 = Ok hz /\
    predict_churn_by_segment scenario_16 [segment_a; segment_b] = Ok rs /\
    Forall (fun r =>
              forall horizon values,
                In (horizon, values) hz ->
                exists field,
                  dict_get r ("churn_" ++ horizon_key horizon)%string = Some (Num field) /\
                  ((0 <=? churn_uplift values)%float = true -> (0 <=? field)%float = true) /\
                  ((churn_uplift values <=? 0)%float = true -> (field <=? 0)%float = true))
           rs.
Proof.
  refine (scaling_keeps_the_sign Binary64.exp64 scenario_16 [segment_a; segment_b]
            _ _ eq_refl eq_refl _ _).
  - repeat constructor; eexists; reflexivity.
  - repeat constructor; eexists; split; reflexivity.
Defined.

End MoreRuns.

Lemma horizon_key_normal_form_witness :
  occurs " " (horizon_key "12+ Weeks") = false /\
  occurs "-" (horizon_key "12+ Weeks") = false /\
  occurs "+" (horizon_key "12+ Weeks") = false /\
  has_upper (horizon_key "12+ Weeks") = false /\
  horizon_key (horizon_key "12+ Weeks") = horizon_key "12+ Weeks".
Proof. exact (horizon_key_normal_form "12+ Weeks" eq_refl). Defined.

(** * Order

    Rounding to nearest keeps the order of the exact results; so do the
    operations of binary64, and with them the log-odds, [logistic] and the
    uplifts. *)

(** ** Rounding keeps the order *)

Section Monotone.

Local Close Scope Q_scope.

Lemma round_nearest_even_mono (x y : R) (m e : Z) (lx ly : location) :
  inbetween x m e lx -> inbetween y m e ly -> (x <= y)%R ->
  (round_nearest_even m lx <= round_nearest_even m ly)%Z.
Proof.
  pose proof (bpow_pos e) as He.
  destruct lx as [|[| |]], ly as [|[| |]]; cbn [inbetween round_nearest_even];
    intros Hx Hy Hle; try destruct (Z.even m); try lia; exfalso; lra.
Qed.

Lemma Zdigits2_bounds_pos (m : Z) :
  (0 < m)%Z -> (2 ^ (Zdigits2 m - 1) <= m < 2 ^ Zdigits2 m)%Z.
Proof.
  destruct m as [|p|p]; try lia; intros _; cbn [Zdigits2]; apply digits2_pos_bounds.
Qed.

Lemma bpow_lt_inv (a b : Z) : (bpow a < bpow b)%R -> (a < b)%Z.
Proof.
  intros H; destruct (Z_lt_le_dec a b) as [Hlt|Hge]; [exact Hlt|].
  pose proof (bpow_le b a Hge); lra.
Qed.

Lemma F2R_bpow (k e : Z) : (0 <= k)%Z -> F2R (2 ^ k) e = bpow (k + e).
Proof. intros Hk; unfold F2R; rewrite <- bpow_IZR by exact Hk; rewrite bpow_add; ring. Qed.

(** The first shift puts the real on its grid. *)
Lemma shr_fexp_on_grid (x : R) (mx ex : Z) (lx : location) :
  (0 <= mx)%Z ->
  inbetween x mx ex lx ->
  (ex <= fexp prec emax (Zdigits2 mx + ex))%Z ->
  grid_point (shr_m (fst (shr_fexp prec emax mx ex lx))) (snd (shr_fexp prec emax mx ex lx)) /\
  inbetween x (shr_m (fst (shr_fexp prec emax mx ex lx)))
    (snd (shr_fexp prec emax mx ex lx))
    (loc_of_shr_record (fst (shr_fexp prec emax mx ex lx))).
Proof.
  intros Hmx Hx Hex.
  destruct (shr_fexp_inbetween x mx ex lx Hmx Hx) as (Hm1 & Hx1 & He1).
  split; [|exact Hx1].
  set (m1 := shr_m (fst (shr_fexp prec emax mx ex lx))) in *.
  set (e1 := snd (shr_fexp prec emax mx ex lx)) in *.
  assert (He : e1 = fexp prec emax (Zdigits2 mx + ex)) by lia.
  pose proof (inbetween_bounds _ _ _ _ Hx) as [Hxlo Hxhi].
  pose proof (inbetween_bounds _ _ _ _ Hx1) as [Hx1lo Hx1hi].
  pose proof (fexp_ge_emin (Zdigits2 mx + ex)) as Hemin.
  assert (Hfe : (e1 = Zdigits2 mx + ex - prec \/
                 (e1 = emin /\ Zdigits2 mx + ex - prec <= emin))%Z).
  { rewrite He; unfold fexp, SpecFloat.emin; unfold SpecFloat.emin; lia. }
  destruct (Z.eq_dec mx 0) as [Hz|Hnz].
  - (* nothing above [2^ex] *)
    subst mx; cbn [Zdigits2] in *.
    assert (Hm0 : m1 = 0%Z).
    { assert (H : (F2R m1 e1 < F2R 1 e1)%R).
      { apply Rle_lt_trans with (1 := Hx1lo).
        apply Rlt_le_trans with (1 := Hxhi).
        unfold F2R; rewrite !Rmult_1_l; apply bpow_le; lia. }
      apply F2R_lt_inv in H; lia. }
    rewrite Hm0; repeat split; try lia;
      try (apply Z.pow_pos_nonneg; [lia|]; change prec with 53%Z; lia).
    right; destruct Hfe as [Hfe|[Hfe _]]; [|exact Hfe].
    change prec with 53%Z in *; unfold SpecFloat.emin in *; lia.
  - assert (Hpos : (0 < mx)%Z) by lia.
    pose proof (Zdigits2_bounds_pos mx Hpos) as [Hdlo Hdhi].
    set (d := Zdigits2 mx) in *.
    assert (Hd1 : (1 <= d)%Z).
    { destruct mx as [|p|p]; try lia; unfold d; cbn [Zdigits2]; lia. }
    assert (Hxlt : (x < bpow (d + ex))%R).
    { apply Rlt_le_trans with (1 := Hxhi).
      rewrite <- F2R_bpow by lia; apply F2R_le_mantissa; lia. }
    assert (Hxge : (bpow (d - 1 + ex) <= x)%R).
    { apply Rle_trans with (2 := Hxlo).
      rewrite <- F2R_bpow by lia; apply F2R_le_mantissa; lia. }
    assert (Hupper : (m1 < 2 ^ prec)%Z).
    { apply (F2R_lt_inv _ _ e1).
      apply Rle_lt_trans with (1 := Hx1lo).
      apply Rlt_le_trans with (1 := Hxlt).
      rewrite F2R_bpow by (change prec with 53%Z; lia).
      apply bpow_le; destruct Hfe as [Hfe|[Hfe Hfe']]; lia. }
    repeat split; try lia.
    destruct Hfe as [Hfe|[Hfe _]]; [left|right; exact Hfe].
    assert (H : (F2R (2 ^ (prec - 1)) e1 < F2R (m1 + 1) e1)%R).
    { apply Rle_lt_trans with (2 := Hx1hi).
      apply Rle_trans with (2 := Hxge).
      rewrite F2R_bpow by (change prec with 53%Z; lia).
      apply bpow_le; lia. }
    apply F2R_lt_inv in H; lia.
Qed.


Lemma Zdigits2_le_prec (m : Z) :
  (0 <= m < 2 ^ prec)%Z -> (Zdigits2 m <= prec)%Z.
Proof.
  intros [Hlo Hhi]; destruct (Z.eq_dec m 0) as [->|Hnz]; [cbn; change prec with 53%Z; lia|].
  pose proof (Zdigits2_bounds_pos m ltac:(lia)) as [Hd _].
  assert (H : (2 ^ (Zdigits2 m - 1) < 2 ^ prec)%Z) by lia.
  apply Z.pow_lt_mono_r_iff in H; [lia|lia|change prec with 53%Z; lia].
Qed.

Lemma Zdigits2_pow2 (k : Z) : (0 <= k)%Z -> Zdigits2 (2 ^ k) = (k + 1)%Z.
Proof.
  intros Hk.
  pose proof (Z.pow_pos_nonneg 2 k ltac:(lia) Hk) as Hpos.
  pose proof (Zdigits2_bounds_pos (2 ^ k) Hpos) as [Hlo Hhi].
  pose proof (Zdigits2_nonneg (2 ^ k)) as Hd.
  apply Z.pow_lt_mono_r_iff in Hhi; [|lia|lia].
  destruct (Z_le_gt_dec (Zdigits2 (2 ^ k) - 1) k) as [H|H]; [lia|].
  assert (H' : (2 ^ k < 2 ^ (Zdigits2 (2 ^ k) - 1))%Z)
    by (apply Z.pow_lt_mono_r; lia).
  lia.
Qed.

(** What [binary_round_aux] returns is the rounding of the real it is
    given. *)
Lemma round_aux_rounds (x : R) (mx ex : Z) (lx : location) :
  (0 <= mx)%Z ->
  inbetween x mx ex lx ->
  (ex <= fexp prec emax (Zdigits2 mx + ex))%Z ->
  rounds_to x (binary_round_aux prec emax false mx ex lx).
Proof.
  intros Hmx Hx Hex; unfold binary_round_aux.
  destruct (shr_fexp_on_grid x mx ex lx Hmx Hx Hex) as [Hg Hx1].
  destruct (shr_fexp prec emax mx ex lx) as [mrs1 e1]; cbn [fst snd] in *.
  set (m1 := shr_m mrs1) in *; set (l1 := loc_of_shr_record mrs1) in *.
  exists m1, e1, l1; split; [exact Hg|]; split; [exact Hx1|].
  destruct Hg as ([Hm1lo Hm1hi] & He1 & Hfull).
  pose proof (round_nearest_even_bounds m1 l1) as [Hm2 _].
  set (m2 := round_nearest_even m1 l1) in *.
  assert (Hm2pos : (0 <= m2)%Z) by lia.
  assert (Hy : inbetween (F2R m2 e1) m2 e1 loc_Exact) by reflexivity.
  pose proof (shr_fexp_inbetween _ m2 e1 loc_Exact Hm2pos Hy) as (Hm3 & Hx3 & He3).
  destruct (shr_fexp prec emax m2 e1 loc_Exact) as [mrs3 e3]; cbn [fst snd] in *.
  set (m3 := shr_m mrs3) in *.
  pose proof (inbetween_bounds _ _ _ _ Hx3) as [Hx3lo Hx3hi].
  assert (Hval : F2R m3 e3 = F2R m2 e1 /\
                 ((e3 = e1 /\ m3 = m2) \/ (e3 = e1 + 1 /\ m3 = 2 ^ (prec - 1))%Z)).
  { destruct (Z_lt_le_dec m2 (2 ^ prec)) as [Hlt|Hge].
    - pose proof (Zdigits2_le_prec m2 ltac:(lia)) as Hd.
      assert (He : e3 = e1).
      { rewrite He3; unfold fexp, SpecFloat.emin in *; unfold SpecFloat.emin in *; lia. }
      rewrite He in *.
      assert (Hm : m3 = m2).
      { apply F2R_lt_inv in Hx3hi.
        destruct (Z_lt_le_dec m2 m3) as [H|H]; [|lia].
        pose proof (F2R_lt_mantissa m2 m3 e1 H); lra. }
      rewrite Hm; split; [reflexivity|left; split; reflexivity].
    - assert (Hm2eq : m2 = (2 ^ prec)%Z) by lia.
      assert (Hd : Zdigits2 m2 = (prec + 1)%Z).
      { rewrite Hm2eq; apply Zdigits2_pow2; change prec with 53%Z; lia. }
      assert (He : e3 = (e1 + 1)%Z).
      { rewrite He3, Hd; unfold fexp, SpecFloat.emin in *; unfold SpecFloat.emin in *; lia. }
      assert (Hv : F2R m2 e1 = F2R (2 ^ (prec - 1)) (e1 + 1)).
      { rewrite Hm2eq, !F2R_bpow by (change prec with 53%Z; lia); f_equal; lia. }
      rewrite He, Hv in *.
      assert (Hm : m3 = (2 ^ (prec - 1))%Z).
      { apply F2R_lt_inv in Hx3hi.
        destruct (Z_lt_le_dec (2 ^ (prec - 1)) m3) as [H|H]; [|lia].
        pose proof (F2R_lt_mantissa _ m3 (e1 + 1) H); lra. }
      rewrite Hm; split; [reflexivity|right; split; reflexivity]. }
  destruct Hval as [Hval Hcase].
  destruct m3 as [|p3|p3] eqn:Hm3eq; [| |lia]; cbn [lands].
  - rewrite <- Hval; unfold F2R; ring.
  - destruct (e3 <=? emax - prec)%Z eqn:Hb; cbn [lands]; [exact Hval|].
    apply Z.leb_gt in Hb; rewrite <- Hval.
    assert (Hbig : (2 ^ (prec - 1) <= Zpos p3)%Z).
    { destruct Hcase as [[He Hm]|[He Hm]]; [|lia].
      destruct Hfull as [Hf|Hf]; [lia|].
      unfold SpecFloat.emin in *; change prec with 53%Z in *;
        change emax with 1024%Z in *; lia. }
    apply Rle_trans with (F2R (2 ^ (prec - 1)) e3).
    + rewrite F2R_bpow by (change prec with 53%Z; lia); apply bpow_le; lia.
    + apply F2R_le_mantissa; exact Hbig.
Qed.


(** Rounding on the grid is monotone, as a real number. *)
Lemma rounded_value_mono (x y : R) (mx ex my ey : Z) (lx ly : location) :
  grid_point mx ex -> inbetween x mx ex lx ->
  grid_point my ey -> inbetween y my ey ly ->
  (x <= y)%R ->
  (F2R (round_nearest_even mx lx) ex <= F2R (round_nearest_even my ly) ey)%R.
Proof.
  intros ([Hmx0 Hmx1] & Hex & Hfx) Hx ([Hmy0 Hmy1] & Hey & Hfy) Hy Hle.
  pose proof (inbetween_bounds _ _ _ _ Hx) as [Hxlo Hxhi].
  pose proof (inbetween_bounds _ _ _ _ Hy) as [Hylo Hyhi].
  pose proof (round_nearest_even_bounds mx lx) as [Hrx _].
  pose proof (round_nearest_even_bounds my ly) as [Hry _].
  assert (Hprec : (0 <= prec - 1)%Z) by (change prec with 53%Z; lia).
  destruct (Z.compare_spec ex ey) as [He|He|He].
  - subst ey.
    assert (Hm : (mx < my + 1)%Z) by (apply (F2R_lt_inv _ _ ex); lra).
    destruct (Z.eq_dec mx my) as [->|Hne].
    + apply F2R_le_mantissa; apply (round_nearest_even_mono x y my ex lx ly Hx Hy Hle).
    + apply F2R_le_mantissa; lia.
  - assert (Hbig : (2 ^ (prec - 1) <= my)%Z) by (destruct Hfy; lia).
    apply Rle_trans with (F2R (2 ^ prec) ex); [apply F2R_le_mantissa; lia|].
    apply Rle_trans with (F2R (2 ^ (prec - 1)) ey); [|apply F2R_le_mantissa; lia].
    rewrite !F2R_bpow by (change prec with 53%Z; lia); apply bpow_le; lia.
  - exfalso.
    assert (Hbig : (2 ^ (prec - 1) <= mx)%Z) by (destruct Hfx; lia).
    assert (H1 : (F2R (2 ^ (prec - 1)) ex <= x)%R).
    { apply Rle_trans with (2 := Hxlo); apply F2R_le_mantissa; exact Hbig. }
    assert (H2 : (y < F2R (2 ^ prec) ey)%R).
    { apply Rlt_le_trans with (1 := Hyhi); apply F2R_le_mantissa; lia. }
    rewrite F2R_bpow in H1, H2 by (change prec with 53%Z; lia).
    pose proof (bpow_le (prec + ey) (prec - 1 + ex) ltac:(lia)); lra.
Qed.

Lemma valid_finite_lt_max (s : bool) (m : positive) (e : Z) :
  valid_binary (S754_finite s m e) = true -> (F2R (Zpos m) e < bpow emax)%R.
Proof.
  intros Hv; destruct (valid_canonical _ _ _ Hv) as [Hc Hb].
  pose proof (digits_bpow m e) as [_ Hhi]; fold (F2R (Zpos m) e) in Hhi.
  apply Rlt_le_trans with (1 := Hhi); apply bpow_le.
  unfold canonical, fexp, SpecFloat.emin in Hc; lia.
Qed.

(** The roundings of two non-negative reals are ordered like the reals. *)
Lemma rounds_to_mono (x y : R) (rx ry : spec_float) :
  rounds_to x rx -> rounds_to y ry ->
  valid_binary rx = true -> valid_binary ry = true ->
  (x <= y)%R ->
  SFleb rx ry = true.
Proof.
  intros (mx & ex & lx & Hgx & Hx & Hrx) (my & ey & ly & Hgy & Hy & Hry) Hvx Hvy Hle.
  pose proof (rounded_value_mono x y mx ex my ey lx ly Hgx Hx Hgy Hy Hle) as Hv.
  destruct rx as [sx|[|]| |[|] px qx]; cbn [lands] in Hrx; try contradiction;
    destruct ry as [sy|[|]| |[|] py qy]; cbn [lands] in Hry; try contradiction;
    try reflexivity.
  all: pose proof (bpow_pos emax) as Hmax.
  all: try (exfalso; lra).
  all: try (pose proof (F2R_pos px qx); exfalso; lra).
  all: try (pose proof (valid_finite_lt_max _ _ _ Hvy); exfalso; lra).
  destruct (valid_canonical _ _ _ Hvx) as [Hcx _].
  destruct (valid_canonical _ _ _ Hvy) as [Hcy _].
  apply SFleb_finite; [assumption..|lra].
Qed.

End Monotone.

(** ** Operands of either sign *)

Section Signed.

Local Close Scope Q_scope.

Lemma valid_opp (r : spec_float) : valid_binary (SFopp r) = valid_binary r.
Proof. destruct r; reflexivity. Qed.

Lemma SFopp_involutive (r : spec_float) : SFopp (SFopp r) = r.
Proof. destruct r as [s|s| |s m e]; cbn [SFopp]; rewrite ?negb_involutive; reflexivity. Qed.

Lemma rounds_to_nonneg (x : R) (r : spec_float) : rounds_to x r -> nonneg r.
Proof.
  intros (m & e & l & _ & _ & Hl).
  destruct r as [s|[|]| |[|] p q]; cbn [lands nonneg] in *; try contradiction; exact I.
Qed.

Lemma rounds_to_zero (r : spec_float) :
  rounds_to 0 r -> exists s, r = S754_zero s.
Proof.
  intros (m & e & l & ([Hm0 _] & _ & _) & Hx & Hl).
  pose proof (inbetween_bounds _ _ _ _ Hx) as [Hlo Hhi].
  assert (Hm : m = 0%Z).
  { assert (H : (F2R m e < F2R 1 e)%R).
    { destruct (Z.eq_dec m 0) as [->|Hne]; [apply F2R_lt_mantissa; lia|].
      pose proof (F2R_lt_mantissa 0 m e ltac:(lia)) as H.
      unfold F2R in H at 1; rewrite Rmult_0_l in H; lra. }
    apply F2R_lt_inv in H; lia. }
  subst m.
  assert (Hex : l = loc_Exact).
  { apply (inbetween_exact 0 0 e l Hx); unfold F2R; ring. }
  subst l; cbn [round_nearest_even] in Hl.
  assert (Hv : F2R 0 e = 0%R) by (unfold F2R; ring).
  rewrite Hv in Hl.
  destruct r as [s|[|]| |[|] p q]; cbn [lands] in Hl; try contradiction.
  - exists s; reflexivity.
  - pose proof (bpow_pos emax); lra.
  - pose proof (F2R_pos p q); lra.
Qed.

(** A non-positive number is below a non-negative one. *)
Lemma opp_nonneg_leb (a b : spec_float) :
  nonneg (SFopp a) -> nonneg b -> SFleb a b = true.
Proof.
  destruct a as [s|[|]| |[|] p q], b as [s'|[|]| |[|] p' q'];
    cbn [SFopp negb nonneg]; try contradiction; reflexivity.
Qed.

Lemma zero_leb_zero (s s' : bool) : SFleb (S754_zero s) (S754_zero s') = true.
Proof. reflexivity. Qed.

(** The roundings of two reals are ordered like the reals. *)
Lemma rounds_signed_mono (x y : R) (rx ry : spec_float) :
  rounds_signed x rx -> rounds_signed y ry ->
  valid_binary rx = true -> valid_binary ry = true ->
  (x <= y)%R ->
  SFleb rx ry = true.
Proof.
  intros [[Hx0 Hx]|[Hx0 Hx]] [[Hy0 Hy]|[Hy0 Hy]] Hvx Hvy Hle.
  - apply (rounds_to_mono x y); assumption.
  - assert (x = 0%R) by lra; assert (y = 0%R) by lra; subst x y.
    rewrite Ropp_0 in Hy.
    destruct (rounds_to_zero _ Hx) as [s ->].
    destruct (rounds_to_zero _ Hy) as [s' Hs'].
    destruct ry as [sy|sy| |sy p q]; try discriminate Hs'; reflexivity.
  - apply opp_nonneg_leb; [apply (rounds_to_nonneg _ _ Hx)|apply (rounds_to_nonneg _ _ Hy)].
  - unfold SFleb; rewrite <- SFcompare_opp.
    apply (rounds_to_mono (- y) (- x)); rewrite ?valid_opp; try assumption; lra.
Qed.

(** A number of binary64 is its own rounding. *)
Lemma valid_on_grid (s : bool) (m : positive) (e : Z) :
  valid_binary (S754_finite s m e) = true -> grid_point (Zpos m) e.
Proof.
  intros Hv; destruct (valid_canonical _ _ _ Hv) as [Hc Hb].
  pose proof (digits2_pos_bounds m) as [Hlo Hhi].
  unfold canonical, fexp, SpecFloat.emin in Hc.
  unfold grid_point, SpecFloat.emin.
  assert (Hd : (Zpos (digits2_pos m) <= prec)%Z) by lia.
  assert (H1 : (Zpos m < 2 ^ prec)%Z).
  { apply Z.lt_le_trans with (1 := Hhi); apply Z.pow_le_mono_r; lia. }
  assert (H2 : (2 ^ (prec - 1) <= Zpos m \/ e = 3 - emax - prec)%Z).
  { destruct (Z.eq_dec (Zpos (digits2_pos m)) prec) as [Heq|Hne].
    - left; rewrite <- Heq; exact Hlo.
    - right; lia. }
  split; [lia|]; split; [lia|exact H2].
Qed.

Lemma rounds_to_self (m : positive) (e : Z) :
  valid_binary (S754_finite false m e) = true ->
  rounds_to (F2R (Zpos m) e) (S754_finite false m e).
Proof.
  intros Hv; exists (Zpos m), e, loc_Exact; split; [apply (valid_on_grid _ _ _ Hv)|].
  split; reflexivity.
Qed.

Lemma rounds_to_zero_intro (s : bool) : rounds_to 0 (S754_zero s).
Proof.
  exists 0%Z, emin, loc_Exact; split; [|split].
  - unfold grid_point; repeat split; try lia;
      try (apply Z.pow_pos_nonneg; [lia|change prec with 53%Z; lia]).
  - cbn [inbetween]; unfold F2R; ring.
  - cbn [lands round_nearest_even]; unfold F2R; ring.
Qed.

Lemma val_rounds (f : spec_float) :
  valid_binary f = true -> finite_or_zero f -> rounds_signed (val f) f.
Proof.
  destruct f as [s|s| |[|] m e]; cbn [finite_or_zero val]; try contradiction; intros Hv _.
  - left; split; [lra|apply rounds_to_zero_intro].
  - right; pose proof (F2R_pos m e); split; [lra|].
    rewrite Ropp_involutive; cbn [SFopp negb]; apply rounds_to_self; exact Hv.
  - left; pose proof (F2R_pos m e); split; [lra|apply rounds_to_self; exact Hv].
Qed.

(** Order of finite numbers, read on their values. *)
Lemma leb_val (a b : spec_float) :
  valid_binary a = true -> valid_binary b = true ->
  finite_or_zero a -> finite_or_zero b ->
  (SFleb a b = true <-> (val a <= val b)%R).
Proof.
  intros Hva Hvb Ha Hb.
  destruct a as [s|s| |[|] m e], b as [s'|s'| |[|] m' e'];
    cbn [finite_or_zero val] in *; try contradiction;
    try pose proof (F2R_pos m e); try pose proof (F2R_pos m' e').
  - split; [lra|reflexivity].
  - split; [discriminate|lra].
  - split; [lra|reflexivity].
  - split; [lra|reflexivity].
  - destruct (valid_canonical _ _ _ Hva) as [Hca _].
    destruct (valid_canonical _ _ _ Hvb) as [Hcb _].
    change (S754_finite true m e) with (SFopp (S754_finite false m e)).
    change (S754_finite true m' e') with (SFopp (S754_finite false m' e')).
    unfold SFleb; rewrite SFcompare_opp.
    pose proof (SFleb_finite m' m e' e Hcb Hca) as H1; unfold SFleb in H1.
    split; intros H'; [apply H1 in H'; lra|apply H1; lra].
  - split; [lra|reflexivity].
  - split; [discriminate|lra].
  - split; [discriminate|lra].
  - destruct (valid_canonical _ _ _ Hva) as [Hca _].
    destruct (valid_canonical _ _ _ Hvb) as [Hcb _].
    apply SFleb_finite; assumption.
Qed.

End Signed.

(** ** The operations round their exact result *)

Section Operations.

Local Close Scope Q_scope.

Lemma binary_round_rounds (m : positive) (e : Z) :
  rounds_to (F2R (Zpos m) e) (binary_round prec emax false m e).
Proof.
  unfold binary_round.
  pose proof (shl_align_value m e (fexp prec emax (Zpos (digits2_pos m) + e)))
    as (Hle & Hmin & Hv).
  pose proof (F2R_shl_align m e (fexp prec emax (Zpos (digits2_pos m) + e))) as HF.
  destruct (shl_align m e (fexp prec emax (Zpos (digits2_pos m) + e))) as [mz ez].
  cbn [fst snd] in *.
  apply round_aux_rounds.
  - lia.
  - cbn [inbetween]; rewrite HF; reflexivity.
  - cbn [Zdigits2].
    rewrite (digits2_pos_pow2 m (e - ez) mz ltac:(lia) Hv).
    replace (Zpos (digits2_pos m) + (e - ez) + ez)%Z
      with (Zpos (digits2_pos m) + e)%Z by lia.
    lia.
Qed.

Lemma binary_round_opp (m : positive) (e : Z) :
  binary_round prec emax true m e = SFopp (binary_round prec emax false m e).
Proof.
  unfold binary_round.
  destruct (shl_align m e (fexp prec emax (Zpos (digits2_pos m) + e))) as [mz ez].
  apply binary_round_aux_opp.
Qed.

Lemma normalize_rounds (z e : Z) :
  rounds_signed (F2R z e) (binary_normalize prec emax z e false).
Proof.
  destruct z as [|p|p]; cbn [binary_normalize].
  - left; replace (F2R 0 e) with 0%R by (unfold F2R; ring).
    split; [lra|apply rounds_to_zero_intro].
  - left; pose proof (F2R_pos p e); split; [lra|apply binary_round_rounds].
  - right; pose proof (F2R_pos p e) as Hp.
    assert (Hn : F2R (Zneg p) e = (- F2R (Zpos p) e)%R).
    { unfold F2R; change (Zneg p) with (- Zpos p)%Z; rewrite opp_IZR; ring. }
    rewrite Hn, Ropp_involutive, binary_round_opp, SFopp_involutive.
    split; [lra|apply binary_round_rounds].
Qed.

Lemma SFmul_rounds (x y : spec_float) :
  valid_binary x = true -> valid_binary y = true ->
  finite_or_zero x -> finite_or_zero y ->
  rounds_signed (val x * val y) (SF64mul x y).
Proof.
  intros Hvx Hvy Hx Hy.
  destruct x as [sx|sx| |sx mx ex], y as [sy|sy| |sy my ey];
    cbn [finite_or_zero] in *; try contradiction; unfold SF64mul; cbn [SFmul val].
  - left; rewrite Rmult_0_l; split; [lra|apply rounds_to_zero_intro].
  - left; rewrite Rmult_0_l; split; [lra|apply rounds_to_zero_intro].
  - left; rewrite Rmult_0_r; split; [lra|apply rounds_to_zero_intro].
  - destruct (valid_canonical _ _ _ Hvx) as [Hcx _].
    destruct (valid_canonical _ _ _ Hvy) as [Hcy _].
    pose proof (F2R_pos mx ex) as Hpx; pose proof (F2R_pos my ey) as Hpy.
    assert (Hr : rounds_to (F2R (Zpos mx) ex * F2R (Zpos my) ey)
                   (binary_round_aux prec emax false (Zpos (mx * my)) (ex + ey) loc_Exact)).
    { apply round_aux_rounds.
      - lia.
      - cbn [inbetween]; unfold F2R; rewrite Pos2Z.inj_mul, mult_IZR, bpow_add; ring.
      - cbn [Zdigits2]; pose proof (digits2_pos_mul mx my) as Hd.
        unfold canonical, fexp, SpecFloat.emin in *.
        change prec with 53%Z in *; change emax with 1024%Z in *; lia. }
    assert (Hpos : (0 < F2R (Zpos mx) ex * F2R (Zpos my) ey)%R)
      by (apply Rmult_lt_0_compat; assumption).
    destruct sx, sy; cbn [xorb].
    + left; split; [nra|].
      replace (- F2R (Zpos mx) ex * - F2R (Zpos my) ey)%R
        with (F2R (Zpos mx) ex * F2R (Zpos my) ey)%R by ring; exact Hr.
    + right; split; [nra|].
      rewrite binary_round_aux_opp, SFopp_involutive.
      replace (- (- F2R (Zpos mx) ex * F2R (Zpos my) ey))%R
        with (F2R (Zpos mx) ex * F2R (Zpos my) ey)%R by ring; exact Hr.
    + right; split; [nra|].
      rewrite binary_round_aux_opp, SFopp_involutive.
      replace (- (F2R (Zpos mx) ex * - F2R (Zpos my) ey))%R
        with (F2R (Zpos mx) ex * F2R (Zpos my) ey)%R by ring; exact Hr.
    + left; split; [nra|exact Hr].
Qed.

Lemma cond_Zopp_F2R (s : bool) (m : positive) (e : Z) :
  F2R (cond_Zopp s (Zpos m)) e = val (S754_finite s m e).
Proof.
  destruct s; cbn [cond_Zopp val]; [|reflexivity].
  unfold F2R; change (- Zpos m)%Z with (Zneg m); change (Zneg m) with (- Zpos m)%Z.
  rewrite opp_IZR; ring.
Qed.

Lemma SFadd_rounds (x y : spec_float) :
  valid_binary x = true -> valid_binary y = true ->
  finite_or_zero x -> finite_or_zero y ->
  rounds_signed (val x + val y) (SF64add x y).
Proof.
  intros Hvx Hvy Hx Hy.
  destruct x as [sx|sx| |sx mx ex], y as [sy|sy| |sy my ey];
    cbn [finite_or_zero] in *; try contradiction; unfold SF64add; cbn [SFadd].
  - cbn [val]; rewrite Rplus_0_l.
    destruct sx, sy; left; (split; [lra|apply rounds_to_zero_intro]).
  - replace (val (S754_zero sx) + val (S754_finite sy my ey))%R
      with (val (S754_finite sy my ey)) by (cbn [val]; ring).
    apply val_rounds; [exact Hvy|exact I].
  - replace (val (S754_finite sx mx ex) + val (S754_zero sy))%R
      with (val (S754_finite sx mx ex)) by (cbn [val]; ring).
    apply val_rounds; [exact Hvx|exact I].
  - pose proof (F2R_shl_align mx ex (Z.min ex ey)) as Hfx.
    pose proof (F2R_shl_align my ey (Z.min ex ey)) as Hfy.
    destruct (shl_align_value mx ex (Z.min ex ey)) as (_ & Hex & _).
    destruct (shl_align_value my ey (Z.min ex ey)) as (_ & Hey & _).
    rewrite Hex in Hfx; rewrite Hey in Hfy.
    replace (Z.min ex (Z.min ex ey)) with (Z.min ex ey) in Hfx by lia.
    replace (Z.min ey (Z.min ex ey)) with (Z.min ex ey) in Hfy by lia.
    set (ez := Z.min ex ey) in *.
    set (mx' := fst (shl_align mx ex ez)) in *.
    set (my' := fst (shl_align my ey ez)) in *.
    assert (Hsum : F2R (cond_Zopp sx (Zpos mx') + cond_Zopp sy (Zpos my')) ez
                   = (val (S754_finite sx mx ex) + val (S754_finite sy my ey))%R).
    { transitivity (F2R (cond_Zopp sx (Zpos mx')) ez + F2R (cond_Zopp sy (Zpos my')) ez)%R.
      - unfold F2R; rewrite plus_IZR; ring.
      - rewrite !cond_Zopp_F2R; cbn [val]; rewrite Hfx, Hfy; reflexivity. }
    rewrite <- Hsum; apply normalize_rounds.
Qed.

Lemma SFdiv_rounds (mx my : positive) (ex ey : Z) :
  rounds_to (F2R (Zpos mx) ex / F2R (Zpos my) ey)
    (SF64div (S754_finite false mx ex) (S754_finite false my ey)).
Proof.
  unfold SF64div; cbn [SFdiv xorb]; unfold SFdiv_core_binary; cbn [Zdigits2].
  set (d1 := Zpos (digits2_pos mx)); set (d2 := Zpos (digits2_pos my)).
  set (e' := Z.min (fexp prec emax (d1 + ex - (d2 + ey))) (ex - ey)).
  set (s := (ex - ey - e')%Z).
  assert (Hs : (0 <= s)%Z) by (unfold s, e'; lia).
  set (m' := match s with Zpos _ => Z.shiftl (Zpos mx) s | Z0 => Zpos mx | Zneg _ => 0%Z end).
  assert (Hm' : m' = (Zpos mx * 2 ^ s)%Z).
  { unfold m'; destruct s as [|p|p] eqn:Hsp.
    - simpl; lia.
    - apply Z.shiftl_mul_pow2; lia.
    - lia. }
  pose proof (Z_div_mod m' (Zpos my) ltac:(lia)) as Hdiv.
  destruct (Z.div_eucl m' (Zpos my)) as [q r]; destruct Hdiv as [Hqr Hr].
  pose proof (Z.pow_pos_nonneg 2 s ltac:(lia) Hs) as H2s.
  assert (Hq : (0 <= q)%Z) by nia.
  apply round_aux_rounds.
  - exact Hq.
  - pose proof (new_location_inbetween (Zpos my) r q e' ltac:(lia) Hr) as Hin.
    replace (F2R (Zpos mx) ex / F2R (Zpos my) ey)%R
      with ((IZR q + IZR r / IZR (Zpos my)) * bpow e')%R; [exact Hin|].
    unfold F2R.
    replace ex with (s + e' + ey)%Z at 1 by (unfold s; lia).
    rewrite !bpow_add, (bpow_IZR s Hs).
    assert (HR : (IZR (Zpos mx) * IZR (2 ^ s) = IZR (Zpos my) * IZR q + IZR r)%R).
    { rewrite <- !mult_IZR, <- plus_IZR, <- Hqr, Hm'; reflexivity. }
    pose proof (bpow_pos ey) as Hey.
    assert (Hmy : (0 < IZR (Zpos my))%R) by (apply IZR_lt; lia).
    replace (IZR (Zpos mx) * (IZR (2 ^ s) * bpow e' * bpow ey))%R
      with ((IZR (Zpos mx) * IZR (2 ^ s)) * bpow e' * bpow ey)%R by ring.
    rewrite HR; field; lra.
  - apply Z.le_trans with (fexp prec emax (d1 + ex - (d2 + ey))); [unfold e'; lia|].
    apply fexp_mono.
    pose proof (digits2_pos_bounds mx) as [Hlo _].
    pose proof (digits2_pos_bounds my) as [_ Hhi].
    pose proof (Zdigits2_bound q Hq) as Hqb.
    pose proof (Zdigits2_nonneg q) as Hdq.
    fold d1 in Hlo; fold d2 in Hhi.
    assert (H : (2 ^ (d1 - 1 + s) < 2 ^ (d2 + Zdigits2 q))%Z).
    { rewrite !Z.pow_add_r by (unfold d1, d2; lia).
      apply Z.le_lt_trans with (Zpos mx * 2 ^ s)%Z; [nia|].
      rewrite <- Hm', Hqr.
      apply Z.lt_le_trans with (Zpos my * (q + 1))%Z; [lia|].
      apply Z.mul_le_mono_nonneg; lia. }
    apply Z.pow_lt_mono_r_iff in H; [|lia|unfold d2; lia].
    unfold s in H; lia.
Qed.
End Operations.

(** ** The operations keep the order *)

Section Order.

Local Close Scope Q_scope.

Lemma val_bounds (f : spec_float) :
  valid_binary f = true -> (- bpow emax < val f < bpow emax)%R.
Proof.
  pose proof (bpow_pos emax) as Hmax.
  destruct f as [s|s| |[|] m e]; cbn [val]; intros Hv; try lra;
    pose proof (valid_finite_lt_max _ _ _ Hv); pose proof (F2R_pos m e); lra.
Qed.

Lemma SFleb_ord (a b : spec_float) :
  valid_binary a = true -> valid_binary b = true ->
  a <> S754_nan -> b <> S754_nan ->
  (SFleb a b = true <-> (ord a <= ord b)%R).
Proof.
  intros Hva Hvb Ha Hb.
  pose proof (val_bounds a Hva) as Hba; pose proof (val_bounds b Hvb) as Hbb.
  pose proof (bpow_pos emax) as Hmax.
  destruct a as [sa|[|]| |sa ma ea]; try contradiction;
    destruct b as [sb|[|]| |sb mb eb]; try contradiction;
    try (apply leb_val; [assumption..|exact I|exact I]);
    cbn [ord val] in *;
    try (split; [intros _; lra|reflexivity]);
    try (split; [discriminate|intros H; exfalso; lra]).
Qed.

Lemma SFleb_num (a b : spec_float) :
  SFleb a b = true -> a <> S754_nan /\ b <> S754_nan.
Proof.
  unfold SFleb; destruct a as [sa|sa| |sa ma ea], b as [sb|sb| |sb mb eb];
    cbn [SFcompare]; intros H; split; try discriminate; discriminate H.
Qed.

Lemma SFleb_refl (a : spec_float) : a <> S754_nan -> SFleb a a = true.
Proof. intros Ha; unfold SFleb; rewrite SFcompare_refl by exact Ha; reflexivity. Qed.

Lemma SFleb_trans (a b c : spec_float) :
  valid_binary a = true -> valid_binary b = true -> valid_binary c = true ->
  SFleb a b = true -> SFleb b c = true -> SFleb a c = true.
Proof.
  intros Hva Hvb Hvc Hab Hbc.
  destruct (SFleb_num _ _ Hab) as [Ha Hb]; destruct (SFleb_num _ _ Hbc) as [_ Hc].
  apply (SFleb_ord a b Hva Hvb Ha Hb) in Hab.
  apply (SFleb_ord b c Hvb Hvc Hb Hc) in Hbc.
  apply (SFleb_ord a c Hva Hvc Ha Hc); lra.
Qed.

(** Shapes *)
Lemma not_nan_cases (f : spec_float) :
  f <> S754_nan ->
  f = S754_infinity true \/ f = S754_infinity false \/ finite_or_zero f.
Proof.
  destruct f as [s|[|]| |s m e]; intros H; try contradiction; cbn [finite_or_zero]; auto.
Qed.

Lemma finite_or_zero_num (f : spec_float) : finite_or_zero f -> f <> S754_nan.
Proof. destruct f; cbn [finite_or_zero]; try contradiction; discriminate. Qed.

Lemma SFleb_ninf_l (b : spec_float) :
  b <> S754_nan -> SFleb (S754_infinity true) b = true.
Proof. destruct b as [s|[|]| |s m e]; intros H; try contradiction; reflexivity. Qed.

Lemma SFleb_pinf_r (a : spec_float) :
  a <> S754_nan -> SFleb a (S754_infinity false) = true.
Proof. destruct a as [s|[|]| |[|] m e]; intros H; try contradiction; reflexivity. Qed.

Lemma SFleb_pinf_l (b : spec_float) :
  SFleb (S754_infinity false) b = true -> b = S754_infinity false.
Proof. destruct b as [s|[|]| |s m e]; try discriminate; reflexivity. Qed.

Lemma SFleb_ninf_r (a : spec_float) :
  SFleb a (S754_infinity true) = true -> a = S754_infinity true.
Proof. destruct a as [s|[|]| |[|] m e]; try discriminate; reflexivity. Qed.

Lemma rounds_signed_num (x : R) (r : spec_float) : rounds_signed x r -> r <> S754_nan.
Proof.
  intros [[_ H]|[_ H]]; apply rounds_to_nonneg in H; intros ->; exact H.
Qed.

(** Addition is monotone, as long as no NaN comes out. *)
Lemma SFadd_mono (x1 x2 y1 y2 : spec_float) :
  valid_binary x1 = true -> valid_binary x2 = true ->
  valid_binary y1 = true -> valid_binary y2 = true ->
  valid_binary (SF64add x1 y1) = true -> valid_binary (SF64add x2 y2) = true ->
  SFleb x1 x2 = true -> SFleb y1 y2 = true ->
  SF64add x1 y1 <> S754_nan -> SF64add x2 y2 <> S754_nan ->
  SFleb (SF64add x1 y1) (SF64add x2 y2) = true.
Proof.
  intros Hvx1 Hvx2 Hvy1 Hvy2 Hv1 Hv2 Hx Hy Hn1 Hn2.
  destruct (SFleb_num _ _ Hx) as [Hx1 Hx2]; destruct (SFleb_num _ _ Hy) as [Hy1 Hy2].
  destruct (not_nan_cases x2 Hx2) as [->|[->|Hfx2]].
  - apply SFleb_ninf_r in Hx; subst x1.
    assert (H1 : SF64add (S754_infinity true) y1 = S754_infinity true).
    { destruct y1 as [s|[|]| |s m e]; try reflexivity; exfalso; apply Hn1; reflexivity. }
    rewrite H1; apply SFleb_ninf_l; exact Hn2.
  - assert (H2 : SF64add (S754_infinity false) y2 = S754_infinity false).
    { destruct y2 as [s|[|]| |s m e]; try reflexivity; exfalso; apply Hn2; reflexivity. }
    rewrite H2; apply SFleb_pinf_r; exact Hn1.
  - destruct (not_nan_cases y2 Hy2) as [->|[->|Hfy2]].
    + apply SFleb_ninf_r in Hy; subst y1.
      assert (H1 : SF64add x1 (S754_infinity true) = S754_infinity true).
      { destruct x1 as [s|[|]| |s m e]; try reflexivity; exfalso; apply Hn1; reflexivity. }
      rewrite H1; apply SFleb_ninf_l; exact Hn2.
    + assert (H2 : SF64add x2 (S754_infinity false) = S754_infinity false).
      { destruct x2 as [s|[|]| |s m e]; try reflexivity; exfalso; apply Hn2; reflexivity. }
      rewrite H2; apply SFleb_pinf_r; exact Hn1.
    + destruct (not_nan_cases x1 Hx1) as [->|[->|Hfx1]].
      * assert (H1 : SF64add (S754_infinity true) y1 = S754_infinity true).
        { destruct y1 as [s|[|]| |s m e]; try reflexivity; exfalso; apply Hn1; reflexivity. }
        rewrite H1; apply SFleb_ninf_l; exact Hn2.
      * apply SFleb_pinf_l in Hx; subst x2; contradiction.
      * destruct (not_nan_cases y1 Hy1) as [->|[->|Hfy1]].
        -- assert (H1 : SF64add x1 (S754_infinity true) = S754_infinity true).
           { destruct x1 as [s|[|]| |s m e]; try reflexivity; exfalso; apply Hn1; reflexivity. }
           rewrite H1; apply SFleb_ninf_l; exact Hn2.
        -- apply SFleb_pinf_l in Hy; subst y2; contradiction.
        -- apply (leb_val x1 x2 Hvx1 Hvx2 Hfx1 Hfx2) in Hx.
           apply (leb_val y1 y2 Hvy1 Hvy2 Hfy1 Hfy2) in Hy.
           apply (rounds_signed_mono (val x1 + val y1) (val x2 + val y2)).
           ++ apply SFadd_rounds; assumption.
           ++ apply SFadd_rounds; assumption.
           ++ exact Hv1.
           ++ exact Hv2.
           ++ lra.
Qed.

Lemma SFmul_comm (x y : spec_float) : SF64mul x y = SF64mul y x.
Proof.
  unfold SF64mul; destruct x as [sx|sx| |sx mx ex], y as [sy|sy| |sy my ey];
    cbn [SFmul]; rewrite ?(xorb_comm sy sx); try reflexivity.
  rewrite (Pos.mul_comm my mx), (Z.add_comm ey ex); reflexivity.
Qed.

(** Multiplication by a positive finite number is monotone. *)
Lemma SFmul_mono (x1 x2 : spec_float) (mk : positive) (ek : Z) :
  valid_binary x1 = true -> valid_binary x2 = true ->
  valid_binary (S754_finite false mk ek) = true ->
  valid_binary (SF64mul x1 (S754_finite false mk ek)) = true ->
  valid_binary (SF64mul x2 (S754_finite false mk ek)) = true ->
  SFleb x1 x2 = true ->
  SFleb (SF64mul x1 (S754_finite false mk ek)) (SF64mul x2 (S754_finite false mk ek)) = true.
Proof.
  intros Hvx1 Hvx2 Hvk Hv1 Hv2 Hx.
  destruct (SFleb_num _ _ Hx) as [Hx1 Hx2].
  assert (Hnum : forall x, x <> S754_nan -> valid_binary x = true ->
                   SF64mul x (S754_finite false mk ek) <> S754_nan).
  { intros x Hx' Hvx; destruct (not_nan_cases x Hx') as [->|[->|Hf]]; try discriminate.
    apply (rounds_signed_num (val x * val (S754_finite false mk ek))).
    apply SFmul_rounds; [assumption..|exact I]. }
  destruct (not_nan_cases x2 Hx2) as [->|[->|Hfx2]].
  - apply SFleb_ninf_r in Hx; subst x1; reflexivity.
  - apply SFleb_pinf_r; apply Hnum; assumption.
  - destruct (not_nan_cases x1 Hx1) as [->|[->|Hfx1]].
    + apply SFleb_ninf_l; apply Hnum; assumption.
    + apply SFleb_pinf_l in Hx; subst x2; contradiction.
    + apply (leb_val x1 x2 Hvx1 Hvx2 Hfx1 Hfx2) in Hx.
      apply (rounds_signed_mono (val x1 * val (S754_finite false mk ek))
               (val x2 * val (S754_finite false mk ek))).
      * apply SFmul_rounds; [assumption..|exact I].
      * apply SFmul_rounds; [assumption..|exact I].
      * exact Hv1.
      * exact Hv2.
      * cbn [val]; pose proof (F2R_pos mk ek); nra.
Qed.

(** A quotient with a positive finite numerator gets smaller as the
    positive divisor gets larger. *)
Lemma SFdiv_anti (mk ms : positive) (ek es : Z) (s2 s1 : spec_float) :
  valid_binary s1 = true -> valid_binary s2 = true ->
  valid_binary (SF64div (S754_finite false mk ek) s1) = true ->
  valid_binary (SF64div (S754_finite false mk ek) s2) = true ->
  SFleb (S754_finite false ms es) s2 = true ->
  SFleb s2 s1 = true ->
  SFleb (SF64div (S754_finite false mk ek) s1) (SF64div (S754_finite false mk ek) s2) = true.
Proof.
  intros Hvs1 Hvs2 Hv1 Hv2 Hlo Hle.
  destruct s2 as [s|[|]| |[|] m2 e2]; try discriminate Hlo.
  - apply SFleb_pinf_l in Hle; subst s1; reflexivity.
  - destruct s1 as [s|[|]| |[|] m1 e1]; try discriminate Hle.
    + unfold SF64div at 1; cbn [SFdiv xorb].
      apply nonneg_zero_leb; apply (rounds_to_nonneg _ _ (SFdiv_rounds mk m2 ek e2)).
    + destruct (valid_canonical _ _ _ Hvs1) as [Hc1 _].
      destruct (valid_canonical _ _ _ Hvs2) as [Hc2 _].
      apply (SFleb_finite _ _ _ _ Hc2 Hc1) in Hle.
      apply (rounds_to_mono _ _ _ _ (SFdiv_rounds mk m1 ek e1) (SFdiv_rounds mk m2 ek e2)
               Hv1 Hv2).
      pose proof (F2R_pos mk ek) as Hk; pose proof (F2R_pos m1 e1) as H1.
      pose proof (F2R_pos m2 e2) as H2.
      unfold Rdiv; apply Rmult_le_compat_l; [lra|].
      apply Rinv_le_contravar; assumption.
Qed.

End Order.

(** ** The same on the doubles of the interpreter *)

Section Doubles.

Local Close Scope Q_scope.
Local Open Scope float_scope.

Lemma eqb_refl_num (x : float) : (x =? x) = true <-> Prim2SF x <> S754_nan.
Proof.
  rewrite FloatAxioms.eqb_spec; unfold SFeqb; split.
  - intros H Hn; rewrite Hn in H; discriminate H.
  - intros Hn; rewrite SFcompare_refl by exact Hn; reflexivity.
Qed.

Lemma leb_num (x y : float) :
  (x <=? y) = true -> (x =? x) = true /\ (y =? y) = true.
Proof.
  rewrite leb_spec; intros H; destruct (SFleb_num _ _ H) as [Hx Hy].
  split; apply eqb_refl_num; assumption.
Qed.

Lemma leb_refl (x : float) : (x =? x) = true -> (x <=? x) = true.
Proof. rewrite leb_spec; intros H; apply SFleb_refl, eqb_refl_num, H. Qed.

Lemma leb_trans (x y z : float) :
  (x <=? y) = true -> (y <=? z) = true -> (x <=? z) = true.
Proof. rewrite !leb_spec; apply SFleb_trans; apply Prim2SF_valid. Qed.

Lemma add_mono (x1 x2 y1 y2 : float) :
  (x1 <=? x2) = true -> (y1 <=? y2) = true ->
  (x1 + y1 =? x1 + y1) = true -> (x2 + y2 =? x2 + y2) = true ->
  (x1 + y1 <=? x2 + y2) = true.
Proof.
  intros Hx Hy H1 H2; apply eqb_refl_num in H1; apply eqb_refl_num in H2.
  pose proof (Prim2SF_valid (x1 + y1)) as Hv1; pose proof (Prim2SF_valid (x2 + y2)) as Hv2.
  rewrite leb_spec in *; rewrite !add_spec in *.
  apply SFadd_mono; try assumption; apply Prim2SF_valid.
Qed.

Lemma mul_comm (x y : float) : x * y = y * x.
Proof. apply Prim2SF_inj; rewrite !mul_spec; apply SFmul_comm. Qed.

Lemma mul_mono_r (k x1 x2 : float) (mk : positive) (ek : Z) :
  Prim2SF k = S754_finite false mk ek ->
  (x1 <=? x2) = true -> (x1 * k <=? x2 * k) = true.
Proof.
  intros Hk Hx.
  pose proof (Prim2SF_valid (x1 * k)) as Hv1; pose proof (Prim2SF_valid (x2 * k)) as Hv2.
  pose proof (valid_of_spec k _ _ _ Hk) as Hvk.
  rewrite leb_spec in *; rewrite !mul_spec, Hk in *.
  apply SFmul_mono; try assumption; apply Prim2SF_valid.
Qed.

Lemma mul_mono_l (k x1 x2 : float) (mk : positive) (ek : Z) :
  Prim2SF k = S754_finite false mk ek ->
  (x1 <=? x2) = true -> (k * x1 <=? k * x2) = true.
Proof.
  intros Hk Hx; rewrite (mul_comm k x1), (mul_comm k x2).
  apply (mul_mono_r k x1 x2 mk ek Hk Hx).
Qed.

Lemma div_anti (k g s2 s1 : float) (mk mg : positive) (ek eg : Z) :
  Prim2SF k = S754_finite false mk ek ->
  Prim2SF g = S754_finite false mg eg ->
  (g <=? s2) = true -> (s2 <=? s1) = true ->
  (k / s1 <=? k / s2) = true.
Proof.
  intros Hk Hg Hlo Hle.
  pose proof (Prim2SF_valid (k / s1)) as Hv1; pose proof (Prim2SF_valid (k / s2)) as Hv2.
  rewrite leb_spec in *; rewrite !div_spec, Hk in *; rewrite Hg in Hlo.
  apply (SFdiv_anti mk mg ek eg); try assumption; apply Prim2SF_valid.
Qed.

Lemma SFsub_add_opp (x y : spec_float) : SF64sub x y = SF64add x (SFopp y).
Proof.
  unfold SF64sub, SF64add; destruct x as [sx|sx| |sx mx ex], y as [sy|sy| |sy my ey];
    cbn [SFsub SFadd SFopp]; try reflexivity;
    try (destruct sx, sy; reflexivity).
Qed.

Lemma sub_add_opp (x y : float) : x - y = x + (- y).
Proof. apply Prim2SF_inj; rewrite sub_spec, add_spec, opp_spec; apply SFsub_add_opp. Qed.

(** Closure *)

Lemma add_num (x y : float) :
  finite_or_zero (Prim2SF x) -> (y =? y) = true -> (x + y =? x + y) = true.
Proof.
  intros Hx Hy; apply eqb_refl_num in Hy; apply eqb_refl_num; rewrite add_spec.
  destruct (not_nan_cases _ Hy) as [Hy'|[Hy'|Hy']].
  - rewrite Hy'; destruct (Prim2SF x); cbn [finite_or_zero] in Hx; try contradiction;
      discriminate.
  - rewrite Hy'; destruct (Prim2SF x); cbn [finite_or_zero] in Hx; try contradiction;
      discriminate.
  - apply (rounds_signed_num (val (Prim2SF x) + val (Prim2SF y))).
    apply SFadd_rounds; try assumption; apply Prim2SF_valid.
Qed.

Lemma add_num_r (x y : float) :
  (x =? x) = true -> finite_or_zero (Prim2SF y) -> (x + y =? x + y) = true.
Proof.
  intros Hx Hy; apply eqb_refl_num in Hx; apply eqb_refl_num; rewrite add_spec.
  destruct (not_nan_cases _ Hx) as [Hx'|[Hx'|Hx']].
  - rewrite Hx'; destruct (Prim2SF y); cbn [finite_or_zero] in Hy; try contradiction;
      discriminate.
  - rewrite Hx'; destruct (Prim2SF y); cbn [finite_or_zero] in Hy; try contradiction;
      discriminate.
  - apply (rounds_signed_num (val (Prim2SF x) + val (Prim2SF y))).
    apply SFadd_rounds; try assumption; apply Prim2SF_valid.
Qed.

(** A finite number times a factor of at most one is finite. *)
Lemma mul_small_finite (k p : float) (mk : positive) (ek : Z) :
  Prim2SF k = S754_finite false mk ek ->
  (F2R (Zpos mk) ek <= 1)%R ->
  finite_or_zero (Prim2SF p) ->
  finite_or_zero (Prim2SF (k * p)).
Proof.
  intros Hk Hk1 Hp.
  pose proof (Prim2SF_valid p) as Hvp.
  pose proof (Prim2SF_valid (k * p)) as Hv.
  pose proof (valid_of_spec k _ _ _ Hk) as Hvk.
  rewrite mul_spec, Hk in *.
  destruct (Prim2SF p) as [s|s| |s m e]; cbn [finite_or_zero] in Hp; try contradiction.
  - exact I.
  - pose proof (SFmul_rounds (S754_finite false mk ek) (S754_finite s m e)
                  Hvk Hvp I I) as Hr.
    pose proof (F2R_pos mk ek) as Hkpos; pose proof (F2R_pos m e) as Hmpos.
    assert (Hvm : valid_binary (S754_finite false m e) = true) by exact Hvp.
    assert (Hvn : valid_binary (S754_finite true m e) = true) by exact Hvp.
    assert (Hup : SFleb (SF64mul (S754_finite false mk ek) (S754_finite s m e))
                    (S754_finite false m e) = true).
    { apply (rounds_signed_mono _ _ _ _ Hr (val_rounds _ Hvm I) Hv Hvm).
      destruct s; cbn [val]; nra. }
    assert (Hlo : SFleb (S754_finite true m e)
                    (SF64mul (S754_finite false mk ek) (S754_finite s m e)) = true).
    { apply (rounds_signed_mono _ _ _ _ (val_rounds _ Hvn I) Hr Hvn Hv).
      destruct s; cbn [val]; nra. }
    destruct (SF64mul (S754_finite false mk ek) (S754_finite s m e)) as [s'|[|]| |s' m' e'];
      try discriminate; exact I.
Qed.

End Doubles.

Section Shapes.

Local Close Scope Q_scope.
Local Open Scope float_scope.

Lemma ltb_leb (x y : float) : (x <? y) = true -> (x <=? y) = true.
Proof.
  rewrite ltb_spec, leb_spec; unfold SFltb, SFleb.
  destruct (SFcompare (Prim2SF x) (Prim2SF y)) as [[| |]|]; congruence.
Qed.

Lemma zero_spec : Prim2SF 0 = S754_zero false.
Proof. vm_compute; reflexivity. Qed.

Lemma opp_num (x : float) : (x =? x) = true -> (- x =? - x) = true.
Proof.
  intros H; apply eqb_refl_num in H; apply eqb_refl_num; rewrite opp_spec.
  destruct (Prim2SF x); try discriminate; congruence.
Qed.

(** A number that is at least a finite one is finite or [+inf]. *)
Lemma leb_lower_shape (l x : float) :
  finite_or_zero (Prim2SF l) -> (l <=? x) = true ->
  Prim2SF x = S754_infinity false \/ finite_or_zero (Prim2SF x).
Proof.
  rewrite leb_spec; intros Hl H.
  destruct (SFleb_num _ _ H) as [_ Hx].
  destruct (not_nan_cases _ Hx) as [Hi|[Hi|Hf]]; [|left; exact Hi|right; exact Hf].
  rewrite Hi in H; apply SFleb_ninf_r in H; rewrite H in Hl; destruct Hl.
Qed.

Lemma add_num_lower (x y lx ly : float) :
  finite_or_zero (Prim2SF lx) -> finite_or_zero (Prim2SF ly) ->
  (lx <=? x) = true -> (ly <=? y) = true -> (x + y =? x + y) = true.
Proof.
  intros Hlx Hly Hx Hy.
  destruct (leb_num _ _ Hx) as [_ Hnx]; destruct (leb_num _ _ Hy) as [_ Hny].
  destruct (leb_lower_shape _ _ Hlx Hx) as [Hx'|Hx'].
  - destruct (leb_lower_shape _ _ Hly Hy) as [Hy'|Hy'].
    + apply eqb_refl_num; rewrite add_spec, Hx', Hy'; discriminate.
    + apply add_num_r; assumption.
  - apply add_num; assumption.
Qed.

Lemma unit_finite (r : float) :
  (0 <=? r) = true -> (r <=? 1) = true -> finite_or_zero (Prim2SF r).
Proof.
  intros H0 H1.
  destruct (leb_lower_shape 0 r) as [Hi|Hf]; [rewrite zero_spec; exact I|exact H0| |exact Hf].
  rewrite leb_spec, Hi in H1; apply SFleb_pinf_l in H1.
  rewrite one_spec in H1; discriminate H1.
Qed.

Lemma ltb_of_lower (w x : float) :
  (0 <? w) = true -> (w <=? x) = true -> (0 <? x) = true.
Proof.
  rewrite !ltb_spec, leb_spec, zero_spec; unfold SFltb, SFleb.
  destruct (Prim2SF w) as [sw|[|]| |[|] mw ew]; cbn [SFcompare]; try discriminate;
    intros _; destruct (Prim2SF x) as [sx|[|]| |[|] mx ex]; cbn [SFcompare];
    try discriminate; try reflexivity.
Qed.

Lemma spec_le_one (k : float) (mk : positive) (ek : Z) :
  Prim2SF k = S754_finite false mk ek -> (k <=? 1) = true ->
  (F2R (Zpos mk) ek <= 1)%R.
Proof.
  intros Hk H; rewrite leb_spec, Hk, one_spec in H.
  pose proof (valid_of_spec k _ _ _ Hk) as Hvk.
  pose proof (valid_of_spec 1 _ _ _ one_spec) as Hv1.
  apply (leb_val _ _ Hvk Hv1 I I) in H; cbn [val] in H.
  rewrite F2R_one in H; exact H.
Qed.

(** Multiplying by a non-negative number keeps the order of two positive
    factors. *)
Lemma mul_mono_nonneg (k x1 x2 : float) (m1 m2 : positive) (e1 e2 : Z) :
  Prim2SF x1 = S754_finite false m1 e1 ->
  Prim2SF x2 = S754_finite false m2 e2 ->
  (0 <=? k) = true -> (x1 <=? x2) = true ->
  (x1 * k <=? x2 * k) = true.
Proof.
  intros H1 H2 Hk Hx.
  destruct (leb_lower_shape 0 k) as [Hi|Hf]; [rewrite zero_spec; exact I|exact Hk| |].
  - rewrite leb_spec, !mul_spec, H1, H2, Hi; reflexivity.
  - rewrite leb_spec, zero_spec in Hk.
    destruct (Prim2SF k) as [s|s| |[|] m e] eqn:Hks; try destruct Hf.
    + rewrite leb_spec, !mul_spec, H1, H2, Hks; apply zero_leb_zero.
    + discriminate Hk.
    + apply (mul_mono_r k x1 x2 m e Hks Hx).
Qed.

End Shapes.

(** *** The log-odds *)

Section BinaryOrder.

Local Close Scope Q_scope.
Local Open Scope float_scope.

Variable np_exp : float -> float.

Let binary64 : Arith float := Binary64.arith np_exp.

#[local] Existing Instance binary64.

Lemma log_odds_binary64 (pct coef : float) :
  log_odds pct coef
  = Binary64.literal (-2.944) + Binary64.literal 0.01 * pct + coef * pct.
Proof. reflexivity. Qed.

Lemma churn_rate_log_odds (pct base coef : float) :
  churn_rate (horizon_entry pct base coef) = logistic (log_odds pct coef).
Proof. reflexivity. Qed.

Lemma lit_intercept_spec :
  Prim2SF (Binary64.literal (-2.944)) = S754_finite true 6629298651489370 (-51).
Proof. vm_compute; reflexivity. Qed.

Lemma lit_0_01_spec :
  Prim2SF (Binary64.literal 0.01) = S754_finite false 5764607523034235 (-59).
Proof. vm_compute; reflexivity. Qed.

Lemma lit_0_01_le_one : (Binary64.literal 0.01 <=? 1) = true.
Proof. vm_compute; reflexivity. Qed.

(** [intercept + 0.01 * pct] is a number whenever [pct] is. *)
Lemma base_odds_num (pct : float) :
  (pct =? pct) = true ->
  (Binary64.literal (-2.944) + Binary64.literal 0.01 * pct
   =? Binary64.literal (-2.944) + Binary64.literal 0.01 * pct) = true.
Proof.
  intros Hp; apply eqb_refl_num in Hp.
  destruct (not_nan_cases _ Hp) as [Hi|[Hi|Hf]].
  - apply eqb_refl_num; rewrite add_spec, mul_spec, Hi, lit_intercept_spec, lit_0_01_spec.
    discriminate.
  - apply eqb_refl_num; rewrite add_spec, mul_spec, Hi, lit_intercept_spec, lit_0_01_spec.
    discriminate.
  - apply add_num; [rewrite lit_intercept_spec; exact I|].
    apply eqb_refl_num, finite_or_zero_num.
    apply (mul_small_finite _ _ _ _ lit_0_01_spec); [|exact Hf].
    apply (spec_le_one _ _ _ lit_0_01_spec lit_0_01_le_one).
Qed.

(** The log-odds are a number whenever the price change is. *)
Lemma log_odds_num (pct coef : float) (m : positive) (e : Z) :
  Prim2SF coef = S754_finite false m e -> (coef <=? 1) = true ->
  (pct =? pct) = true ->
  (log_odds pct coef =? log_odds pct coef) = true.
Proof.
  intros Hc Hc1 Hp; rewrite log_odds_binary64.
  pose proof (base_odds_num pct Hp) as Hb.
  apply eqb_refl_num in Hp.
  destruct (not_nan_cases _ Hp) as [Hi|[Hi|Hf]].
  - apply eqb_refl_num.
    rewrite add_spec, add_spec, !mul_spec, Hi, Hc, lit_intercept_spec, lit_0_01_spec.
    discriminate.
  - apply eqb_refl_num.
    rewrite add_spec, add_spec, !mul_spec, Hi, Hc, lit_intercept_spec, lit_0_01_spec.
    discriminate.
  - apply add_num_r; [exact Hb|].
    apply (mul_small_finite _ _ _ _ Hc); [|exact Hf].
    apply (spec_le_one _ _ _ Hc Hc1).
Qed.

(** The log-odds do not decrease when the price change grows. *)
Lemma log_odds_mono_pct (p1 p2 coef : float) (m : positive) (e : Z) :
  Prim2SF coef = S754_finite false m e -> (coef <=? 1) = true ->
  (p1 <=? p2) = true ->
  (log_odds p1 coef <=? log_odds p2 coef) = true.
Proof.
  intros Hc Hc1 Hle; destruct (leb_num _ _ Hle) as [Hn1 Hn2].
  pose proof (log_odds_num p1 coef m e Hc Hc1 Hn1) as HL1.
  pose proof (log_odds_num p2 coef m e Hc Hc1 Hn2) as HL2.
  rewrite !log_odds_binary64 in *.
  apply add_mono; [|apply (mul_mono_l _ _ _ _ _ Hc Hle)|exact HL1|exact HL2].
  apply add_mono; [vm_compute; reflexivity|apply (mul_mono_l _ _ _ _ _ lit_0_01_spec Hle)| |];
    apply base_odds_num; assumption.
Qed.

(** For a price change that is not negative, the log-odds do not decrease
    when the interaction coefficient grows. *)
Lemma log_odds_mono_coef (pct c1 c2 : float) (m1 m2 : positive) (e1 e2 : Z) :
  Prim2SF c1 = S754_finite false m1 e1 -> (c1 <=? 1) = true ->
  Prim2SF c2 = S754_finite false m2 e2 -> (c2 <=? 1) = true ->
  (0 <=? pct) = true -> (c1 <=? c2) = true ->
  (log_odds pct c1 <=? log_odds pct c2) = true.
Proof.
  intros H1 H11 H2 H21 Hp Hc; destruct (leb_num _ _ Hp) as [_ Hn].
  pose proof (log_odds_num pct c1 m1 e1 H1 H11 Hn) as HL1.
  pose proof (log_odds_num pct c2 m2 e2 H2 H21 Hn) as HL2.
  rewrite !log_odds_binary64 in *.
  apply add_mono; [|apply (mul_mono_nonneg _ _ _ _ _ _ _ H1 H2 Hp Hc)|exact HL1|exact HL2].
  apply leb_refl, base_odds_num; exact Hn.
Qed.

(** *** [logistic] keeps the order *)

Lemma one_plus_num (y : float) : (y =? y) = true -> (1 + y =? 1 + y) = true.
Proof. intros H; apply add_num; [rewrite one_spec; exact I|exact H]. Qed.

Lemma one_plus_mono (y1 y2 : float) :
  (y1 <=? y2) = true -> (1 + y1 <=? 1 + y2) = true.
Proof.
  intros H; destruct (leb_num _ _ H) as [H1 H2].
  apply add_mono; [vm_compute; reflexivity|exact H| |]; apply one_plus_num; assumption.
Qed.

(** The denominator of [logistic] is at least [1]: the division is never
    by zero. *)
Lemma denominator_at_least_one (y : float) :
  (0 <=? y) = true -> (1 <=? 1 + y) = true.
Proof. intros H; apply (one_plus_mono 0 y H). Qed.

Lemma reciprocal_anti (y1 y2 : float) :
  (0 <=? y2) = true -> (y2 <=? y1) = true ->
  (1 / (1 + y1) <=? 1 / (1 + y2)) = true.
Proof.
  intros H0 Hle.
  apply (div_anti 1 1 (1 + y2) (1 + y1) _ _ _ _ one_spec one_spec).
  - apply denominator_at_least_one; exact H0.
  - apply one_plus_mono; exact Hle.
Qed.

Lemma logistic_mono_at (x1 x2 : float) :
  (0 <=? np_exp (- x2)) = true ->
  (np_exp (- x2) <=? np_exp (- x1)) = true ->
  (logistic x1 <=? logistic x2) = true.
Proof. intros H0 Hle; exact (reciprocal_anti _ _ H0 Hle). Qed.

Lemma logistic_mono (x1 x2 : float) :
  monotone_exp np_exp ->
  (x1 <=? x2) = true -> (logistic x1 <=? logistic x2) = true.
Proof.
  intros [Hpos Hmono] Hle.
  assert (Hopp : (- x2 <=? - x1) = true) by (rewrite leb_opp; exact Hle).
  apply logistic_mono_at; [|apply Hmono; exact Hopp].
  apply Hpos; destruct (leb_num _ _ Hopp) as [H _]; exact H.
Qed.

(** *** The uplift keeps the order of the rates *)

Lemma uplift_mono (r1 r2 b1 b2 : float) :
  (0 <=? r1) = true -> (r1 <=? 1) = true ->
  (0 <=? r2) = true -> (r2 <=? 1) = true ->
  (r1 <=? r2) = true -> (b2 <=? b1) = true ->
  ((r1 - b1) * Binary64.literal 100 <=? (r2 - b2) * Binary64.literal 100) = true.
Proof.
  intros H01 H11 H02 H12 Hr Hb.
  apply (mul_mono_r _ _ _ _ _ lit_100_spec).
  rewrite !sub_add_opp.
  assert (Hopp : (- b1 <=? - b2) = true) by (rewrite leb_opp; exact Hb).
  destruct (leb_num _ _ Hopp) as [Hn1 Hn2].
  apply add_mono; [exact Hr|exact Hopp| |]; apply add_num;
    try assumption; apply unit_finite; assumption.
Qed.

Lemma lit_0_006_spec :
  Prim2SF (Binary64.literal 0.006) = S754_finite false 6917529027641082 (-60).
Proof. vm_compute; reflexivity. Qed.

Lemma lit_0_018_spec :
  Prim2SF (Binary64.literal 0.018) = S754_finite false 5188146770730811 (-58).
Proof. vm_compute; reflexivity. Qed.

Lemma lit_0_028_spec :
  Prim2SF (Binary64.literal 0.028) = S754_finite false 8070450532247929 (-58).
Proof. vm_compute; reflexivity. Qed.

Lemma lit_0_008_spec :
  Prim2SF (Binary64.literal 0.008) = S754_finite false 4611686018427388 (-59).
Proof. vm_compute; reflexivity. Qed.

(** The four interaction coefficients are positive doubles below [1]. *)
Lemma coefficient_shape (coef : float) :
  In coef [ Binary64.literal 0.006; Binary64.literal 0.018;
            Binary64.literal 0.028; Binary64.literal 0.008 ] ->
  exists m e, Prim2SF coef = S754_finite false m e /\ (coef <=? 1) = true.
Proof.
  intros [H|[H|[H|[H|[]]]]]; subst coef.
  - exists 6917529027641082%positive, (-60)%Z; split; [exact lit_0_006_spec|].
    vm_compute; reflexivity.
  - exists 5188146770730811%positive, (-58)%Z; split; [exact lit_0_018_spec|].
    vm_compute; reflexivity.
  - exists 8070450532247929%positive, (-58)%Z; split; [exact lit_0_028_spec|].
    vm_compute; reflexivity.
  - exists 4611686018427388%positive, (-59)%Z; split; [exact lit_0_008_spec|].
    vm_compute; reflexivity.
Qed.

Lemma churn_rate_unit (pct base coef : float) :
  (forall y : float, (y =? y) = true -> (0 <=? np_exp y) = true) ->
  In coef [ Binary64.literal 0.006; Binary64.literal 0.018;
            Binary64.literal 0.028; Binary64.literal 0.008 ] ->
  (pct =? pct) = true ->
  (0 <=? churn_rate (horizon_entry pct base coef)) = true /\
  (churn_rate (horizon_entry pct base coef) <=? 1) = true.
Proof.
  intros Hpos Hin Hp; rewrite churn_rate_log_odds.
  destruct (coefficient_shape coef Hin) as (m & e & Hc & Hc1).
  apply logistic_in_unit_interval, Hpos, opp_num.
  apply (log_odds_num pct coef m e Hc Hc1 Hp).
Qed.

Lemma churn_rates_in_unit_interval (pct base : float) (horizon : string)
  (values : horizon_result float) :
  (forall y : float, (y =? y) = true -> (0 <=? np_exp y) = true) ->
  (pct =? pct) = true ->
  In (horizon, values) (horizon_table pct base) ->
  (0 <=? churn_rate values) = true /\ (churn_rate values <=? 1) = true.
Proof.
  intros Hpos Hp Hin; unfold horizon_table in Hin.
  repeat (destruct Hin as [Hin|Hin];
          [injection Hin as <- <-; apply churn_rate_unit;
           [exact Hpos|cbn [In]; tauto|exact Hp]|]).
  destruct Hin.
Qed.

Lemma churn_rate_mono_pct (p1 p2 base1 base2 coef : float) :
  monotone_exp np_exp ->
  In coef [ Binary64.literal 0.006; Binary64.literal 0.018;
            Binary64.literal 0.028; Binary64.literal 0.008 ] ->
  (p1 <=? p2) = true ->
  (churn_rate (horizon_entry p1 base1 coef)
   <=? churn_rate (horizon_entry p2 base2 coef)) = true.
Proof.
  intros Hexp Hin Hle; rewrite !churn_rate_log_odds.
  destruct (coefficient_shape coef Hin) as (m & e & Hc & Hc1).
  apply (logistic_mono _ _ Hexp).
  apply (log_odds_mono_pct p1 p2 coef m e Hc Hc1 Hle).
Qed.

Lemma churn_rate_mono_coef (pct base c1 c2 : float) :
  monotone_exp np_exp ->
  In c1 [ Binary64.literal 0.006; Binary64.literal 0.018;
          Binary64.literal 0.028; Binary64.literal 0.008 ] ->
  In c2 [ Binary64.literal 0.006; Binary64.literal 0.018;
          Binary64.literal 0.028; Binary64.literal 0.008 ] ->
  (c1 <=? c2) = true -> (0 <=? pct) = true ->
  (churn_rate (horizon_entry pct base c1)
   <=? churn_rate (horizon_entry pct base c2)) = true.
Proof.
  intros Hexp Hin1 Hin2 Hc Hp; rewrite !churn_rate_log_odds.
  destruct (coefficient_shape c1 Hin1) as (m1 & e1 & H1 & H11).
  destruct (coefficient_shape c2 Hin2) as (m2 & e2 & H2 & H21).
  apply (logistic_mono _ _ Hexp).
  apply (log_odds_mono_coef pct c1 c2 m1 m2 e1 e2 H1 H11 H2 H21 Hp Hc).
Qed.

Lemma churn_uplift_pp_binary64 (pct base coef : float) :
  churn_uplift_pp (horizon_entry pct base coef)
  = (churn_rate (horizon_entry pct base coef) - base) * Binary64.literal 100.
Proof. reflexivity. Qed.

(** In the table the uplifts are ordered like the rates. *)
Lemma churn_uplift_pp_like_rate (pct base c1 c2 : float) :
  (0 <=? np_exp (- log_odds pct c1)) = true ->
  (0 <=? np_exp (- log_odds pct c2)) = true ->
  (base =? base) = true ->
  (churn_rate (horizon_entry pct base c1)
   <=? churn_rate (horizon_entry pct base c2)) = true ->
  (churn_uplift_pp (horizon_entry pct base c1)
   <=? churn_uplift_pp (horizon_entry pct base c2)) = true.
Proof.
  intros H1 H2 Hb Hr.
  destruct (logistic_in_unit_interval np_exp _ H1) as [H01 H11].
  destruct (logistic_in_unit_interval np_exp _ H2) as [H02 H12].
  apply (uplift_mono _ _ _ _ H01 H11 H02 H12 Hr (leb_refl base Hb)).
Qed.

Lemma churn_uplift_pp_mono_coef (pct base c1 c2 : float) :
  monotone_exp np_exp ->
  In c1 [ Binary64.literal 0.006; Binary64.literal 0.018;
          Binary64.literal 0.028; Binary64.literal 0.008 ] ->
  In c2 [ Binary64.literal 0.006; Binary64.literal 0.018;
          Binary64.literal 0.028; Binary64.literal 0.008 ] ->
  (c1 <=? c2) = true -> (0 <=? pct) = true -> (base =? base) = true ->
  (churn_uplift_pp (horizon_entry pct base c1)
   <=? churn_uplift_pp (horizon_entry pct base c2)) = true.
Proof.
  intros Hexp Hin1 Hin2 Hc Hp Hb.
  destruct (leb_num _ _ Hp) as [_ Hn].
  destruct (coefficient_shape c1 Hin1) as (m1 & e1 & H1 & H11).
  destruct (coefficient_shape c2 Hin2) as (m2 & e2 & H2 & H21).
  apply churn_uplift_pp_like_rate; [| |exact Hb|apply churn_rate_mono_coef; assumption].
  - apply (exp_nonneg _ Hexp), opp_num, (log_odds_num pct c1 m1 e1 H1 H11 Hn).
  - apply (exp_nonneg _ Hexp), opp_num, (log_odds_num pct c2 m2 e2 H2 H21 Hn).
Qed.

(** For a positive price change the log-odds of the horizons are ordered
    like the interaction coefficients. *)
Lemma log_odds_of_horizons (pct : float) :
  (0 <? pct) = true ->
  (log_odds pct (Binary64.literal 0.006) <=? log_odds pct (Binary64.literal 0.018)) = true /\
  (log_odds pct (Binary64.literal 0.018) <=? log_odds pct (Binary64.literal 0.028)) = true /\
  (log_odds pct (Binary64.literal 0.008) <=? log_odds pct (Binary64.literal 0.028)) = true.
Proof.
  intros Hp; apply ltb_leb in Hp.
  split; [|split].
  - apply (log_odds_mono_coef pct _ _ _ _ _ _ lit_0_006_spec eq_refl lit_0_018_spec eq_refl Hp).
    vm_compute; reflexivity.
  - apply (log_odds_mono_coef pct _ _ _ _ _ _ lit_0_018_spec eq_refl lit_0_028_spec eq_refl Hp).
    vm_compute; reflexivity.
  - apply (log_odds_mono_coef pct _ _ _ _ _ _ lit_0_008_spec eq_refl lit_0_028_spec eq_refl Hp).
    vm_compute; reflexivity.
Qed.

(** With [np.exp(2.944)] at most [18.999] (it is [18.9917]), the rate at a
    price change that is not negative stays above [1 / (1 + 18.999)], which
    is above [0.05]. *)
Lemma churn_uplift_pp_positive (pct base : float) :
  monotone_exp np_exp ->
  (np_exp (Binary64.literal 2.944) <=? Binary64.literal 18.999) = true ->
  (0 <=? pct) = true -> (base <=? Binary64.literal 0.05) = true ->
  (0 <? churn_uplift_pp (horizon_entry pct base (Binary64.literal 0.008))) = true.
Proof.
  intros Hexp Hacc Hp Hb; rewrite churn_uplift_pp_binary64.
  destruct (leb_num _ _ Hp) as [_ Hn].
  assert (Hin : In (Binary64.literal 0.008)
                  [ Binary64.literal 0.006; Binary64.literal 0.018;
                    Binary64.literal 0.028; Binary64.literal 0.008 ])
    by (cbn [In]; tauto).
  destruct (churn_rate_unit pct base _ (exp_nonneg _ Hexp) Hin Hn) as [H0 H1].
  assert (Hzero : (churn_rate (horizon_entry 0 base (Binary64.literal 0.008))
                   <=? churn_rate (horizon_entry pct base (Binary64.literal 0.008))) = true)
    by (apply churn_rate_mono_pct; assumption).
  assert (Hlow : (1 / (1 + Binary64.literal 18.999)
                  <=? churn_rate (horizon_entry 0 base (Binary64.literal 0.008))) = true).
  { rewrite churn_rate_log_odds.
    replace (log_odds 0 (Binary64.literal 0.008)) with (Binary64.literal (-2.944))
      by (vm_compute; reflexivity).
    change (logistic (Binary64.literal (-2.944)))
      with (1 / (1 + np_exp (- Binary64.literal (-2.944)))).
    replace (- Binary64.literal (-2.944)) with (Binary64.literal 2.944)
      by (vm_compute; reflexivity).
    apply reciprocal_anti; [|exact Hacc].
    apply (exp_nonneg _ Hexp); vm_compute; reflexivity. }
  pose proof (leb_trans _ _ _ Hlow Hzero) as Hrate.
  apply (ltb_of_lower ((1 / (1 + Binary64.literal 18.999) - Binary64.literal 0.05)
                       * Binary64.literal 100));
    [vm_compute; reflexivity|].
  apply uplift_mono; try assumption; vm_compute; reflexivity.
Qed.

(** A price change of [1e-20] is absorbed: the log-odds are the intercept
    on every horizon. *)
Lemma log_odds_tiny (coef : float) :
  In coef [ Binary64.literal 0.006; Binary64.literal 0.018;
            Binary64.literal 0.028; Binary64.literal 0.008 ] ->
  log_odds (Binary64.literal 1e-20) coef = Binary64.literal (-2.944).
Proof. intros [<-|[<-|[<-|[<-|[]]]]]; vm_compute; reflexivity. Qed.

Lemma log_odds_zero (coef : float) :
  In coef [ Binary64.literal 0.006; Binary64.literal 0.018;
            Binary64.literal 0.028; Binary64.literal 0.008 ] ->
  log_odds 0 coef = Binary64.literal (-2.944).
Proof. intros [<-|[<-|[<-|[<-|[]]]]]; vm_compute; reflexivity. Qed.

Lemma horizon_entry_odds (pct1 pct2 base c1 c2 : float) :
  log_odds pct1 c1 = log_odds pct2 c2 ->
  horizon_entry pct1 base c1 = horizon_entry pct2 base c2.
Proof.
  intros H.
  change (horizon_entry pct1 base c1)
    with {| churn_rate := logistic (log_odds pct1 c1);
            churn_uplift := logistic (log_odds pct1 c1) - base;
            churn_uplift_pp := (logistic (log_odds pct1 c1) - base) * Binary64.literal 100 |}.
  rewrite H; reflexivity.
Qed.

(** A price change of [1e-20] gives the table of a price change of [0],
    and the same entry on every horizon. *)
Lemma horizon_table_tiny (base : float) :
  horizon_table (Binary64.literal 1e-20) base = horizon_table 0 base /\
  horizon_table (Binary64.literal 1e-20) base
  = [ ("0-4 Weeks", horizon_entry 0 base (Binary64.literal 0.008));
      ("4-8 Weeks", horizon_entry 0 base (Binary64.literal 0.008));
      ("8-12 Weeks", horizon_entry 0 base (Binary64.literal 0.008));
      ("12+ Weeks", horizon_entry 0 base (Binary64.literal 0.008)) ].
Proof.
  assert (H : forall c1 c2,
             In c1 [ Binary64.literal 0.006; Binary64.literal 0.018;
                     Binary64.literal 0.028; Binary64.literal 0.008 ] ->
             In c2 [ Binary64.literal 0.006; Binary64.literal 0.018;
                     Binary64.literal 0.028; Binary64.literal 0.008 ] ->
             horizon_entry (Binary64.literal 1e-20) base c1 = horizon_entry 0 base c2).
  { intros c1 c2 H1 H2; apply horizon_entry_odds.
    rewrite (log_odds_tiny c1 H1), (log_odds_zero c2 H2); reflexivity. }
  unfold horizon_table; split.
  - change (n_lit 0.006) with (Binary64.literal 0.006).
    change (n_lit 0.018) with (Binary64.literal 0.018).
    change (n_lit 0.028) with (Binary64.literal 0.028).
    change (n_lit 0.008) with (Binary64.literal 0.008).
    rewrite (H (Binary64.literal 0.006) (Binary64.literal 0.006)) by (cbn [In]; tauto).
    rewrite (H (Binary64.literal 0.018) (Binary64.literal 0.018)) by (cbn [In]; tauto).
    rewrite (H (Binary64.literal 0.028) (Binary64.literal 0.028)) by (cbn [In]; tauto).
    rewrite (H (Binary64.literal 0.008) (Binary64.literal 0.008)) by (cbn [In]; tauto).
    reflexivity.
  - change (n_lit 0.006) with (Binary64.literal 0.006).
    change (n_lit 0.018) with (Binary64.literal 0.018).
    change (n_lit 0.028) with (Binary64.literal 0.028).
    change (n_lit 0.008) with (Binary64.literal 0.008).
    rewrite (H (Binary64.literal 0.006) (Binary64.literal 0.008)) by (cbn [In]; tauto).
    rewrite (H (Binary64.literal 0.018) (Binary64.literal 0.008)) by (cbn [In]; tauto).
    rewrite (H (Binary64.literal 0.028) (Binary64.literal 0.008)) by (cbn [In]; tauto).
    rewrite (H (Binary64.literal 0.008) (Binary64.literal 0.008)) by (cbn [In]; tauto).
    reflexivity.
Qed.

End BinaryOrder.

(** ** Ranges and orders of the horizon table *)

(** C2, as the code has it.  Over the reals [logistic] is total and its
    value lies strictly between [0] and [1], and so does every
    [churn_rate].  In binary64 the denominator [1 + np.exp(-x)] is at least
    [1.0] whenever [np.exp] returns a non-negative number, so the division
    is never by zero, and the value lies in the closed interval from [0.0]
    to [1.0]; so does every [churn_rate] of a price change that is a number
    (not NaN), for any [np.exp] that is non-negative on numbers.  The end
    points are reached: with an exponential that underflows to [0] below
    [-746] and overflows to [inf] above [710], [logistic x] is exactly [1.0]
    from [x = 746] on and exactly [0.0] up to [x = -710]. *)
Theorem logistic_range :
  (forall x : R, (0 < Exact.logistic x < 1)%R) /\
  (forall (scenario : dict (value R)) (pct base : R),
     scenario_pct scenario = Num pct ->
     scenario_base scenario = Num base ->
     exists hz,
       Exact.predict_churn_by_horizon scenario = Ok hz /\
       forall horizon values,
         In (horizon, values) hz -> (0 < churn_rate values < 1)%R) /\
  (forall (np_exp : float -> float) (x : float),
     (0 <=? np_exp (- x))%float = true ->
     (1 <=? 1 + np_exp (- x))%float = true /\
     (0 <=? Binary64.logistic np_exp x)%float = true /\
     (Binary64.logistic np_exp x <=? 1)%float = true) /\
  (forall (np_exp : float -> float) (scenario : dict (value float))
          (pct base : float),
     (forall y : float, (y =? y)%float = true -> (0 <=? np_exp y)%float = true) ->
     @scenario_pct float (Binary64.arith np_exp) scenario = Num pct ->
     @scenario_base float (Binary64.arith np_exp) scenario = Num base ->
     (pct =? pct)%float = true ->
     exists hz,
       Binary64.predict_churn_by_horizon np_exp scenario = Ok hz /\
       forall horizon values,
         In (horizon, values) hz ->
         (0 <=? churn_rate values)%float = true /\
         (churn_rate values <=? 1)%float = true) /\
  (forall np_exp : float -> float,
     Binary64.libm_exp np_exp ->
     forall x : float,
       ((746 <=? x)%float = true -> Binary64.logistic np_exp x = 1%float) /\
       ((x <=? -710)%float = true -> Binary64.logistic np_exp x = 0%float)).
Proof.
  split; [exact logistic_exact_bounds|]; split; [|split; [|split]].
  - intros scenario pct base Hp Hb; exists (horizon_table pct base).
    split; [apply predict_churn_by_horizon_num; assumption|].
    intros horizon values Hin; eapply churn_rate_exact_bounds; exact Hin.
  - intros np_exp x Hx; split; [apply denominator_at_least_one; exact Hx|].
    apply logistic_in_unit_interval; exact Hx.
  - intros np_exp scenario pct base Hexp Hp Hb Hn.
    exists (@horizon_table float (Binary64.arith np_exp) pct base).
    split; [apply predict_churn_by_horizon_num; assumption|].
    intros horizon values Hin.
    apply (churn_rates_in_unit_interval np_exp pct base horizon values Hexp Hn Hin).
  - intros np_exp Hexp x; split; intros Hx.
    + apply logistic_saturates_high; assumption.
    + apply logistic_saturates_low; assumption.
Qed.

(** C5, as the code has it.  Over the reals, and for a fixed baseline, the
    [churn_rate] of every horizon is strictly increasing in the price
    change.  In binary64 the log-odds of every horizon do not decrease when
    the price change grows, and [logistic] keeps the order of two arguments
    at which [np.exp] is ordered; so, for an [np.exp] that is non-negative
    and non-decreasing, a larger price change never gives a smaller
    [churn_rate].  It need not give a larger one: a price change of
    [100000] and one of [200000] both give exactly [1.0] on every horizon,
    and a price change of [1e-20] gives the rates of a price change of
    [0]. *)
Theorem churn_rate_monotone :
  (forall (scenario1 scenario2 : dict (value R)) (p1 p2 base : R),
     scenario_pct scenario1 = Num p1 ->
     scenario_pct scenario2 = Num p2 ->
     scenario_base scenario1 = Num base ->
     scenario_base scenario2 = Num base ->
     (p1 < p2)%R ->
     exists hz1 hz2,
       Exact.predict_churn_by_horizon scenario1 = Ok hz1 /\
       Exact.predict_churn_by_horizon scenario2 = Ok hz2 /\
       Forall2 (fun a b => fst a = fst b /\
                           (churn_rate (snd a) < churn_rate (snd b))%R)
               hz1 hz2) /\
  (forall (np_exp : float -> float) (p1 p2 coef : float),
     In coef [ Binary64.literal 0.006; Binary64.literal 0.018;
               Binary64.literal 0.028; Binary64.literal 0.008 ] ->
     (p1 <=? p2)%float = true ->
     (@log_odds float (Binary64.arith np_exp) p1 coef
      <=? @log_odds float (Binary64.arith np_exp) p2 coef)%float = true) /\
  (forall (np_exp : float -> float) (x1 x2 : float),
     (0 <=? np_exp (- x2))%float = true ->
     (np_exp (- x2) <=? np_exp (- x1))%float = true ->
     (Binary64.logistic np_exp x1 <=? Binary64.logistic np_exp x2)%float = true) /\
  (forall (np_exp : float -> float) (scenario1 scenario2 : dict (value float))
          (p1 p2 base : float),
     monotone_exp np_exp ->
     @scenario_pct float (Binary64.arith np_exp) scenario1 = Num p1 ->
     @scenario_pct float (Binary64.arith np_exp) scenario2 = Num p2 ->
     @scenario_base float (Binary64.arith np_exp) scenario1 = Num base ->
     @scenario_base float (Binary64.arith np_exp) scenario2 = Num base ->
     (p1 <=? p2)%float = true ->
     exists hz1 hz2,
       Binary64.predict_churn_by_horizon np_exp scenario1 = Ok hz1 /\
       Binary64.predict_churn_by_horizon np_exp scenario2 = Ok hz2 /\
       Forall2 (fun a b => fst a = fst b /\
                           (churn_rate (snd a) <=? churn_rate (snd b))%float = true)
               hz1 hz2) /\
  (forall (np_exp : float -> float) (pct : float),
     Binary64.libm_exp np_exp ->
     In pct [100000%float; 200000%float] ->
     exists hz,
       Binary64.predict_churn_by_horizon np_exp [("price_change_pct", Num pct)]
       = Ok hz /\
       forall horizon values,
         In (horizon, values) hz -> churn_rate values = 1%float) /\
  (forall (np_exp : float -> float) (base : float),
     exists hz,
       Binary64.predict_churn_by_horizon np_exp
         [("price_change_pct", Num 0%float); ("baseline_churn", Num base)] = Ok hz /\
       Binary64.predict_churn_by_horizon np_exp
         [("price_change_pct", Num (Binary64.literal 1e-20));
          ("baseline_churn", Num base)] = Ok hz).
Proof.
  split; [|split; [|split; [|split; [|split]]]].
  - intros s1 s2 p1 p2 base Hp1 Hp2 Hb1 Hb2 Hlt.
    exists (horizon_table p1 base), (horizon_table p2 base).
    split; [apply predict_churn_by_horizon_num; assumption|].
    split; [apply predict_churn_by_horizon_num; assumption|].
    unfold horizon_table.
    repeat (constructor;
            [split; [reflexivity|]; cbn [snd];
             apply churn_rate_exact_increasing; [rewrite lit_exact; lra | exact Hlt]|]).
    constructor.
  - intros np_exp p1 p2 coef Hin Hle.
    destruct (coefficient_shape coef Hin) as (m & e & Hc & Hc1).
    apply (log_odds_mono_pct np_exp p1 p2 coef m e Hc Hc1 Hle).
  - intros np_exp x1 x2 H0 Hle; apply (logistic_mono_at np_exp x1 x2 H0 Hle).
  - intros np_exp s1 s2 p1 p2 base Hexp Hp1 Hp2 Hb1 Hb2 Hle.
    exists (@horizon_table float (Binary64.arith np_exp) p1 base),
           (@horizon_table float (Binary64.arith np_exp) p2 base).
    split; [apply predict_churn_by_horizon_num; assumption|].
    split; [apply predict_churn_by_horizon_num; assumption|].
    unfold horizon_table.
    repeat (constructor;
            [split; [reflexivity|]; cbn [snd];
             apply (churn_rate_mono_pct np_exp); [exact Hexp|cbn [In]; tauto|exact Hle]|]).
    constructor.
  - intros np_exp pct Hexp Hin.
    exists (@horizon_table float (Binary64.arith np_exp) pct (Binary64.literal 0.05)).
    split; [apply predict_churn_by_horizon_num; reflexivity|].
    intros horizon values Hv; unfold horizon_table in Hv.
    destruct Hin as [<-|[<-|[]]];
      repeat (destruct Hv as [Hv|Hv];
              [injection Hv as <- <-;
               apply logistic_saturates_high; [exact Hexp | vm_compute; reflexivity]|]);
      destruct Hv.
  - intros np_exp base.
    exists (@horizon_table float (Binary64.arith np_exp) 0%float base).
    split; [apply predict_churn_by_horizon_num; reflexivity|].
    rewrite <- (proj1 (horizon_table_tiny np_exp base)).
    apply predict_churn_by_horizon_num; reflexivity.
Qed.

(** C5 fails in binary64: with [100000 < 200000] the two rates of every
    horizon are equal, both [1.0]; and with [0 < 1e-20] the two rates of
    every horizon are equal as well. *)
Lemma churn_rate_saturates :
  ((100000 <? 200000)%float = true /\
   exists hz1 hz2,
     Binary64.predict_churn_by_horizon Binary64.exp64
       [("price_change_pct", Num 100000%float)] = Ok hz1 /\
     Binary64.predict_churn_by_horizon Binary64.exp64
       [("price_change_pct", Num 200000%float)] = Ok hz2 /\
     map (fun item => churn_rate (snd item)) hz1 = [1; 1; 1; 1]%float /\
     map (fun item => churn_rate (snd item)) hz2 = [1; 1; 1; 1]%float) /\
  ((0 <? Binary64.literal 1e-20)%float = true /\
   exists hz1 hz2,
     Binary64.predict_churn_by_horizon Binary64.exp64
       [("price_change_pct", Num 0%float)] = Ok hz1 /\
     Binary64.predict_churn_by_horizon Binary64.exp64 scenario_tiny = Ok hz2 /\
     map (fun item => churn_rate (snd item)) hz1
     = map (fun item => churn_rate (snd item)) hz2).
Proof.
  split; (split; [vm_compute; reflexivity|]).
  - eexists; eexists; split; [vm_compute; reflexivity|].
    split; [vm_compute; reflexivity|].
    split; vm_compute; reflexivity.
  - eexists; eexists; split; [vm_compute; reflexivity|].
    split; vm_compute; reflexivity.
Qed.

(** C6, as the code has it.  Over the reals, for a positive price change
    the uplifts are ordered ['0-4 Weeks'] below ['4-8 Weeks'] below
    ['8-12 Weeks'], the ['12+ Weeks'] uplift is below the ['8-12 Weeks']
    one, and it is positive when the baseline is at most [0.05].  In
    binary64, for a positive price change the log-odds of the horizons are
    ordered like their coefficients, and for a baseline that is a number
    the uplifts of two horizons are ordered like their rates wherever
    [np.exp] returns a non-negative number.  So, for an [np.exp] that is
    non-negative and non-decreasing, the uplifts satisfy
    ['0-4 Weeks'] <= ['4-8 Weeks'] <= ['8-12 Weeks'] and
    ['12+ Weeks'] <= ['8-12 Weeks']; the ['12+ Weeks'] uplift is positive
    when the baseline is at most [0.05] and [np.exp(2.944)] is at most
    [18.999].  None of the inequalities is strict: a price change of
    [1e-20] gives the same entry on all four horizons. *)
Theorem horizon_ordering :
  (forall (scenario : dict (value R)) (pct base : R),
     scenario_pct scenario = Num pct ->
     scenario_base scenario = Num base ->
     (0 < pct)%R ->
     exists e0 e4 e8 e12,
       Exact.predict_churn_by_horizon scenario
       = Ok [ ("0-4 Weeks", e0); ("4-8 Weeks", e4);
              ("8-12 Weeks", e8); ("12+ Weeks", e12) ] /\
       (churn_uplift_pp e0 < churn_uplift_pp e4)%R /\
       (churn_uplift_pp e4 < churn_uplift_pp e8)%R /\
       (churn_uplift_pp e12 < churn_uplift_pp e8)%R /\
       ((base <= 0.05)%R -> (0 < churn_uplift_pp e12)%R)) /\
  (forall (np_exp : float -> float) (pct : float),
     (0 <? pct)%float = true ->
     (@log_odds float (Binary64.arith np_exp) pct (Binary64.literal 0.006)
      <=? @log_odds float (Binary64.arith np_exp) pct (Binary64.literal 0.018))%float
     = true /\
     (@log_odds float (Binary64.arith np_exp) pct (Binary64.literal 0.018)
      <=? @log_odds float (Binary64.arith np_exp) pct (Binary64.literal 0.028))%float
     = true /\
     (@log_odds float (Binary64.arith np_exp) pct (Binary64.literal 0.008)
      <=? @log_odds float (Binary64.arith np_exp) pct (Binary64.literal 0.028))%float
     = true) /\
  (forall (np_exp : float -> float) (pct base c1 c2 : float),
     (0 <=? np_exp (- @log_odds float (Binary64.arith np_exp) pct c1))%float = true ->
     (0 <=? np_exp (- @log_odds float (Binary64.arith np_exp) pct c2))%float = true ->
     (base =? base)%float = true ->
     (churn_rate (@horizon_entry float (Binary64.arith np_exp) pct base c1)
      <=? churn_rate (@horizon_entry float (Binary64.arith np_exp) pct base c2))%float
     = true ->
     (churn_uplift_pp (@horizon_entry float (Binary64.arith np_exp) pct base c1)
      <=? churn_uplift_pp (@horizon_entry float (Binary64.arith np_exp) pct base c2))%float
     = true) /\
  (forall (np_exp : float -> float) (scenario : dict (value float))
          (pct base : float),
     monotone_exp np_exp ->
     @scenario_pct float (Binary64.arith np_exp) scenario = Num pct ->
     @scenario_base float (Binary64.arith np_exp) scenario = Num base ->
     (0 <? pct)%float = true ->
     (base =? base)%float = true ->
     exists e0 e4 e8 e12,
       Binary64.predict_churn_by_horizon np_exp scenario
       = Ok [ ("0-4 Weeks", e0); ("4-8 Weeks", e4);
              ("8-12 Weeks", e8); ("12+ Weeks", e12) ] /\
       (churn_uplift_pp e0 <=? churn_uplift_pp e4)%float = true /\
       (churn_uplift_pp e4 <=? churn_uplift_pp e8)%float = true /\
       (churn_uplift_pp e12 <=? churn_uplift_pp e8)%float = true /\
       ((base <=? Binary64.literal 0.05)%float = true ->
        (np_exp (Binary64.literal 2.944) <=? Binary64.literal 18.999)%float = true ->
        (0 <? churn_uplift_pp e12)%float = true)) /\
  (forall (np_exp : float -> float) (base : float),
     exists e,
       Binary64.predict_churn_by_horizon np_exp
         [("price_change_pct", Num (Binary64.literal 1e-20));
          ("baseline_churn", Num base)]
       = Ok [ ("0-4 Weeks", e); ("4-8 Weeks", e);
              ("8-12 Weeks", e); ("12+ Weeks", e) ]).
Proof.
  split; [|split; [|split; [|split]]].
  - intros scenario pct base Hp Hb Hpos.
    do 4 eexists; split; [apply predict_churn_by_horizon_num; eassumption|].
    rewrite !churn_uplift_pp_exact.
    pose proof (churn_rate_exact_coef pct base (n_lit 0.006) (n_lit 0.018) Hpos) as H1.
    pose proof (churn_rate_exact_coef pct base (n_lit 0.018) (n_lit 0.028) Hpos) as H2.
    pose proof (churn_rate_exact_coef pct base (n_lit 0.008) (n_lit 0.028) Hpos) as H3.
    rewrite !lit_exact in H1, H2, H3.
    specialize (H1 ltac:(lra)); specialize (H2 ltac:(lra)); specialize (H3 ltac:(lra)).
    rewrite !lit_exact.
    repeat split; try lra.
    intros Hbase.
    assert (H0 : (0.05 < churn_rate (horizon_entry pct base (IZR 8 / IZR 1000)))%R).
    { rewrite churn_rate_exact.
      apply Rlt_trans with (1 := logistic_intercept_above_baseline).
      apply logistic_exact_increasing; lra. }
    lra.
  - intros np_exp pct Hpos; apply (log_odds_of_horizons np_exp pct Hpos).
  - intros np_exp pct base c1 c2 H1 H2 Hb Hr.
    apply (churn_uplift_pp_like_rate np_exp pct base c1 c2 H1 H2 Hb Hr).
  - intros np_exp scenario pct base Hexp Hp Hb Hpos Hn.
    apply ltb_leb in Hpos.
    do 4 eexists; split; [apply predict_churn_by_horizon_num; eassumption|].
    split; [|split; [|split]].
    + apply (churn_uplift_pp_mono_coef np_exp); try assumption;
        [cbn [In]; tauto|cbn [In]; tauto|vm_compute; reflexivity].
    + apply (churn_uplift_pp_mono_coef np_exp); try assumption;
        [cbn [In]; tauto|cbn [In]; tauto|vm_compute; reflexivity].
    + apply (churn_uplift_pp_mono_coef np_exp); try assumption;
        [cbn [In]; tauto|cbn [In]; tauto|vm_compute; reflexivity].
    + intros Hbase Hacc.
      apply (churn_uplift_pp_positive np_exp pct base Hexp Hacc Hpos Hbase).
  - intros np_exp base.
    exists (@horizon_entry float (Binary64.arith np_exp) 0%float base
              (Binary64.literal 0.008)).
    rewrite <- (proj2 (horizon_table_tiny np_exp base)).
    apply predict_churn_by_horizon_num; reflexivity.
Qed.

(** C6 fails.  With a price change of [1] and a baseline of [0.5] the
    ['12+ Weeks'] uplift is negative, over the reals and in a binary64 run
    alike; and in a binary64 run with a price change of [1e-20] the
    ['12+ Weeks'] uplift is not lower than the ['8-12 Weeks'] one. *)
Lemma uplift_negative_for_high_baseline :
  (exists hz values,
     Exact.predict_churn_by_horizon
       [("price_change_pct", Num 1%R); ("baseline_churn", Num (/ 2)%R)] = Ok hz /\
     dict_get hz "12+ Weeks" = Some values /\
     (0 < 1)%R /\ (churn_uplift_pp values < 0)%R) /\
  (exists hz values,
     Binary64.predict_churn_by_horizon Binary64.exp64
       [("price_change_pct", Num 1%float); ("baseline_churn", Num 0.5%float)]
     = Ok hz /\
     dict_get hz "12+ Weeks" = Some values /\
     (0 <? 1)%float = true /\ (churn_uplift_pp values <? 0)%float = true) /\
  (exists hz v8 v12,
     Binary64.predict_churn_by_horizon Binary64.exp64 scenario_tiny = Ok hz /\
     dict_get hz "8-12 Weeks" = Some v8 /\
     dict_get hz "12+ Weeks" = Some v12 /\
     (0 <? Binary64.literal 1e-20)%float = true /\
     (churn_uplift_pp v12 <? churn_uplift_pp v8)%float = false).
Proof.
  split; [|split].
  - exists (horizon_table 1%R (/ 2)%R), (horizon_entry 1%R (/ 2)%R (n_lit 0.008)).
    split; [reflexivity|]; split; [reflexivity|].
    split; [lra|].
    rewrite churn_uplift_pp_exact, churn_rate_exact.
    real_literals.
    match goal with
    | |- context [logistic ?x] =>
        pose proof (logistic_exact_below_half x ltac:(lra)) as Hh
    end.
    lra.
  - eexists; eexists; split; [vm_compute; reflexivity|].
    split; [reflexivity|]; split; vm_compute; reflexivity.
  - eexists; eexists; eexists; split; [vm_compute; reflexivity|].
    split; [reflexivity|]; split; [reflexivity|]; split; vm_compute; reflexivity.
Qed.

(** ** The order theorems at work *)

Lemma logistic_range_witness :
  (1 <=? 1 + Binary64.exp64 (- 3))%float = true /\
  (0 <=? Binary64.logistic Binary64.exp64 3)%float = true /\
  (Binary64.logistic Binary64.exp64 3 <=? 1)%float = true.
Proof.
  apply (proj1 (proj2 (proj2 logistic_range)) Binary64.exp64 3%float).
  vm_compute; reflexivity.
Defined.

Lemma churn_rate_monotone_witness :
  (@log_odds float Binary64.reference 10 (Binary64.literal 0.006)
   <=? @log_odds float Binary64.reference 20 (Binary64.literal 0.006))%float = true /\
  (Binary64.logistic Binary64.exp64
     (@log_odds float Binary64.reference 10 (Binary64.literal 0.006))
   <=? Binary64.logistic Binary64.exp64
         (@log_odds float Binary64.reference 20 (Binary64.literal 0.006)))%float = true.
Proof.
  split.
  - apply (proj1 (proj2 churn_rate_monotone) Binary64.exp64);
      [cbn [In]; tauto|vm_compute; reflexivity].
  - apply (proj1 (proj2 (proj2 churn_rate_monotone)) Binary64.exp64);
      vm_compute; reflexivity.
Defined.

Lemma horizon_ordering_witness :
  ((0 < 1)%R /\
   exists e0 e4 e8 e12,
     Exact.predict_churn_by_horizon [("price_change_pct", Num 1%R)]
     = Ok [ ("0-4 Weeks", e0); ("4-8 Weeks", e4);
            ("8-12 Weeks", e8); ("12+ Weeks", e12) ] /\
     (churn_uplift_pp e0 < churn_uplift_pp e4)%R /\
     (churn_uplift_pp e4 < churn_uplift_pp e8)%R /\
     (churn_uplift_pp e12 < churn_uplift_pp e8)%R /\
     (0 < churn_uplift_pp e12)%R) /\
  (@log_odds float Binary64.reference (Binary64.literal 16.67) (Binary64.literal 0.008)
   <=? @log_odds float Binary64.reference (Binary64.literal 16.67)
         (Binary64.literal 0.028))%float = true /\
  (churn_uplift_pp
     (@horizon_entry float Binary64.reference (Binary64.literal 16.67)
        (Binary64.literal 0.05) (Binary64.literal 0.008))
   <=? churn_uplift_pp
         (@horizon_entry float Binary64.reference (Binary64.literal 16.67)
            (Binary64.literal 0.05) (Binary64.literal 0.028)))%float = true /\
  (exists e,
     Binary64.predict_churn_by_horizon Binary64.exp64
       [("price_change_pct", Num (Binary64.literal 1e-20));
        ("baseline_churn", Num (Binary64.literal 0.05))]
     = Ok [ ("0-4 Weeks", e); ("4-8 Weeks", e);
            ("8-12 Weeks", e); ("12+ Weeks", e) ]).
Proof.
  split; [|split; [|split]].
  - split; [lra|].
    destruct (proj1 horizon_ordering [("price_change_pct", Num 1%R)] 1%R (n_lit 0.05)
                eq_refl eq_refl ltac:(lra))
      as (e0 & e4 & e8 & e12 & Hhz & H1 & H2 & H3 & H4).
    exists e0, e4, e8, e12; repeat split; try assumption.
    apply H4; real_literals; lra.
  - apply (proj1 (proj2 horizon_ordering) Binary64.exp64 (Binary64.literal 16.67)).
    vm_compute; reflexivity.
  - apply (proj1 (proj2 (proj2 horizon_ordering)) Binary64.exp64);
      vm_compute; reflexivity.
  - apply (proj2 (proj2 (proj2 (proj2 horizon_ordering))) Binary64.exp64
             (Binary64.literal 0.05)).
Defined.

(** ** Faults and order of the segment results *)

Section SegmentOutcomes.

Context {T : Type} {A : Arith T}.

Local Open Scope py_scope.

Lemma lacking_segment_faults (scenario : dict (value T))
  (segments : list (dict (value T))) :
  Exists lacks_field segments ->
  exists err, predict_churn_by_segment scenario segments = Err err.
Proof.
  intros Hex.
  destruct (predict_churn_by_segment scenario segments) as [rs|err] eqn:Hrs;
    [|exists err; reflexivity].
  exfalso.
  destruct (segments_loop_inv _ _ _ _ Hrs) as (rs' & _ & Hall).
  clear Hrs; induction Hall as [|s r l l' (pct & base & _ & _ & Hr) _ IH].
  - inversion Hex.
  - inversion Hex as [? ? Hl|? ? Hrest]; subst; [|apply IH; exact Hrest].
    destruct Hr as (e & n & z & _ & Hn & Hz & _).
    destruct Hl as [Hl|Hl]; congruence.
Qed.

Lemma first_lacking_segment (scenario : dict (value T))
  (good : list (dict (value T))) (bad : dict (value T))
  (rest : list (dict (value T))) (pct base : T) (key : string) :
  scenario_pct scenario = Num pct ->
  scenario_base scenario = Num base ->
  Forall numeric_elasticity good ->
  Forall has_fields good ->
  segment_fault bad = Some (KeyError key) ->
  predict_churn_by_segment scenario (good ++ bad :: rest) = Err (KeyError key).
Proof.
  intros Hp Hb Hnum Hhas Hbad; unfold predict_churn_by_segment.
  destruct (segments_loop_ok _ _ _ _ Hp Hb Hnum Hhas []) as (rs & Hrs & _).
  rewrite for_each_app, Hrs; cbn [bind for_each].
  rewrite (segment_body_fault _ _ _ _ _ (predict_churn_by_horizon_num _ _ _ Hp Hb) Hbad).
  reflexivity.
Qed.

(** C7, as the code has it.  A call with a segment that lacks ['name'] or
    ['size'] never returns a list: it raises.  What it raises is the
    [KeyError] on the missing key of the first such segment, ['name']
    before ['size'], when the scenario is numeric and the elasticities up
    to that segment are numbers or absent; a scenario or an elasticity that
    is not a number is met first and raises [TypeError] instead.  A segment
    without ['elasticity'] raises nothing and is processed as if it carried
    [elasticity = -2.0]. *)
Theorem missing_field_faults (scenario : dict (value T))
  (segments : list (dict (value T))) :
  (Exists lacks_field segments ->
   exists err, predict_churn_by_segment scenario segments = Err err) /\
  (forall good bad rest pct base,
     segments = good ++ bad :: rest ->
     scenario_pct scenario = Num pct ->
     scenario_base scenario = Num base ->
     Forall numeric_elasticity good ->
     Forall has_fields good ->
     numeric_elasticity bad ->
     (dict_get bad "name" = None ->
      predict_churn_by_segment scenario segments = Err (KeyError "name")) /\
     (forall name,
        dict_get bad "name" = Some name -> dict_get bad "size" = None ->
        predict_churn_by_segment scenario segments = Err (KeyError "size"))) /\
  (forall pct base,
     scenario_pct scenario = Num pct ->
     scenario_base scenario = Num base ->
     Forall numeric_elasticity segments ->
     Forall has_fields segments ->
     exists rs,
       predict_churn_by_segment scenario segments = Ok rs /\
       predict_churn_by_segment scenario (map explicit_elasticity segments) = Ok rs /\
       Forall2 (result_of pct base) (map explicit_elasticity segments) rs).
Proof.
  split; [|split].
  - intros Hex; apply (lacking_segment_faults scenario segments Hex).
  - intros good bad rest pct base -> Hp Hb Hnum Hhas [e He]; split.
    + intros Hn; apply (first_lacking_segment _ _ _ _ pct base "name" Hp Hb Hnum Hhas).
      unfold segment_fault; rewrite He, Hn; reflexivity.
    + intros name Hn Hz.
      apply (first_lacking_segment _ _ _ _ pct base "size" Hp Hb Hnum Hhas).
      unfold segment_fault; rewrite He, Hn, Hz; reflexivity.
  - intros pct base Hp Hb Hnum Hhas.
    destruct (segments_loop_ok _ _ _ _ Hp Hb Hnum Hhas []) as (rs & Hrs & Hall).
    exists rs; unfold predict_churn_by_segment.
    rewrite segments_loop_explicit; split; [exact Hrs|]; split; [exact Hrs|].
    clear Hrs Hnum Hhas; induction Hall as [|s r l l' Hr _ IH]; [constructor|].
    cbn [map]; constructor; [|exact IH].
    destruct Hr as (e & n & z & He & Hn & Hz & ->).
    exists e, n, z; unfold explicit_elasticity, segment_elasticity, dict_get_default in *.
    destruct (dict_get s "elasticity") as [v|] eqn:Hel.
    + rewrite Hel; repeat split; assumption.
    + cbn [dict_get String.eqb Ascii.eqb Bool.eqb]; rewrite Hn, Hz.
      repeat split; assumption.
Qed.

(** C9. For segments that meet the input contract,
    [predict_churn_by_segment] returns one result per segment, in the order
    of the input: the result at position [i] is the dictionary computed
    from the segment at position [i], namely its [name], its [size] and the
    four fields [churn_<key>] holding the horizon's [churn_uplift_pp] times
    the multiplier of that segment's elasticity, whatever the names and
    sizes are. *)
Theorem segments_in_order (scenario : dict (value T))
  (segments : list (dict (value T))) (pct base : T) :
  scenario_pct scenario = Num pct ->
  scenario_base scenario = Num base ->
  Forall numeric_elasticity segments ->
  Forall has_fields segments ->
  exists rs,
    predict_churn_by_segment scenario segments = Ok rs /\
    length rs = length segments /\
    forall i segment,
      nth_error segments i = Some segment ->
      exists e name size,
        segment_elasticity segment = Num e /\
        dict_get segment "name" = Some name /\
        dict_get segment "size" = Some size /\
        nth_error rs i
        = Some [ ("name", name); ("size", size);
                 ("churn_0_4_weeks",
                  Num (churn_uplift_pp (horizon_entry pct base (n_lit 0.006))
                       * segment_multiplier (n_abs e)));
                 ("churn_4_8_weeks",
                  Num (churn_uplift_pp (horizon_entry pct base (n_lit 0.018))
                       * segment_multiplier (n_abs e)));
                 ("churn_8_12_weeks",
                  Num (churn_uplift_pp (horizon_entry pct base (n_lit 0.028))
                       * segment_multiplier (n_abs e)));
                 ("churn_12plus_weeks",
                  Num (churn_uplift_pp (horizon_entry pct base (n_lit 0.008))
                       * segment_multiplier (n_abs e))) ].
Proof.
  intros Hp Hb Hnum Hhas.
  destruct (segments_loop_ok _ _ _ _ Hp Hb Hnum Hhas []) as (rs & Hrs & Hall).
  exists rs; split; [exact Hrs|]; split.
  - symmetry; eapply Forall2_length; exact Hall.
  - intros i segment Hi.
    destruct (Forall2_nth_error _ _ _ Hall _ _ Hi) as (r & Hr & Hres).
    destruct Hres as (e & name & size & He & Hn & Hz & ->).
    exists e, name, size; repeat split; try assumption.
Qed.

End SegmentOutcomes.

Section Reruns.

#[local] Existing Instance Binary64.reference.

Lemma missing_name_raises_type_error :
  lacks_field segment_untyped /\
  predict_churn_by_segment scenario_16 [segment_a; segment_untyped]
  = Err TypeError /\
  lacks_field segment_c /\
  predict_churn_by_segment scenario_untyped [segment_c] = Err TypeError.
Proof.
  split; [left; reflexivity|]; split; [reflexivity|].
  split; [left; reflexivity|reflexivity].
Qed.

Lemma segments_in_order_witness :
  exists rs,
    predict_churn_by_segment scenario_16 [segment_a; segment_b; segment_a'] = Ok rs /\
    length rs = 3%nat /\
    nth_error rs 1
    = Some [ ("name", Str "b"); ("size", Str "large");
             ("churn_0_4_weeks",
              Num (churn_uplift_pp
                     (horizon_entry (Binary64.literal 16.67) (Binary64.literal 0.05)
                        (Binary64.literal 0.006))
                   * segment_multiplier (abs (Binary64.literal (-2.0))))%float);
             ("churn_4_8_weeks",
              Num (churn_uplift_pp
                     (horizon_entry (Binary64.literal 16.67) (Binary64.literal 0.05)
                        (Binary64.literal 0.018))
                   * segment_multiplier (abs (Binary64.literal (-2.0))))%float);
             ("churn_8_12_weeks",
              Num (churn_uplift_pp
                     (horizon_entry (Binary64.literal 16.67) (Binary64.literal 0.05)
                        (Binary64.literal 0.028))
                   * segment_multiplier (abs (Binary64.literal (-2.0))))%float);
             ("churn_12plus_weeks",
              Num (churn_uplift_pp
                     (horizon_entry (Binary64.literal 16.67) (Binary64.literal 0.05)
                        (Binary64.literal 0.008))
                   * segment_multiplier (abs (Binary64.literal (-2.0))))%float) ].
Proof.
  destruct (segments_in_order scenario_16 [segment_a; segment_b; segment_a']
              _ _ eq_refl eq_refl) as (rs & Hrs & Hlen & Hall).
  - repeat constructor; eexists; reflexivity.
  - repeat constructor; eexists; reflexivity.
  - exists rs; split; [exact Hrs|]; split; [exact Hlen|].
    destruct (Hall 1%nat segment_b eq_refl) as (e & name & size & He & Hn & Hz & Hr).
    injection He as <-; injection Hn as <-; injection Hz as <-.
    exact Hr.
Defined.

Lemma missing_field_faults_witness :
  (exists err,
     predict_churn_by_segment scenario_16 [segment_a; segment_c; segment_b] = Err err) /\
  predict_churn_by_segment scenario_16 [segment_a; segment_c; segment_b]
  = Err (KeyError "name") /\
  (exists rs,
     predict_churn_by_segment scenario_16 [segment_a; segment_b] = Ok rs /\
     predict_churn_by_segment scenario_16
       (map explicit_elasticity [segment_a; segment_b]) = Ok rs).
Proof.
  split; [|split].
  - apply (proj1 (missing_field_faults scenario_16 [segment_a; segment_c; segment_b])).
    right; left; left; reflexivity.
  - refine (proj1 (proj1 (proj2 (missing_field_faults scenario_16
                                   [segment_a; segment_c; segment_b]))
                     [segment_a] segment_c [segment_b] _ _ eq_refl eq_refl eq_refl _ _ _)
              eq_refl).
    + repeat constructor; eexists; reflexivity.
    + repeat constructor; eexists; reflexivity.
    + eexists; reflexivity.
  - destruct (proj2 (proj2 (missing_field_faults scenario_16 [segment_a; segment_b]))
                _ _ eq_refl eq_refl) as (rs & H1 & H2 & _).
    + repeat constructor; eexists; reflexivity.
    + repeat constructor; eexists; reflexivity.
    + exists rs; split; assumption.
Defined.

End Reruns.
